(** * A shallow embedding of [vector.h]: [RawMemory<T>] and [Vector<T>]

    The two class templates of [src/advanced-vector/vector.h] are embedded
    as Rocq functions over an explicit model of raw storage:

    - a memory block is a list of slots, each slot being either raw
      (uninitialized) memory or a live object of the element type; an
      allocation of [n] elements asks for [n * sizeof(T)] bytes and gets
      the slots that fit in that many bytes;
    - [size_t] is a 64-bit unsigned integer, modelled in [N] with the
      wrap-around of its arithmetic written out;
    - C++ exceptions are an explicit [Throw] outcome that still carries the
      state of the objects that survive stack unwinding; whether a
      potentially-throwing element operation or an allocation throws is
      decided by a fault plan held in the [world];
    - assertion failures and undefined behaviour are the [Undef] outcome. *)

From Stdlib Require Import NArith ZArith Lia.
From stdpp Require Import base option list gmap.

Set Default Proof Using "Type".

(** ** [size_t] *)

Module SizeT.
Definition modulus : N := (2 ^ 64)%N.
Definition wrap (n : N) : N := (n mod modulus)%N.
(** [a + b], [a - b] and [a * b] on [size_t]. *)
Definition add (a b : N) : N := wrap (a + b).
Definition sub (a b : N) : N := wrap (a + modulus - wrap b).
Definition mul (a b : N) : N := wrap (a * b).
End SizeT.

(** ** Outcomes *)

(** [Ok a]: normal return of [a].  [Throw e]: an exception propagates to the
    caller; [e] is the state that outlives the unwinding.  [Undef]: a failed
    [assert] or undefined behaviour. *)
Inductive outcome (A E : Type) : Type :=
  | Ok (a : A)
  | Throw (e : E)
  | Undef.
Arguments Ok {A E} a.
Arguments Throw {A E} e.
Arguments Undef {A E}.

(** An operation on a mutable state [S]: the state comes back whether the
    operation returns or throws. *)
Definition update (S : Type) : Type := outcome S S.

(** ** The world outside the container *)

(** [faults]: the fault plan; each potentially-throwing operation consumes
    its head and throws when it is [true] (an empty plan never throws).
    [elem_ops]: number of element constructions and assignments performed
    so far (the counter of a probe type).
    [leaked]: number of live objects whose storage was released or reused
    without their destructor having run. *)
Record world : Type := World {
  faults : list bool;
  elem_ops : nat;
  leaked : nat
}.

(** A potentially-throwing step: [true] when it throws. *)
Definition attempt (w : world) : bool * world :=
  match faults w with
  | [] => (false, w)
  | f :: fs => (f, {| faults := fs; elem_ops := elem_ops w; leaked := leaked w |})
  end.

Definition count_op (w : world) : world :=
  {| faults := faults w; elem_ops := S (elem_ops w); leaked := leaked w |}.

Definition count_leaks (k : nat) (w : world) : world :=
  {| faults := faults w; elem_ops := elem_ops w; leaked := k + leaked w |}.

(** The world never throws again. *)
Definition calm (w : world) : Prop := forallb negb (faults w) = true.

(** ** The element type *)

(** What the container needs to know about [T]: [sizeof(T)], a positive
    [size_t]; the two type traits tested by [ReplaceOrCopyData]; the value
    of [T()]; and the state a moved-from object is left in. *)
Class Element (T : Type) := {
  sizeof_T : N;
  sizeof_T_range : (0 < sizeof_T < SizeT.modulus)%N;
  is_nothrow_move_constructible : bool;
  is_copy_constructible : bool;
  value_initialized : T;
  moved_from : T → T
}.

(** ** Slots and blocks *)

Inductive slot (T : Type) : Type :=
  | Raw
  | Live (v : T).
Arguments Raw {T}.
Arguments Live {T} v.

Abbreviation block T := (list (slot T)).

Definition is_live {T} (s : slot T) : bool :=
  match s with Live _ => true | Raw => false end.

Definition live_count {T} (b : block T) : nat := length (filter (λ s, is_live s = true) b).

Section Container.
Context {T : Type} {Elem : Element T}.

(** The null pointer: a block with no slot. *)
Definition nullptr : block T := [].

(** Placement new, [new (b + i) T(...)], the constructed value being [v].
    [noexcept] tells whether the selected constructor cannot throw. *)
Definition construct_at (noexcept : bool) (b : block T) (i : nat) (v : T) (w : world)
  : update (block T) * world :=
  match b !! i with
  | None => (Undef, w)
  | Some s =>
    let '(thrown, w1) := if noexcept then (false, w) else attempt w in
    if thrown then (Throw b, w1)
    else (Ok (<[i := Live v]> b),
          count_op (if is_live s then count_leaks 1 w1 else w1))
  end.

(** [b[i].~T()]: destroying what is not an object is undefined. *)
Definition destroy_at (b : block T) (i : nat) : option (block T) :=
  match b !! i with
  | Some (Live _) => Some (<[i := Raw]> b)
  | _ => None
  end.

(** [std::destroy_n(b + first, n)] *)
Fixpoint destroy_n (b : block T) (first n : nat) : option (block T) :=
  match n with
  | O => Some b
  | S n' =>
    match destroy_at b first with
    | Some b1 => destroy_n b1 (S first) n'
    | None => None
    end
  end.

(** The rollback step of the [std::uninitialized_*] algorithms: destroy
    the object built at [i] while an exception unwinds. *)
Definition unwind_at (i : nat) (r : update (block T) * world) : update (block T) * world :=
  match r with
  | (Throw b, w) =>
    match destroy_at b i with
    | Some b1 => (Throw b1, w)
    | None => (Undef, w)
    end
  | _ => r
  end.

(** [std::uninitialized_value_construct_n(dst + d_first, n)] *)
Fixpoint uninitialized_value_construct_n (dst : block T) (d_first n : nat) (w : world)
  : update (block T) * world :=
  match n with
  | O => (Ok dst, w)
  | S n' =>
    match construct_at false dst d_first value_initialized w with
    | (Ok dst1, w1) =>
      unwind_at d_first (uninitialized_value_construct_n dst1 (S d_first) n' w1)
    | r => r
    end
  end.

(** [std::uninitialized_copy_n(src + first, n, dst + d_first)], the two
    ranges lying in different blocks. *)
Fixpoint uninitialized_copy_n (src : block T) (first n : nat) (dst : block T) (d_first : nat)
    (w : world) : update (block T) * world :=
  match n with
  | O => (Ok dst, w)
  | S n' =>
    match src !! first with
    | Some (Live v) =>
      match construct_at false dst d_first v w with
      | (Ok dst1, w1) =>
        unwind_at d_first (uninitialized_copy_n src (S first) n' dst1 (S d_first) w1)
      | r => r
      end
    | _ => (Undef, w)
    end
  end.

(** The same rollback for an algorithm that also changes its source. *)
Definition unwind_pair_at (i : nat) (r : update (block T * block T) * world)
  : update (block T * block T) * world :=
  match r with
  | (Throw (src, dst), w) =>
    match destroy_at dst i with
    | Some dst1 => (Throw (src, dst1), w)
    | None => (Undef, w)
    end
  | _ => r
  end.

(** [std::uninitialized_move_n(src + first, n, dst + d_first)]: every
    source object is left in its moved-from state.  The result is the pair
    of the source and the destination block. *)
Fixpoint uninitialized_move_n (src : block T) (first n : nat) (dst : block T) (d_first : nat)
    (w : world) : update (block T * block T) * world :=
  match n with
  | O => (Ok (src, dst), w)
  | S n' =>
    match src !! first with
    | Some (Live v) =>
      match construct_at is_nothrow_move_constructible dst d_first v w with
      | (Ok dst1, w1) =>
        unwind_pair_at d_first
          (uninitialized_move_n (<[first := Live (moved_from v)]> src) (S first) n'
             dst1 (S d_first) w1)
      | (Throw dst1, w1) => (Throw (src, dst1), w1)
      | (Undef, w1) => (Undef, w1)
      end
    | _ => (Undef, w)
    end
  end.

(** [b[to] = std::move(b[from])] inside one block. *)
Definition move_assign_at (b : block T) (from to : nat) (w : world) : update (block T) * world :=
  match b !! from, b !! to with
  | Some (Live v), Some (Live _) =>
    let '(thrown, w1) := attempt w in
    if thrown then (Throw b, w1)
    else (Ok (<[to := Live v]> (<[from := Live (moved_from v)]> b)), count_op w1)
  | _, _ => (Undef, w)
  end.

(** [b[i] = v], [v] being an object outside the block (a copy assignment
    from another block, or the move assignment from a local). *)
Definition assign_at (b : block T) (i : nat) (v : T) (w : world) : update (block T) * world :=
  match b !! i with
  | Some (Live _) =>
    let '(thrown, w1) := attempt w in
    if thrown then (Throw b, w1)
    else (Ok (<[i := Live v]> b), count_op w1)
  | _ => (Undef, w)
  end.

(** [new (b + to) T(std::move(b[from]))] inside one block. *)
Definition move_construct_at (b : block T) (from to : nat) (w : world)
  : update (block T) * world :=
  match b !! from with
  | Some (Live v) =>
    match construct_at is_nothrow_move_constructible b to v w with
    | (Ok b1, w1) => (Ok (<[from := Live (moved_from v)]> b1), w1)
    | r => r
    end
  | _ => (Undef, w)
  end.

(** [std::move_backward(b + first, b + (first + n), b + d_last)]: while
    [first != last], both [last] and [d_last] step back and the object at
    [last] is move-assigned to the one at [d_last]. *)
Fixpoint move_backward (b : block T) (first n d_last : nat) (w : world)
  : update (block T) * world :=
  match n, d_last with
  | O, _ => (Ok b, w)
  | S n', S d_last' =>
    match move_assign_at b (first + n') d_last' w with
    | (Ok b1, w1) => move_backward b1 first n' d_last' w1
    | r => r
    end
  | S _, O => (Undef, w)
  end.

(** [std::move(b + first, b + (first + n), b + d_first)]: while
    [first != last], the object at [first] is move-assigned to the one at
    [d_first] and both step forward. *)
Fixpoint move_forward (b : block T) (first n d_first : nat) (w : world)
  : update (block T) * world :=
  match n with
  | O => (Ok b, w)
  | S n' =>
    match move_assign_at b first d_first w with
    | (Ok b1, w1) => move_forward b1 (S first) n' (S d_first) w1
    | r => r
    end
  end.

(** ** [RawMemory<T>] *)

Record RawMemory : Type := {
  buffer_ : block T;
  capacity_ : N
}.

(** [RawMemory() = default] *)
Definition RawMemory_default : RawMemory := {| buffer_ := nullptr; capacity_ := 0 |}.

(** [Allocate(n)]: [operator new] is called, and may throw, only when
    [n != 0].  It is asked for [n * sizeof(T)] bytes, a product taken in
    [size_t]: the block it returns has a slot for each whole [T] that fits
    in that many bytes, which is [n] slots only when the product does not
    wrap around. *)
Definition Allocate (n : N) (w : world) : outcome (block T) unit * world :=
  if (n =? 0)%N then (Ok nullptr, w)
  else
    let '(thrown, w1) := attempt w in
    if thrown then (Throw (), w1)
    else (Ok (replicate (N.to_nat (SizeT.mul n sizeof_T / sizeof_T)) Raw), w1).

(** [Deallocate(buf)]: objects still alive in the block are lost. *)
Definition Deallocate (buf : block T) (w : world) : world :=
  count_leaks (live_count buf) w.

(** [explicit RawMemory(size_t capacity)] *)
Definition RawMemory_new (capacity : N) (w : world) : outcome RawMemory unit * world :=
  match Allocate capacity w with
  | (Ok buf, w1) => (Ok {| buffer_ := buf; capacity_ := capacity |}, w1)
  | (Throw e, w1) => (Throw e, w1)
  | (Undef, w1) => (Undef, w1)
  end.

(** [~RawMemory()] *)
Definition RawMemory_dtor (m : RawMemory) (w : world) : world := Deallocate (buffer_ m) w.

(** [void Swap(RawMemory& other) noexcept]: the pair is ([*this], [other])
    after the call. *)
Definition RawMemory_Swap (this other : RawMemory) : RawMemory * RawMemory :=
  ({| buffer_ := buffer_ other; capacity_ := capacity_ other |},
   {| buffer_ := buffer_ this; capacity_ := capacity_ this |}).

(** [RawMemory(RawMemory&& other) noexcept { Swap(other); }] on the
    default-initialized members. *)
Definition RawMemory_move (other : RawMemory) : RawMemory * RawMemory :=
  RawMemory_Swap RawMemory_default other.

(** [RawMemory& operator=(RawMemory&& other) noexcept { Swap(other); ... }] *)
Definition RawMemory_move_assign (this other : RawMemory) : RawMemory * RawMemory :=
  RawMemory_Swap this other.

(** [T* operator+(size_t offset)]: a pointer into the block is the index
    of its slot; [None] when [assert(offset <= capacity_)] fails. *)
Definition RawMemory_plus (m : RawMemory) (offset : N) : option nat :=
  if (offset <=? capacity_ m)%N then Some (N.to_nat offset) else None.

(** [T& operator[](size_t index)]: [None] when [assert(index < capacity_)]
    fails. *)
Definition RawMemory_at (m : RawMemory) (index : N) : option nat :=
  if (index <? capacity_ m)%N then Some (N.to_nat index) else None.

(** [T* GetAddress()] *)
Definition GetAddress (m : RawMemory) : nat := 0.

(** ** [Vector<T>] *)

Record Vector : Type := {
  data_ : RawMemory;
  size_ : N
}.

(** [*this] with the contents of its block replaced by [b]. *)
Definition with_buffer (this : Vector) (b : block T) : Vector :=
  {| data_ := {| buffer_ := b; capacity_ := capacity_ (data_ this) |}; size_ := size_ this |}.

(** [Vector() = default] *)
Definition Vector_default : Vector := {| data_ := RawMemory_default; size_ := 0 |}.

Definition Size (this : Vector) : N := size_ this.
Definition Capacity (this : Vector) : N := capacity_ (data_ this).

(** [begin()] and [end()]: an iterator is the index of the slot it points
    to; [end()] goes through [data_ + size_] and its assertion. *)
Definition begin_ (this : Vector) : nat := GetAddress (data_ this).
Definition end_ (this : Vector) : option nat := RawMemory_plus (data_ this) (size_ this).

(** [T& operator[](size_t index)]: the object referred to, [None] when
    [assert(index < size_)] or the one of [data_[index]] fails, or when
    the slot holds no object. *)
Definition Vector_at (this : Vector) (index : N) : option T :=
  if (index <? size_ this)%N then
    match RawMemory_at (data_ this) index with
    | Some i =>
      match buffer_ (data_ this) !! i with
      | Some (Live v) => Some v
      | _ => None
      end
    | None => None
    end
  else None.

(** [explicit Vector(size_t size)] *)
Definition Vector_sized (size : N) (w : world) : outcome Vector unit * world :=
  match RawMemory_new size w with
  | (Ok data, w1) =>
    match uninitialized_value_construct_n (buffer_ data) (GetAddress data) (N.to_nat size) w1 with
    | (Ok b, w2) =>
      (Ok {| data_ := {| buffer_ := b; capacity_ := capacity_ data |}; size_ := size |}, w2)
    | (Throw b, w2) => (Throw (), Deallocate b w2)
    | (Undef, w2) => (Undef, w2)
    end
  | (Throw e, w1) => (Throw e, w1)
  | (Undef, w1) => (Undef, w1)
  end.

(** [Vector(const Vector& other)] *)
Definition Vector_copy (other : Vector) (w : world) : outcome Vector unit * world :=
  match RawMemory_new (Size other) w with
  | (Ok data, w1) =>
    match uninitialized_copy_n (buffer_ (data_ other)) (GetAddress (data_ other))
            (N.to_nat (size_ other)) (buffer_ data) (GetAddress data) w1 with
    | (Ok b, w2) =>
      (Ok {| data_ := {| buffer_ := b; capacity_ := capacity_ data |}; size_ := size_ other |}, w2)
    | (Throw b, w2) => (Throw (), Deallocate b w2)
    | (Undef, w2) => (Undef, w2)
    end
  | (Throw e, w1) => (Throw e, w1)
  | (Undef, w1) => (Undef, w1)
  end.

(** [Vector(Vector&& other) noexcept]: the pair is the new vector and
    [other] after the call. *)
Definition Vector_move (other : Vector) : Vector * Vector :=
  let '(data, other_data) := RawMemory_move (data_ other) in
  ({| data_ := data; size_ := size_ other |},
   {| data_ := other_data; size_ := 0 |}).

(** [~Vector()]: [std::destroy_n(data_.GetAddress(), size_)], then the
    destructor of [data_]. *)
Definition Vector_dtor (this : Vector) (w : world) : option world :=
  match destroy_n (buffer_ (data_ this)) (GetAddress (data_ this)) (N.to_nat (size_ this)) with
  | Some b => Some (Deallocate b w)
  | None => None
  end.

(** [void Swap(Vector& other) noexcept] *)
Definition Swap (this other : Vector) : Vector * Vector :=
  let '(data, other_data) := RawMemory_Swap (data_ this) (data_ other) in
  ({| data_ := data; size_ := size_ other |},
   {| data_ := other_data; size_ := size_ this |}).

(** [void ReplaceOrCopyData(iterator old, size_t size, iterator new_it)]:
    [old_it] points into the block [old], [new_it] into the block [new];
    the result is the pair of the two blocks. *)
Definition ReplaceOrCopyData (old : block T) (old_it : nat) (size : nat)
    (new : block T) (new_it : nat) (w : world) : update (block T * block T) * world :=
  let transferred :=
    if is_nothrow_move_constructible || negb is_copy_constructible
    then uninitialized_move_n old old_it size new new_it w
    else
      match uninitialized_copy_n old old_it size new new_it w with
      | (Ok new1, w1) => (Ok (old, new1), w1)
      | (Throw new1, w1) => (Throw (old, new1), w1)
      | (Undef, w1) => (Undef, w1)
      end in
  match transferred with
  | (Ok (old1, new1), w1) =>
    match destroy_n old1 old_it size with
    | Some old2 => (Ok (old2, new1), w1)
    | None => (Undef, w1)
    end
  | r => r
  end.

(** [void Reserve(size_t new_capacity)] *)
Definition Reserve (new_capacity : N) (this : Vector) (w : world) : update Vector * world :=
  if (Capacity this <? new_capacity)%N then
    match RawMemory_new new_capacity w with
    | (Ok new_data, w1) =>
      match ReplaceOrCopyData (buffer_ (data_ this)) (GetAddress (data_ this))
              (N.to_nat (size_ this)) (buffer_ new_data) (GetAddress new_data) w1 with
      | (Ok (old, new), w2) =>
        let '(data, new_data1) :=
          RawMemory_Swap {| buffer_ := old; capacity_ := capacity_ (data_ this) |}
                         {| buffer_ := new; capacity_ := capacity_ new_data |} in
        (Ok {| data_ := data; size_ := size_ this |}, RawMemory_dtor new_data1 w2)
      | (Throw (old, new), w2) => (Throw (with_buffer this old), Deallocate new w2)
      | (Undef, w2) => (Undef, w2)
      end
    | (Throw _, w1) => (Throw this, w1)
    | (Undef, w1) => (Undef, w1)
    end
  else (Ok this, w).

(** [void Resize(size_t new_size)] *)
Definition Resize (new_size : N) (this : Vector) (w : world) : update Vector * world :=
  if (new_size =? size_ this)%N then (Ok this, w)
  else if (new_size <? size_ this)%N then
    match destroy_n (buffer_ (data_ this)) (GetAddress (data_ this) + N.to_nat new_size)
            (N.to_nat (SizeT.sub (size_ this) new_size)) with
    | Some b => (Ok {| data_ := data_ (with_buffer this b); size_ := new_size |}, w)
    | None => (Undef, w)
    end
  else
    match Reserve new_size this w with
    | (Ok this1, w1) =>
      match uninitialized_value_construct_n (buffer_ (data_ this1))
              (GetAddress (data_ this1) + N.to_nat (size_ this1))
              (N.to_nat (SizeT.sub new_size (size_ this1))) w1 with
      | (Ok b, w2) => (Ok {| data_ := data_ (with_buffer this1 b); size_ := new_size |}, w2)
      | (Throw b, w2) => (Throw (with_buffer this1 b), w2)
      | (Undef, w2) => (Undef, w2)
      end
    | r => r
    end.

(** [T& EmplaceBack(Args&&... args)]: [x] is the value that [T(args...)]
    constructs and [noexcept] tells whether that constructor cannot
    throw.  The reference returned is the index of the slot in [data_]. *)
Definition EmplaceBack (noexcept : bool) (x : T) (this : Vector) (w : world)
  : outcome (nat * Vector) Vector * world :=
  if (size_ this =? Capacity this)%N then
    match RawMemory_new (if (size_ this =? 0)%N then 1%N else SizeT.mul (size_ this) 2) w with
    | (Ok new_data, w1) =>
      match RawMemory_plus new_data (size_ this) with
      | Some t =>
        match construct_at noexcept (buffer_ new_data) t x w1 with
        | (Ok new, w2) =>
          match ReplaceOrCopyData (buffer_ (data_ this)) (GetAddress (data_ this))
                  (N.to_nat (size_ this)) new (GetAddress new_data) w2 with
          | (Ok (old, new1), w3) =>
            let '(data, new_data1) :=
              RawMemory_Swap {| buffer_ := old; capacity_ := capacity_ (data_ this) |}
                             {| buffer_ := new1; capacity_ := capacity_ new_data |} in
            (Ok (t, {| data_ := data; size_ := SizeT.add (size_ this) 1 |}),
             RawMemory_dtor new_data1 w3)
          | (Throw (old, new1), w3) => (Throw (with_buffer this old), Deallocate new1 w3)
          | (Undef, w3) => (Undef, w3)
          end
        | (Throw new, w2) => (Throw this, Deallocate new w2)
        | (Undef, w2) => (Undef, w2)
        end
      | None => (Undef, w1)
      end
    | (Throw _, w1) => (Throw this, w1)
    | (Undef, w1) => (Undef, w1)
    end
  else
    match RawMemory_plus (data_ this) (size_ this) with
    | Some t =>
      match construct_at noexcept (buffer_ (data_ this)) t x w with
      | (Ok b, w1) =>
        (Ok (t, {| data_ := data_ (with_buffer this b);
                            size_ := SizeT.add (size_ this) 1 |}), w1)
      | (Throw _, w1) => (Throw this, w1)
      | (Undef, w1) => (Undef, w1)
      end
    | None => (Undef, w)
    end.

(** [void PushBack(const T& value)]: the copy constructor builds the
    element. *)
Definition PushBack (value : T) (this : Vector) (w : world) : update Vector * world :=
  match EmplaceBack false value this w with
  | (Ok (_, this1), w1) => (Ok this1, w1)
  | (Throw this1, w1) => (Throw this1, w1)
  | (Undef, w1) => (Undef, w1)
  end.

(** [void PushBack(T&& value)]: the move constructor builds the element. *)
Definition PushBack_move (value : T) (this : Vector) (w : world) : update Vector * world :=
  match EmplaceBack is_nothrow_move_constructible value this w with
  | (Ok (_, this1), w1) => (Ok this1, w1)
  | (Throw this1, w1) => (Throw this1, w1)
  | (Undef, w1) => (Undef, w1)
  end.

(** [void PopBack() noexcept]: [data_[--size_].~T()]; [None] is undefined
    behaviour. *)
Definition PopBack (this : Vector) : option Vector :=
  let size := SizeT.sub (size_ this) 1 in
  match RawMemory_at (data_ this) size with
  | Some i =>
    match destroy_at (buffer_ (data_ this)) i with
    | Some b => Some {| data_ := data_ (with_buffer this b); size_ := size |}
    | None => None
    end
  | None => None
  end.

(** The construction of a local object, [T temp_obj(args...)]: [true]
    when it throws. *)
Definition construct_local (noexcept : bool) (w : world) : bool * world :=
  let '(thrown, w1) := if noexcept then (false, w) else attempt w in
  (thrown, if thrown then w1 else count_op w1).

(** The end of [Emplace] on its growth path:
    [data_.Swap(new_data); ++size_; return data_ + index;], then the
    destructor of [new_data]. *)
Definition Emplace_commit (this : Vector) (index : N) (old new : block T) (new_capacity : N)
    (w : world) : outcome (nat * Vector) Vector * world :=
  let '(data, new_data1) :=
    RawMemory_Swap {| buffer_ := old; capacity_ := capacity_ (data_ this) |}
                   {| buffer_ := new; capacity_ := new_capacity |} in
  match RawMemory_plus data index with
  | Some r =>
    (Ok (r, {| data_ := data; size_ := SizeT.add (size_ this) 1 |}),
     RawMemory_dtor new_data1 w)
  | None => (Undef, w)
  end.

(** [iterator Emplace(const_iterator pos, Args&&... args)], with [x] and
    [noexcept] as in [EmplaceBack]. *)
Definition Emplace (noexcept : bool) (pos : nat) (x : T) (this : Vector) (w : world)
  : outcome (nat * Vector) Vector * world :=
  match end_ this with
  | None => (Undef, w)
  | Some e =>
    if (pos =? e)%nat then EmplaceBack noexcept x this w
    else
      let index := N.of_nat (pos - begin_ this) in
      if negb (size_ this =? Capacity this)%N then
        let '(thrown, w1) := construct_local noexcept w in
        if thrown then (Throw this, w1)
        else
          let last_el := SizeT.sub (size_ this) 1 in
          match RawMemory_at (data_ this) last_el,
                RawMemory_plus (data_ this) index,
                RawMemory_plus (data_ this) last_el,
                RawMemory_at (data_ this) index with
          | Some l, Some first, Some last, Some i =>
            match move_construct_at (buffer_ (data_ this)) l e w1 with
            | (Ok b1, w2) =>
              if (first <=? last)%nat then
                match move_backward b1 first (last - first) e w2 with
                | (Ok b2, w3) =>
                  match assign_at b2 i x w3 with
                  | (Ok b3, w4) =>
                    (Ok (first, {| data_ := data_ (with_buffer this b3);
                                   size_ := SizeT.add (size_ this) 1 |}), w4)
                  | (Throw b3, w4) => (Throw (with_buffer this b3), w4)
                  | (Undef, w4) => (Undef, w4)
                  end
                | (Throw b2, w3) => (Throw (with_buffer this b2), w3)
                | (Undef, w3) => (Undef, w3)
                end
              else (Undef, w2)
            | (Throw b1, w2) => (Throw (with_buffer this b1), w2)
            | (Undef, w2) => (Undef, w2)
            end
          | _, _, _, _ => (Undef, w1)
          end
      else
        match RawMemory_new (if (size_ this =? 0)%N then 1%N else SizeT.mul (size_ this) 2) w with
        | (Ok new_data, w1) =>
          match RawMemory_plus new_data index, RawMemory_at new_data index,
                RawMemory_plus (data_ this) index,
                RawMemory_plus new_data (SizeT.add index 1) with
          | Some t, Some i, Some from, Some to =>
            match construct_at noexcept (buffer_ new_data) t x w1 with
            | (Ok new, w2) =>
              (* try { ReplaceOrCopyData(data_.GetAddress(), index, new_data.GetAddress()); } *)
              match ReplaceOrCopyData (buffer_ (data_ this)) (GetAddress (data_ this))
                      (N.to_nat index) new (GetAddress new_data) w2 with
              | (Ok (old, new1), w3) =>
                (* try { ReplaceOrCopyData(data_ + index, size_ - index, new_data + (index + 1)); } *)
                match ReplaceOrCopyData old from (N.to_nat (SizeT.sub (size_ this) index))
                        new1 to w3 with
                | (Ok (old1, new2), w4) =>
                  Emplace_commit this index old1 new2 (capacity_ new_data) w4
                | (Throw (old1, new2), w4) =>
                  (* catch (...) { std::destroy_n(new_data.GetAddress(), index + 1); } *)
                  match destroy_n new2 (GetAddress new_data) (N.to_nat (SizeT.add index 1)) with
                  | Some new3 => Emplace_commit this index old1 new3 (capacity_ new_data) w4
                  | None => (Undef, w4)
                  end
                | (Undef, w4) => (Undef, w4)
                end
              | (Throw (old, new1), w3) =>
                (* catch (...) { new_data[index].~T(); throw; } *)
                match destroy_at new1 i with
                | Some new2 => (Throw (with_buffer this old), Deallocate new2 w3)
                | None => (Undef, w3)
                end
              | (Undef, w3) => (Undef, w3)
              end
            | (Throw new, w2) => (Throw this, Deallocate new w2)
            | (Undef, w2) => (Undef, w2)
            end
          | _, _, _, _ => (Undef, w1)
          end
        | (Throw _, w1) => (Throw this, w1)
        | (Undef, w1) => (Undef, w1)
        end
  end.

(** [iterator Insert(const_iterator pos, const T& value)] *)
Definition Insert (pos : nat) (value : T) (this : Vector) (w : world)
  : outcome (nat * Vector) Vector * world :=
  Emplace false pos value this w.

(** [iterator Insert(const_iterator pos, T&& value)] *)
Definition Insert_move (pos : nat) (value : T) (this : Vector) (w : world)
  : outcome (nat * Vector) Vector * world :=
  Emplace is_nothrow_move_constructible pos value this w.

(** [iterator Erase(const_iterator pos)] *)
Definition Erase (pos : nat) (this : Vector) (w : world)
  : outcome (nat * Vector) Vector * world :=
  match end_ this with
  | None => (Undef, w)
  | Some e =>
    if (pos =? e)%nat then
      match PopBack this with
      | Some this1 =>
        match end_ this1 with
        | Some e1 => (Ok (e1, this1), w)
        | None => (Undef, w)
        end
      | None => (Undef, w)
      end
    else
      let index := N.of_nat (pos - begin_ this) in
      match RawMemory_plus (data_ this) index with
      | Some d_first =>
        if (d_first + 1 <=? e)%nat then
          match move_forward (buffer_ (data_ this)) (d_first + 1) (e - (d_first + 1)) d_first w with
          | (Ok b, w1) =>
            match PopBack (with_buffer this b) with
            | Some this1 =>
              match RawMemory_plus (data_ this1) index with
              | Some r => (Ok (r, this1), w1)
              | None => (Undef, w1)
              end
            | None => (Undef, w1)
            end
          | (Throw b, w1) => (Throw (with_buffer this b), w1)
          | (Undef, w1) => (Undef, w1)
          end
        else (Undef, w)
      | None => (Undef, w)
      end
  end.

(** The loop of the copy assignment,
    [for (size_t i = 0; i < size; ++i) data_[i] = other.data_[i];],
    with [n] iterations to go. *)
Fixpoint assign_elements (other : RawMemory) (this : Vector) (i n : nat) (w : world)
  : update Vector * world :=
  match n with
  | O => (Ok this, w)
  | S n' =>
    match RawMemory_at other (N.of_nat i), RawMemory_at (data_ this) (N.of_nat i) with
    | Some src, Some dst =>
      match buffer_ other !! src with
      | Some (Live v) =>
        match assign_at (buffer_ (data_ this)) dst v w with
        | (Ok b, w1) => assign_elements other (with_buffer this b) (S i) n' w1
        | (Throw b, w1) => (Throw (with_buffer this b), w1)
        | (Undef, w1) => (Undef, w1)
        end
      | _ => (Undef, w)
      end
    | _, _ => (Undef, w)
    end
  end.

(** The body of [Vector& operator=(const Vector& other)] under
    [this != &other]. *)
Definition copy_assign (this other : Vector) (w : world) : update Vector * world :=
  if (Capacity this <? size_ other)%N then
    match Vector_copy other w with
    | (Ok new_vector, w1) =>
      let '(this1, new_vector1) := Swap this new_vector in
      match Vector_dtor new_vector1 w1 with
      | Some w2 => (Ok this1, w2)
      | None => (Undef, w1)
      end
    | (Throw _, w1) => (Throw this, w1)
    | (Undef, w1) => (Undef, w1)
    end
  else
    let size := N.min (size_ other) (size_ this) in
    match assign_elements (data_ other) this 0 (N.to_nat size) w with
    | (Ok this1, w1) =>
      if (size_ this1 <? size_ other)%N then
        match uninitialized_copy_n (buffer_ (data_ other))
                (GetAddress (data_ other) + N.to_nat (size_ this1))
                (N.to_nat (SizeT.sub (size_ other) (size_ this1)))
                (buffer_ (data_ this1))
                (GetAddress (data_ this1) + N.to_nat (size_ this1)) w1 with
        | (Ok b, w2) =>
          (Ok {| data_ := data_ (with_buffer this1 b); size_ := size_ other |}, w2)
        | (Throw b, w2) => (Throw (with_buffer this1 b), w2)
        | (Undef, w2) => (Undef, w2)
        end
      else
        match destroy_n (buffer_ (data_ this1))
                (GetAddress (data_ this1) + N.to_nat (size_ other))
                (N.to_nat (SizeT.sub (size_ this1) (size_ other))) with
        | Some b => (Ok {| data_ := data_ (with_buffer this1 b); size_ := size_ other |}, w1)
        | None => (Undef, w1)
        end
    | r => r
    end.

(** The body of [Vector& operator=(Vector&& other) noexcept] under
    [this != &other]: [data_ = std::move(other.data_);
    size_ = std::exchange(other.size_, 0);].  The pair is ([*this],
    [other]) after the call. *)
Definition move_assign (this other : Vector) : Vector * Vector :=
  let '(data, other_data) := RawMemory_move_assign (data_ this) (data_ other) in
  ({| data_ := data; size_ := size_ other |},
   {| data_ := other_data; size_ := 0 |}).

(** ** Vectors as objects

    The assignment operators compare the addresses of their operands, so
    they are embedded over a store that maps addresses to vectors. *)

(** [Vector& operator=(const Vector& other)], [this] and [other] being
    addresses of vectors in the store. *)
Definition operator_assign (this other : nat) (st : gmap nat Vector) (w : world)
  : update (gmap nat Vector) * world :=
  match st !! this, st !! other with
  | Some a, Some b =>
    if decide (this ≠ other) then
      match copy_assign a b w with
      | (Ok a1, w1) => (Ok (<[this := a1]> st), w1)
      | (Throw a1, w1) => (Throw (<[this := a1]> st), w1)
      | (Undef, w1) => (Undef, w1)
      end
    else (Ok st, w)
  | _, _ => (Undef, w)
  end.

(** [Vector& operator=(Vector&& other) noexcept] *)
Definition operator_assign_move (this other : nat) (st : gmap nat Vector)
  : option (gmap nat Vector) :=
  match st !! this, st !! other with
  | Some a, Some b =>
    if decide (this ≠ other) then
      let '(a1, b1) := move_assign a b in
      Some (<[other := b1]> (<[this := a1]> st))
    else Some st
  | _, _ => None
  end.

End Container.

Arguments RawMemory : clear implicits.
Arguments Vector : clear implicits.

(** ** Vocabulary of the specification *)

(** [after n w w']: [w'] is reached from [w] by [n] element operations that
    lost no object; a calm world stays calm. *)
Definition after (n : nat) (w w' : world) : Prop :=
  leaked w' = leaked w ∧ elem_ops w' = n + elem_ops w ∧ (calm w → calm w').

Section Vocabulary.
Context {T : Type} {Elem : Element T}.

(** A block of [cap] slots whose leading slots hold the objects [xs]. *)
Definition filled (xs : list T) (cap : nat) : block T :=
  (Live <$> xs) ++ replicate (cap - length xs) Raw.

(** The vector of capacity [cap] that holds [xs]. *)
Definition vector_of (xs : list T) (cap : nat) : Vector T :=
  {| data_ := {| buffer_ := filled xs cap; capacity_ := N.of_nat cap |};
     size_ := N.of_nat (length xs) |}.

(** The invariant of the data model: [size_ <= capacity_], the block has
    [capacity_] slots, its size [capacity_ * sizeof(T)] in bytes is a
    [size_t], the slots [[0, size_)] hold objects and the slots
    [[size_, capacity_)] are raw. *)
Definition invariant (this : Vector T) : bool :=
  (size_ this <=? capacity_ (data_ this))%N
  && (N.of_nat (length (buffer_ (data_ this))) =? capacity_ (data_ this))%N
  && (capacity_ (data_ this) * sizeof_T <? SizeT.modulus)%N
  && forallb is_live (take (N.to_nat (size_ this)) (buffer_ (data_ this)))
  && forallb (λ s, negb (is_live s)) (drop (N.to_nat (size_ this)) (buffer_ (data_ this))).

(** What a client reads through [operator[]] at the indices
    [0 .. Size() - 1]; [None] at an index whose access is undefined. *)
Definition elements (this : Vector T) : list (option T) :=
  (λ i, Vector_at this (N.of_nat i)) <$> seq 0 (N.to_nat (Size this)).

(** The capacity chosen by a push that has to grow:
    [size_ == 0 ? 1 : size_ * 2]. *)
Definition grown (size : nat) : nat := if (size =? 0)%nat then 1 else size * 2.

(** A call that appends one element. *)
Inductive push_call : Type :=
  | CallPushBack (value : T)
  | CallPushBackMove (value : T)
  | CallEmplaceBack (noexcept : bool) (x : T).

Definition pushed (c : push_call) : T :=
  match c with
  | CallPushBack value => value
  | CallPushBackMove value => value
  | CallEmplaceBack _ x => x
  end.

Definition push (c : push_call) (this : Vector T) (w : world) : update (Vector T) * world :=
  match c with
  | CallPushBack value => PushBack value this w
  | CallPushBackMove value => PushBack_move value this w
  | CallEmplaceBack noexcept x =>
    match EmplaceBack noexcept x this w with
    | (Ok (_, this1), w1) => (Ok this1, w1)
    | (Throw this1, w1) => (Throw this1, w1)
    | (Undef, w1) => (Undef, w1)
    end
  end.

(** A sequence of such calls, stopped by the first exception. *)
Fixpoint push_all (cs : list push_call) (this : Vector T) (w : world)
  : update (Vector T) * world :=
  match cs with
  | [] => (Ok this, w)
  | c :: cs' =>
    match push c this w with
    | (Ok this1, w1) => push_all cs' this1 w1
    | r => r
    end
  end.

End Vocabulary.

(** The liveness pattern of a block: which of its slots hold an object. *)
Definition shape {T} (b : block T) : list bool := is_live <$> b.

(** ** Two element types *)

(** [int]: four bytes, copyable, with a move that cannot throw. *)
Definition int_element : Element Z :=
  {| sizeof_T := 4;
     sizeof_T_range := conj eq_refl eq_refl;
     is_nothrow_move_constructible := true;
     is_copy_constructible := true;
     value_initialized := 0%Z;
     moved_from := λ v, v |}.

(** A probe type holding an [int]: copyable, its move constructor is not
    [noexcept], and its constructors throw when the fault plan says so. *)
Definition probe_element : Element Z :=
  {| sizeof_T := 4;
     sizeof_T_range := conj eq_refl eq_refl;
     is_nothrow_move_constructible := false;
     is_copy_constructible := true;
     value_initialized := 0%Z;
     moved_from := λ v, v |}.

(** A world in which nothing has happened and nothing throws. *)
Definition quiet : world := {| faults := []; elem_ops := 0; leaked := 0 |}.

(** A world in which the fourth potentially-throwing step throws: for an
    [Emplace] of a probe at index 1 of a full vector of two probes, these
    steps are the allocation, the construction of the new element, the copy
    of the prefix and the copy of the suffix. *)
Definition suffix_fault : world :=
  {| faults := [false; false; false; true]; elem_ops := 0; leaked := 0 |}.

(** Two vectors of [int]s: [[7]] at address 0 and [[1, 2]] at address 1,
    both full. *)
Definition two_vectors : gmap nat (Vector Z) :=
  <[0 := vector_of [7%Z] 1]> (<[1 := vector_of [1%Z; 2%Z] 2]> ∅).

(** Three pushes, one through each entry point. *)
Definition three_pushes : list (push_call (T := Z)) :=
  [CallPushBack 1%Z; CallEmplaceBack false 2%Z; CallPushBackMove 3%Z].

(** ** Proof automation *)

(** Decides the comparisons of sizes on which the code branches. *)
Ltac decide_N :=
  repeat match goal with
  | |- context [(?a =? ?b)%N] => destruct (N.eqb_spec a b); try lia
  | |- context [(?a <? ?b)%N] => destruct (N.ltb_spec a b); try lia
  | |- context [(?a <=? ?b)%N] => destruct (N.leb_spec a b); try lia
  end.

(** Closes an equation between two states that differ in how their sizes
    are written. *)
Ltac same_state := repeat (f_equal; try lia); try done.

(** Brings the blocks of a goal to the form [l1 ++ s :: l2 ++ ...]. *)
Ltac norm_blocks :=
  repeat (progress (rewrite ?fmap_app, ?fmap_cons, ?length_app, <- ?app_assoc;
                    cbn [app length fmap list_fmap])).

(** * Properties *)

(** ** [size_t] arithmetic that stays in range *)

Lemma wrap_small (n : N) : (n < SizeT.modulus)%N → SizeT.wrap n = n.
Proof. intros Hn. unfold SizeT.wrap. by apply N.mod_small. Qed.

Lemma add_small (a b : N) : (a + b < SizeT.modulus)%N → SizeT.add a b = (a + b)%N.
Proof. intros Hn. unfold SizeT.add. by apply wrap_small. Qed.

Lemma mul_small (a b : N) : (a * b < SizeT.modulus)%N → SizeT.mul a b = (a * b)%N.
Proof. intros Hn. unfold SizeT.mul. by apply wrap_small. Qed.

Lemma sub_small (a b : N) :
  (b <= a)%N → (a < SizeT.modulus)%N → SizeT.sub a b = (a - b)%N.
Proof.
  intros Hb Ha. unfold SizeT.sub. rewrite (wrap_small b) by lia.
  unfold SizeT.wrap.
  replace (a + SizeT.modulus - b)%N with ((a - b) + 1 * SizeT.modulus)%N by lia.
  rewrite N.Div0.mod_add. apply N.mod_small. lia.
Qed.

(** A number of elements whose size in bytes is a [size_t] is one itself,
    and the slots of a block of that many bytes are as many. *)
Lemma bytes_count `{Elem : Element T} (n : N) :
  (n * sizeof_T < SizeT.modulus)%N → (n < SizeT.modulus)%N.
Proof. pose proof (sizeof_T_range (T := T)). nia. Qed.

Lemma bytes_le `{Elem : Element T} (a b : N) :
  (a <= b)%N → (b * sizeof_T < SizeT.modulus)%N → (a * sizeof_T < SizeT.modulus)%N.
Proof. nia. Qed.

Lemma slots_exact `{Elem : Element T} (n : N) :
  (n * sizeof_T < SizeT.modulus)%N → (SizeT.mul n sizeof_T / sizeof_T)%N = n.
Proof.
  intros Hn. pose proof (sizeof_T_range (T := T)).
  rewrite mul_small by done. apply N.div_mul. lia.
Qed.

Lemma slots_short `{Elem : Element T} (n : N) :
  (SizeT.modulus <= n * sizeof_T)%N → (SizeT.mul n sizeof_T / sizeof_T < n)%N.
Proof.
  intros Hn. pose proof (sizeof_T_range (T := T)) as [Hpos _].
  apply N.Div0.div_lt_upper_bound.
  unfold SizeT.mul, SizeT.wrap.
  pose proof (N.mod_upper_bound (n * sizeof_T) SizeT.modulus).
  assert (SizeT.modulus ≠ 0%N) by done. lia.
Qed.

(** ** The world *)

Lemma after_refl w : after 0 w w.
Proof. by repeat split. Qed.

Lemma after_trans n m w1 w2 w3 : after n w1 w2 → after m w2 w3 → after (n + m) w1 w3.
Proof.
  intros (Hl1 & Ho1 & Hc1) (Hl2 & Ho2 & Hc2). repeat split; [congruence | lia | auto].
Qed.

Lemma attempt_spec w :
  ∃ w', (attempt w = (false, w') ∧ after 0 w w')
        ∨ (attempt w = (true, w') ∧ leaked w' = leaked w ∧ ¬ calm w).
Proof.
  unfold attempt, after, calm. destruct w as [[|[] fs] ops lk]; simpl.
  - eexists; left; eauto.
  - eexists; right. by split_and!.
  - eexists; left. by split_and!.
Qed.

Lemma after_count_op n w w' : after n w w' → after (S n) w (count_op w').
Proof. intros (Hl & Ho & Hc). repeat split; simpl; [done | lia | done]. Qed.

Lemma Deallocate_nothing_live {T} (b : block T) w :
  live_count b = 0 → Deallocate b w = w.
Proof. intros Hb. unfold Deallocate, count_leaks. rewrite Hb. by destruct w. Qed.

(** ** The algorithms on blocks *)

Section BlockLemmas.
Context {T : Type} {Elem : Element T}.
Implicit Types (pre post src dst : block T) (s : slot T) (vs : list T) (w : world).

Lemma lookup_middle pre s post : (pre ++ s :: post) !! length pre = Some s.
Proof. by apply list_lookup_middle. Qed.

Lemma insert_middle pre s s' post :
  <[length pre := s']> (pre ++ s :: post) = pre ++ s' :: post.
Proof.
  rewrite insert_app_r_alt by lia. by rewrite Nat.sub_diag.
Qed.

Lemma snoc_middle pre s post : (pre ++ [s]) ++ post = pre ++ s :: post.
Proof. by rewrite <- app_assoc. Qed.

Lemma length_snoc pre s : length (pre ++ [s]) = S (length pre).
Proof. rewrite length_app. simpl. lia. Qed.

Lemma construct_at_raw noexcept pre post v w :
  ∃ w', (construct_at noexcept (pre ++ Raw :: post) (length pre) v w
           = (Ok (pre ++ Live v :: post), w') ∧ after 1 w w')
        ∨ (construct_at noexcept (pre ++ Raw :: post) (length pre) v w
             = (Throw (pre ++ Raw :: post), w')
           ∧ leaked w' = leaked w ∧ ¬ calm w ∧ noexcept = false).
Proof.
  unfold construct_at. rewrite lookup_middle, insert_middle. simpl.
  destruct noexcept.
  - exists (count_op w). left. split; [done|]. apply after_count_op, after_refl.
  - destruct (attempt_spec w) as [w1 [[-> Hw]|(-> & Hl & Hc)]].
    + exists (count_op w1). left. split; [done|]. by apply after_count_op.
    + exists w1. by right.
Qed.

Lemma destroy_at_live pre v post :
  destroy_at (pre ++ Live v :: post) (length pre) = Some (pre ++ Raw :: post).
Proof. unfold destroy_at. by rewrite lookup_middle, insert_middle. Qed.

Lemma destroy_n_live pre vs post n :
  n = length vs →
  destroy_n (pre ++ (Live <$> vs) ++ post) (length pre) n
  = Some (pre ++ replicate n Raw ++ post).
Proof.
  intros ->. revert pre. induction vs as [|v vs IH]; intros pre; simpl; [done|].
  rewrite destroy_at_live.
  rewrite <- (length_snoc pre Raw), <- (snoc_middle pre Raw), IH.
  by rewrite snoc_middle.
Qed.

Lemma uninitialized_value_construct_n_spec pre n post w :
  let dst := pre ++ replicate n Raw ++ post in
  ∃ w', (uninitialized_value_construct_n dst (length pre) n w
           = (Ok (pre ++ replicate n (Live value_initialized) ++ post), w')
         ∧ after n w w')
        ∨ (uninitialized_value_construct_n dst (length pre) n w = (Throw dst, w')
           ∧ leaked w' = leaked w ∧ ¬ calm w).
Proof.
  revert pre w. induction n as [|n IH]; intros pre w; simpl.
  - exists w. left. split; [done | apply after_refl].
  - destruct (construct_at_raw false pre (replicate n Raw ++ post) value_initialized w)
      as [w1 [[-> Hw1]|(-> & Hl & Hc & _)]]; [|exists w1; by right].
    destruct (IH (pre ++ [Live value_initialized]) w1) as [w2 [[Hr Hw2]|(Hr & Hl & Hc)]];
      rewrite length_snoc, !snoc_middle in Hr; rewrite Hr; simpl.
    + exists w2. left. split; [done|]. apply (after_trans 1 n w w1 w2); done.
    + rewrite destroy_at_live. exists w2. right. split; [done|].
      destruct Hw1 as (Hl1 & _ & Hc1). split; [congruence | tauto].
Qed.

Lemma uninitialized_copy_n_spec spre vs spost pre post w :
  let src := spre ++ (Live <$> vs) ++ spost in
  let dst := pre ++ replicate (length vs) Raw ++ post in
  ∃ w', (uninitialized_copy_n src (length spre) (length vs) dst (length pre) w
           = (Ok (pre ++ (Live <$> vs) ++ post), w')
         ∧ after (length vs) w w')
        ∨ (uninitialized_copy_n src (length spre) (length vs) dst (length pre) w
             = (Throw dst, w')
           ∧ leaked w' = leaked w ∧ ¬ calm w).
Proof.
  revert spre pre w. induction vs as [|v vs IH]; intros spre pre w.
  { exists w. left. split; [done | apply after_refl]. }
  rewrite fmap_cons. cbn [length replicate app uninitialized_copy_n].
  rewrite lookup_middle.
  destruct (construct_at_raw false pre (replicate (length vs) Raw ++ post) v w)
    as [w1 [[-> Hw1]|(-> & Hl & Hc & _)]]; [|exists w1; by right].
  destruct (IH (spre ++ [Live v]) (pre ++ [Live v]) w1) as [w2 [[Hr Hw2]|(Hr & Hl & Hc)]];
    rewrite !length_snoc, !snoc_middle in Hr; rewrite Hr; cbn [unwind_at].
  - exists w2. left. split; [done|]. apply (after_trans 1 _ w w1 w2); done.
  - rewrite destroy_at_live. exists w2. right. split; [done|].
    destruct Hw1 as (Hl1 & _ & Hc1). split; [congruence | tauto].
Qed.

Lemma uninitialized_move_n_spec spre vs spost pre post w :
  let src := spre ++ (Live <$> vs) ++ spost in
  let dst := pre ++ replicate (length vs) Raw ++ post in
  ∃ w', (uninitialized_move_n src (length spre) (length vs) dst (length pre) w
           = (Ok (spre ++ (Live <$> (moved_from <$> vs)) ++ spost,
                  pre ++ (Live <$> vs) ++ post), w')
         ∧ after (length vs) w w')
        ∨ (∃ vs', length vs' = length vs
           ∧ uninitialized_move_n src (length spre) (length vs) dst (length pre) w
             = (Throw (spre ++ (Live <$> vs') ++ spost, dst), w')
           ∧ leaked w' = leaked w ∧ ¬ calm w
           ∧ is_nothrow_move_constructible = false).
Proof.
  revert spre pre w. induction vs as [|v vs IH]; intros spre pre w.
  { exists w. left. split; [done | apply after_refl]. }
  rewrite !fmap_cons. cbn [length replicate app uninitialized_move_n].
  rewrite lookup_middle, insert_middle.
  destruct (construct_at_raw is_nothrow_move_constructible pre
              (replicate (length vs) Raw ++ post) v w)
    as [w1 [[-> Hw1]|(-> & Hl & Hc & Hne)]].
  2:{ exists w1. right. exists (v :: vs). by rewrite fmap_cons. }
  destruct (IH (spre ++ [Live (moved_from v)]) (pre ++ [Live v]) w1)
    as [w2 [[Hr Hw2]|(vs' & Hlen & Hr & Hl & Hc & Hne)]];
    rewrite !length_snoc, !snoc_middle in Hr; rewrite Hr; cbn [unwind_pair_at].
  - exists w2. left. split; [done|]. apply (after_trans 1 _ w w1 w2); done.
  - rewrite destroy_at_live. exists w2. right. exists (moved_from v :: vs').
    rewrite fmap_cons. cbn [length app].
    destruct Hw1 as (Hl1 & _ & Hc1).
    split; [congruence|]. split; [done|]. split; [congruence|]. split; [tauto | done].
Qed.

(** [ReplaceOrCopyData]: the objects move to the new block and their
    old slots become raw; when the transfer throws, the new block is as it
    was, and so is the old one if the elements were copied. *)
Lemma ReplaceOrCopyData_spec spre vs spost pre post w :
  let old := spre ++ (Live <$> vs) ++ spost in
  let new := pre ++ replicate (length vs) Raw ++ post in
  ∃ w', (ReplaceOrCopyData old (length spre) (length vs) new (length pre) w
           = (Ok (spre ++ replicate (length vs) Raw ++ spost,
                  pre ++ (Live <$> vs) ++ post), w')
         ∧ after (length vs) w w')
        ∨ (∃ vs', length vs' = length vs
           ∧ ReplaceOrCopyData old (length spre) (length vs) new (length pre) w
             = (Throw (spre ++ (Live <$> vs') ++ spost, new), w')
           ∧ leaked w' = leaked w ∧ ¬ calm w
           ∧ is_nothrow_move_constructible = false
           ∧ (is_copy_constructible = true → vs' = vs)).
Proof.
  cbv zeta. unfold ReplaceOrCopyData.
  destruct is_nothrow_move_constructible eqn:Hnothrow; cbn [orb].
  - destruct (uninitialized_move_n_spec spre vs spost pre post w)
      as [w1 [[-> Hw1]|(vs' & _ & _ & _ & _ & Hne)]]; [|congruence].
    rewrite (destroy_n_live spre (moved_from <$> vs) spost (length vs))
      by (by rewrite length_fmap).
    exists w1. by left.
  - destruct is_copy_constructible eqn:Hcopy; cbn [negb].
    + destruct (uninitialized_copy_n_spec spre vs spost pre post w)
        as [w1 [[-> Hw1]|(-> & Hl & Hc)]].
      * rewrite destroy_n_live by done. exists w1. by left.
      * exists w1. right. exists vs. by split_and!.
    + pose proof (uninitialized_move_n_spec spre vs spost pre post w) as Hmove.
      rewrite Hnothrow in Hmove.
      destruct Hmove as [w1 [[-> Hw1]|(vs' & Hlen & -> & Hl & Hc & _)]].
      * rewrite (destroy_n_live spre (moved_from <$> vs) spost (length vs))
          by (by rewrite length_fmap).
        exists w1. by left.
      * exists w1. right. exists vs'. by split_and!.
Qed.

(** The same algorithms when the destination has fewer raw slots than
    there are objects to transfer: constructing past the end of the block
    is undefined, unless a constructor throws before. *)
Lemma uninitialized_copy_n_short spre vs spost pre m w :
  m < length vs →
  let src := spre ++ (Live <$> vs) ++ spost in
  let dst := pre ++ replicate m Raw in
  ∃ w', uninitialized_copy_n src (length spre) (length vs) dst (length pre) w = (Undef, w')
        ∨ (uninitialized_copy_n src (length spre) (length vs) dst (length pre) w
             = (Throw dst, w')
           ∧ leaked w' = leaked w ∧ ¬ calm w).
Proof.
  revert spre pre m w. induction vs as [|v vs IH]; intros spre pre m w Hm; [cbn in Hm; lia|].
  rewrite fmap_cons. cbn [length app uninitialized_copy_n]. rewrite lookup_middle.
  destruct m as [|m].
  { exists w. left. cbn [replicate]. unfold construct_at.
    by rewrite lookup_ge_None_2 by (rewrite app_nil_r; lia). }
  cbn [replicate].
  destruct (construct_at_raw false pre (replicate m Raw) v w)
    as [w1 [[-> Hw1]|(-> & Hl & Hc & _)]]; [|exists w1; by right].
  destruct (IH (spre ++ [Live v]) (pre ++ [Live v]) m w1) as [w2 [Hr|(Hr & Hl & Hc)]];
    [cbn [length] in Hm; lia | |];
    rewrite !length_snoc, !snoc_middle in Hr; rewrite Hr; cbn [unwind_at].
  - exists w2. by left.
  - rewrite destroy_at_live. exists w2. right. split; [done|].
    destruct Hw1 as (Hl1 & _ & Hc1). split; [congruence | tauto].
Qed.

Lemma uninitialized_move_n_short spre vs spost pre m w :
  m < length vs →
  let src := spre ++ (Live <$> vs) ++ spost in
  let dst := pre ++ replicate m Raw in
  ∃ w', uninitialized_move_n src (length spre) (length vs) dst (length pre) w = (Undef, w')
        ∨ (∃ vs', length vs' = length vs
           ∧ uninitialized_move_n src (length spre) (length vs) dst (length pre) w
             = (Throw (spre ++ (Live <$> vs') ++ spost, dst), w')
           ∧ leaked w' = leaked w ∧ ¬ calm w
           ∧ is_nothrow_move_constructible = false).
Proof.
  revert spre pre m w. induction vs as [|v vs IH]; intros spre pre m w Hm; [cbn in Hm; lia|].
  rewrite !fmap_cons. cbn [length app uninitialized_move_n].
  rewrite lookup_middle, insert_middle.
  destruct m as [|m].
  { exists w. left. cbn [replicate]. unfold construct_at.
    by rewrite lookup_ge_None_2 by (rewrite app_nil_r; lia). }
  cbn [replicate].
  destruct (construct_at_raw is_nothrow_move_constructible pre (replicate m Raw) v w)
    as [w1 [[-> Hw1]|(-> & Hl & Hc & Hne)]].
  2:{ exists w1. right. exists (v :: vs). by rewrite fmap_cons. }
  destruct (IH (spre ++ [Live (moved_from v)]) (pre ++ [Live v]) m w1)
    as [w2 [Hr|(vs' & Hlen & Hr & Hl & Hc & Hne)]]; [cbn [length] in Hm; lia | |];
    rewrite !length_snoc, !snoc_middle in Hr; rewrite Hr; cbn [unwind_pair_at].
  - exists w2. by left.
  - rewrite destroy_at_live. exists w2. right. exists (moved_from v :: vs').
    rewrite fmap_cons. cbn [length app].
    destruct Hw1 as (Hl1 & _ & Hc1).
    split; [congruence|]. split; [done|]. split; [congruence|]. split; [tauto | done].
Qed.

Lemma ReplaceOrCopyData_short spre vs spost pre m w :
  m < length vs →
  let old := spre ++ (Live <$> vs) ++ spost in
  let new := pre ++ replicate m Raw in
  ∃ w', ReplaceOrCopyData old (length spre) (length vs) new (length pre) w = (Undef, w')
        ∨ (∃ vs', length vs' = length vs
           ∧ ReplaceOrCopyData old (length spre) (length vs) new (length pre) w
             = (Throw (spre ++ (Live <$> vs') ++ spost, new), w')
           ∧ leaked w' = leaked w ∧ ¬ calm w
           ∧ is_nothrow_move_constructible = false
           ∧ (is_copy_constructible = true → vs' = vs)).
Proof.
  intros Hm. cbv zeta. unfold ReplaceOrCopyData.
  destruct is_nothrow_move_constructible eqn:Hnothrow; cbn [orb].
  - destruct (uninitialized_move_n_short spre vs spost pre m w Hm)
      as [w1 [->|(vs' & _ & _ & _ & _ & Hne)]]; [|congruence].
    exists w1. by left.
  - destruct is_copy_constructible eqn:Hcopy; cbn [negb].
    + destruct (uninitialized_copy_n_short spre vs spost pre m w Hm)
        as [w1 [->|(-> & Hl & Hc)]]; exists w1; [by left|].
      right. exists vs. by split_and!.
    + pose proof (uninitialized_move_n_short spre vs spost pre m w Hm) as Hmove.
      rewrite Hnothrow in Hmove.
      destruct Hmove as [w1 [->|(vs' & Hlen & -> & Hl & Hc & _)]]; exists w1; [by left|].
      right. exists vs'. by split_and!.
Qed.

Lemma lookup_middle2 pre s1 s2 post : (pre ++ s1 :: s2 :: post) !! S (length pre) = Some s2.
Proof. by rewrite <- (snoc_middle pre s1), <- (length_snoc pre s1), lookup_middle. Qed.

Lemma insert_middle2 pre s1 s2 s2' post :
  <[S (length pre) := s2']> (pre ++ s1 :: s2 :: post) = pre ++ s1 :: s2' :: post.
Proof.
  rewrite <- (snoc_middle pre s1), <- (length_snoc pre s1), insert_middle.
  by rewrite snoc_middle.
Qed.

(** Move assignment to the right neighbour and to the left neighbour. *)
Lemma move_assign_right pre y j post w :
  ∃ w', (move_assign_at (pre ++ Live y :: Live j :: post) (length pre) (S (length pre)) w
           = (Ok (pre ++ Live (moved_from y) :: Live y :: post), w') ∧ after 1 w w')
        ∨ (move_assign_at (pre ++ Live y :: Live j :: post) (length pre) (S (length pre)) w
             = (Throw (pre ++ Live y :: Live j :: post), w')
           ∧ leaked w' = leaked w ∧ ¬ calm w).
Proof.
  unfold move_assign_at. rewrite lookup_middle, lookup_middle2, insert_middle, insert_middle2.
  destruct (attempt_spec w) as [w1 [[-> Hw]|(-> & Hl & Hc)]].
  - exists (count_op w1). left. split; [done|]. by apply after_count_op.
  - exists w1. by right.
Qed.

Lemma move_assign_left pre j y post w :
  ∃ w', (move_assign_at (pre ++ Live j :: Live y :: post) (S (length pre)) (length pre) w
           = (Ok (pre ++ Live y :: Live (moved_from y) :: post), w') ∧ after 1 w w')
        ∨ (move_assign_at (pre ++ Live j :: Live y :: post) (S (length pre)) (length pre) w
             = (Throw (pre ++ Live j :: Live y :: post), w')
           ∧ leaked w' = leaked w ∧ ¬ calm w).
Proof.
  unfold move_assign_at. rewrite lookup_middle, lookup_middle2, insert_middle2, insert_middle.
  destruct (attempt_spec w) as [w1 [[-> Hw]|(-> & Hl & Hc)]].
  - exists (count_op w1). left. split; [done|]. by apply after_count_op.
  - exists w1. by right.
Qed.

(** [std::move_backward] shifts a range one slot to the right, over the
    object that follows it; the first slot of the range keeps a
    moved-from object. *)
Lemma move_backward_spec pre ys j post w first n d_last :
  first = length pre → n = length ys → d_last = S (length pre + length ys) →
  ∃ w', (∃ j', move_backward (pre ++ (Live <$> ys) ++ Live j :: post) first n d_last w
               = (Ok (pre ++ Live j' :: (Live <$> ys) ++ post), w')
           ∧ after n w w')
        ∨ (∃ b, move_backward (pre ++ (Live <$> ys) ++ Live j :: post) first n d_last w
                = (Throw b, w')
           ∧ leaked w' = leaked w ∧ ¬ calm w).
Proof.
  intros -> -> ->. revert j post w.
  induction ys as [|y ys IH] using rev_ind; intros j post w.
  { exists w. left. exists j. split; [done | apply after_refl]. }
  rewrite length_app, Nat.add_1_r, fmap_app, <- app_assoc.
  cbn [length fmap list_fmap app move_backward].
  rewrite (app_assoc pre (Live <$> ys)).
  replace (length pre + length ys) with (length (pre ++ (Live <$> ys)))
    by (by rewrite length_app, length_fmap).
  replace (length pre + S (length ys)) with (S (length (pre ++ (Live <$> ys))))
    by (rewrite length_app, length_fmap; lia).
  destruct (move_assign_right (pre ++ (Live <$> ys)) y j post w)
    as [w1 [[-> Hw1]|(-> & Hl & Hc)]].
  2:{ exists w1. right. eexists. by split_and!. }
  rewrite <- (app_assoc pre (Live <$> ys)).
  rewrite length_app, length_fmap.
  destruct (IH (moved_from y) (Live y :: post) w1)
    as [w2 [(j' & Hr & Hw2)|(b & Hr & Hl & Hc)]].
  - exists w2. left. exists j'. rewrite Hr, <- app_assoc. split; [done|].
    replace (S (length ys)) with (1 + length ys) by lia. by eapply after_trans.
  - exists w2. right. exists b. destruct Hw1 as (Hl1 & _ & Hc1).
    split; [done|]. split; [congruence|tauto].
Qed.

(** [std::move] to the left neighbour shifts a range one slot to the
    left, over the object that precedes it; the last slot of the range
    keeps a moved-from object. *)
Lemma move_forward_spec pre j ys post w first n d_first :
  first = S (length pre) → n = length ys → d_first = length pre →
  ∃ w', (∃ j', move_forward (pre ++ Live j :: (Live <$> ys) ++ post) first n d_first w
               = (Ok (pre ++ (Live <$> ys) ++ Live j' :: post), w')
           ∧ after n w w')
        ∨ (∃ b, move_forward (pre ++ Live j :: (Live <$> ys) ++ post) first n d_first w
                = (Throw b, w')
           ∧ leaked w' = leaked w ∧ ¬ calm w).
Proof.
  intros -> -> ->. revert pre j w.
  induction ys as [|y ys IH]; intros pre j w.
  { exists w. left. exists j. split; [done | apply after_refl]. }
  rewrite fmap_cons. cbn [length app move_forward].
  destruct (move_assign_left pre j y ((Live <$> ys) ++ post) w)
    as [w1 [[-> Hw1]|(-> & Hl & Hc)]].
  2:{ exists w1. right. eexists. by split_and!. }
  rewrite <- (snoc_middle pre (Live y)), <- (length_snoc pre (Live y)).
  destruct (IH (pre ++ [Live y]) (moved_from y) w1)
    as [w2 [(j' & Hr & Hw2)|(b & Hr & Hl & Hc)]].
  - exists w2. left. exists j'. rewrite Hr.
    split; [by rewrite snoc_middle|].
    replace (S (length ys)) with (1 + length ys) by lia. by eapply after_trans.
  - exists w2. right. exists b. destruct Hw1 as (Hl1 & _ & Hc1).
    split; [done|]. split; [congruence|tauto].
Qed.

Lemma move_construct_right pre z post w from to :
  from = length pre → to = S (length pre) →
  ∃ w', (move_construct_at (pre ++ Live z :: Raw :: post) from to w
           = (Ok (pre ++ Live (moved_from z) :: Live z :: post), w') ∧ after 1 w w')
        ∨ (move_construct_at (pre ++ Live z :: Raw :: post) from to w
             = (Throw (pre ++ Live z :: Raw :: post), w')
           ∧ leaked w' = leaked w ∧ ¬ calm w).
Proof.
  intros -> ->. unfold move_construct_at. rewrite lookup_middle.
  rewrite <- (snoc_middle pre (Live z)), <- (length_snoc pre (Live z)).
  destruct (construct_at_raw is_nothrow_move_constructible (pre ++ [Live z]) post z w)
    as [w1 [[-> Hw1]|(-> & Hl & Hc & _)]].
  - exists w1. left. split; [|done].
    rewrite !snoc_middle. by rewrite insert_middle.
  - exists w1. by right.
Qed.

Lemma assign_at_live pre u post v w i :
  i = length pre →
  ∃ w', (assign_at (pre ++ Live u :: post) i v w = (Ok (pre ++ Live v :: post), w')
         ∧ after 1 w w')
        ∨ (assign_at (pre ++ Live u :: post) i v w = (Throw (pre ++ Live u :: post), w')
           ∧ leaked w' = leaked w ∧ ¬ calm w).
Proof.
  intros ->. unfold assign_at. rewrite lookup_middle, insert_middle.
  destruct (attempt_spec w) as [w1 [[-> Hw]|(-> & Hl & Hc)]].
  - exists (count_op w1). left. split; [done|]. by apply after_count_op.
  - exists w1. by right.
Qed.

(** The same facts with the indices named, as the callers have them. *)

Lemma construct_at_raw_at noexcept pre post v w i :
  i = length pre →
  ∃ w', (construct_at noexcept (pre ++ Raw :: post) i v w
           = (Ok (pre ++ Live v :: post), w') ∧ after 1 w w')
        ∨ (construct_at noexcept (pre ++ Raw :: post) i v w
             = (Throw (pre ++ Raw :: post), w')
           ∧ leaked w' = leaked w ∧ ¬ calm w ∧ noexcept = false).
Proof. intros ->. apply construct_at_raw. Qed.

Lemma destroy_at_live_at pre v post i :
  i = length pre → destroy_at (pre ++ Live v :: post) i = Some (pre ++ Raw :: post).
Proof. intros ->. apply destroy_at_live. Qed.

Lemma destroy_n_live_at pre vs post i n :
  i = length pre → n = length vs →
  destroy_n (pre ++ (Live <$> vs) ++ post) i n = Some (pre ++ replicate n Raw ++ post).
Proof. intros -> ->. by apply destroy_n_live. Qed.

Lemma uninitialized_value_construct_n_at pre n post w i :
  i = length pre →
  let dst := pre ++ replicate n Raw ++ post in
  ∃ w', (uninitialized_value_construct_n dst i n w
           = (Ok (pre ++ replicate n (Live value_initialized) ++ post), w')
         ∧ after n w w')
        ∨ (uninitialized_value_construct_n dst i n w = (Throw dst, w')
           ∧ leaked w' = leaked w ∧ ¬ calm w).
Proof. intros ->. apply uninitialized_value_construct_n_spec. Qed.

Lemma uninitialized_copy_n_at spre vs spost pre post w i n j :
  i = length spre → n = length vs → j = length pre →
  let src := spre ++ (Live <$> vs) ++ spost in
  let dst := pre ++ replicate n Raw ++ post in
  ∃ w', (uninitialized_copy_n src i n dst j w = (Ok (pre ++ (Live <$> vs) ++ post), w')
         ∧ after n w w')
        ∨ (uninitialized_copy_n src i n dst j w = (Throw dst, w')
           ∧ leaked w' = leaked w ∧ ¬ calm w).
Proof. intros -> -> ->. apply uninitialized_copy_n_spec. Qed.

Lemma ReplaceOrCopyData_at spre vs spost pre post w i n j :
  i = length spre → n = length vs → j = length pre →
  let old := spre ++ (Live <$> vs) ++ spost in
  let new := pre ++ replicate n Raw ++ post in
  ∃ w', (ReplaceOrCopyData old i n new j w
           = (Ok (spre ++ replicate n Raw ++ spost, pre ++ (Live <$> vs) ++ post), w')
         ∧ after n w w')
        ∨ (∃ vs', length vs' = n
           ∧ ReplaceOrCopyData old i n new j w
             = (Throw (spre ++ (Live <$> vs') ++ spost, new), w')
           ∧ leaked w' = leaked w ∧ ¬ calm w
           ∧ is_nothrow_move_constructible = false
           ∧ (is_copy_constructible = true → vs' = vs)).
Proof. intros -> -> ->. apply ReplaceOrCopyData_spec. Qed.

End BlockLemmas.

(** ** Vectors that satisfy the invariant *)

Section Abstraction.
Context {T : Type} {Elem : Element T}.
Implicit Types (xs : list T) (this : Vector T) (w : world).

Lemma length_filled xs cap : length xs ≤ cap → length (filled xs cap) = cap.
Proof.
  intros Hle. unfold filled. rewrite length_app, length_fmap, length_replicate. lia.
Qed.

Lemma lookup_filled xs cap i : filled xs cap !! i = None ∨ filled xs cap !! i = Some Raw
                               ∨ ∃ v, xs !! i = Some v ∧ filled xs cap !! i = Some (Live v).
Proof.
  unfold filled. destruct (xs !! i) as [v|] eqn:Hi.
  - right; right. exists v. split; [done|].
    rewrite lookup_app_l by (rewrite length_fmap; by eapply lookup_lt_Some).
    by rewrite list_lookup_fmap, Hi.
  - apply lookup_ge_None in Hi.
    rewrite lookup_app_r by (by rewrite length_fmap).
    destruct (replicate _ _ !! _) as [s|] eqn:Hs; [|by left].
    apply lookup_replicate in Hs as [-> _]. right; by left.
Qed.

Lemma Vector_at_vector_of xs cap i :
  length xs ≤ cap → Vector_at (vector_of xs cap) (N.of_nat i) = xs !! i.
Proof.
  intros Hle. unfold Vector_at, RawMemory_at. cbn [vector_of size_ data_ capacity_ buffer_].
  decide_N.
  - rewrite Nat2N.id.
    destruct (lookup_filled xs cap i) as [Hl|[Hl|(v & Hv & Hl)]]; rewrite Hl; [| |done].
    + apply lookup_ge_None in Hl. rewrite length_filled in Hl; lia.
    + assert (is_Some (xs !! i)) as [v Hv] by (apply lookup_lt_is_Some; lia).
      unfold filled in Hl.
      rewrite lookup_app_l in Hl by (rewrite length_fmap; lia).
      by rewrite list_lookup_fmap, Hv in Hl.
  - symmetry. apply lookup_ge_None. lia.
Qed.

Lemma elements_vector_of xs cap :
  length xs ≤ cap → elements (vector_of xs cap) = Some <$> xs.
Proof.
  intros Hle. unfold elements, Size. cbn [vector_of size_]. rewrite Nat2N.id.
  apply list_eq. intros i. rewrite !list_lookup_fmap.
  destruct (decide (i < length xs)) as [Hi|Hi].
  - rewrite lookup_seq_lt by done. cbn. rewrite Vector_at_vector_of by done.
    destruct (lookup_lt_is_Some_2 xs i Hi) as [v Hv]. by rewrite Hv.
  - rewrite lookup_seq_ge by lia. cbn.
    by rewrite (proj2 (lookup_ge_None xs i)) by lia.
Qed.

Lemma Size_vector_of xs cap : Size (vector_of xs cap) = N.of_nat (length xs).
Proof. done. Qed.

Lemma Capacity_vector_of xs cap : Capacity (vector_of xs cap) = N.of_nat cap.
Proof. done. Qed.

Lemma forallb_live_fmap xs : forallb is_live (Live <$> xs) = true.
Proof. by induction xs. Qed.

Lemma forallb_raw_replicate n :
  forallb (λ s : slot T, negb (is_live s)) (replicate n Raw) = true.
Proof. by induction n. Qed.

Lemma invariant_vector_of xs cap :
  length xs ≤ cap → (N.of_nat cap * sizeof_T < SizeT.modulus)%N →
  invariant (vector_of xs cap) = true.
Proof.
  intros Hle Hcap. unfold invariant. cbn [vector_of size_ data_ capacity_ buffer_].
  rewrite length_filled, Nat2N.id by done. unfold filled.
  rewrite take_app_length', drop_app_length' by (by rewrite length_fmap).
  rewrite forallb_live_fmap, forallb_raw_replicate.
  by decide_N.
Qed.

Lemma live_prefix (b : block T) :
  forallb is_live b = true → ∃ xs, b = Live <$> xs.
Proof.
  induction b as [|[|v] b IH]; intros Hb.
  - by exists [].
  - done.
  - destruct (IH Hb) as [xs ->]. by exists (v :: xs).
Qed.

Lemma raw_suffix (b : block T) :
  forallb (λ s, negb (is_live s)) b = true → b = replicate (length b) Raw.
Proof.
  induction b as [|[|v] b IH]; intros Hb; [done| |done].
  cbn. f_equal. by apply IH.
Qed.

(** Every vector that satisfies the invariant is some [vector_of xs cap]. *)
Lemma invariant_inv this :
  invariant this = true →
  ∃ xs cap, this = vector_of xs cap ∧ length xs ≤ cap ∧ (N.of_nat cap < SizeT.modulus)%N
            ∧ (N.of_nat cap * sizeof_T < SizeT.modulus)%N.
Proof.
  unfold invariant. destruct this as [[b cap] size]. cbn [size_ data_ capacity_ buffer_].
  rewrite !andb_true_iff. intros ((((Hsize & Hlen) & Hcap) & Hlive) & Hraw).
  apply N.leb_le in Hsize. apply N.eqb_eq in Hlen. apply N.ltb_lt in Hcap.
  destruct (live_prefix _ Hlive) as [xs Hxs].
  apply raw_suffix in Hraw.
  assert (length xs = N.to_nat size) as Hlxs.
  { rewrite <- (length_fmap Live xs), <- Hxs, length_take. lia. }
  exists xs, (length b). rewrite Hlen.
  split; [|split; [lia|split; [by apply bytes_count|done]]].
  unfold vector_of, filled. f_equal; [|lia].
  f_equal; [|done].
  rewrite <- (take_drop (N.to_nat size) b) at 1. rewrite Hxs, Hraw at 1.
  rewrite length_drop. by rewrite Hlxs.
Qed.

End Abstraction.

(** ** The operations on vectors that satisfy the invariant *)

Section Operations.
Context {T : Type} {Elem : Element T}.
Implicit Types (xs ys : list T) (this other : Vector T) (w : world).

Lemma live_count_app (b1 b2 : block T) : live_count (b1 ++ b2) = live_count b1 + live_count b2.
Proof. unfold live_count. by rewrite filter_app, length_app. Qed.

Lemma live_count_raw n : live_count (replicate n (@Raw T)) = 0.
Proof. induction n; [done|]. unfold live_count in *. by rewrite replicate_S, filter_cons_False. Qed.

Lemma live_count_cons_raw (b : block T) : live_count (Raw :: b) = live_count b.
Proof. unfold live_count. by rewrite filter_cons_False. Qed.

Lemma live_count_cons_live v (b : block T) : live_count (Live v :: b) = S (live_count b).
Proof. unfold live_count. by rewrite filter_cons_True. Qed.

Lemma live_count_live xs : live_count (Live <$> xs) = length xs.
Proof.
  induction xs as [|x xs IH]; [done|]. unfold live_count in *.
  rewrite fmap_cons, filter_cons_True by done. cbn. by rewrite IH.
Qed.

Lemma replicate_split (n k : nat) (s : slot T) :
  n ≤ k → replicate k s = replicate n s ++ replicate (k - n) s.
Proof. intros Hle. rewrite <- replicate_add. f_equal. lia. Qed.

(** [RawMemory(k)]: the block has the slots that fit in
    [k * sizeof(T)] bytes, the product being taken in [size_t]. *)
Lemma RawMemory_new_any (k : N) w :
  ∃ w', (RawMemory_new k w
           = (Ok {| buffer_ := replicate (N.to_nat (SizeT.mul k sizeof_T / sizeof_T)) Raw;
                    capacity_ := k |}, w')
         ∧ after 0 w w')
        ∨ (RawMemory_new k w = (Throw (), w') ∧ leaked w' = leaked w ∧ ¬ calm w
           ∧ k ≠ 0%N).
Proof.
  unfold RawMemory_new, Allocate. decide_N.
  - subst k. exists w. left. split; [done | apply after_refl].
  - destruct (attempt_spec w) as [w1 [[-> Hw]|(-> & Hl & Hc)]]; exists w1; [by left | by right].
Qed.

(** That is [k] slots when the product does not wrap around. *)
Lemma RawMemory_new_spec (k : N) w :
  (k * sizeof_T < SizeT.modulus)%N →
  ∃ w', (RawMemory_new k w
           = (Ok {| buffer_ := replicate (N.to_nat k) Raw; capacity_ := k |}, w')
         ∧ after 0 w w')
        ∨ (RawMemory_new k w = (Throw (), w') ∧ leaked w' = leaked w ∧ ¬ calm w).
Proof.
  intros Hk. destruct (RawMemory_new_any k w) as [w1 [[Hr Hw]|(Hr & Hl & Hc & _)]];
    exists w1; [left | by right].
  by rewrite slots_exact in Hr.
Qed.

(** [Reserve] beyond the capacity: the elements are transferred to a
    block of exactly the requested capacity; if that fails the vector
    keeps its block. *)
Lemma Reserve_grow xs cap (k : N) w :
  length xs ≤ cap → (N.of_nat cap < k)%N → (k * sizeof_T < SizeT.modulus)%N →
  ∃ w', (Reserve k (vector_of xs cap) w = (Ok (vector_of xs (N.to_nat k)), w')
         ∧ after (length xs) w w')
        ∨ (∃ xs', length xs' = length xs
           ∧ Reserve k (vector_of xs cap) w = (Throw (vector_of xs' cap), w')
           ∧ leaked w' = leaked w ∧ ¬ calm w
           ∧ (is_nothrow_move_constructible || is_copy_constructible = true → xs' = xs)).
Proof.
  intros Hle Hk Hbytes. unfold Reserve, vector_of, filled, GetAddress.
  cbn [Capacity data_ capacity_ buffer_ size_].
  decide_N.
  destruct (RawMemory_new_spec k w Hbytes) as [w1 [[-> Hw1]|(-> & Hl & Hc)]].
  2:{ exists w1. right. exists xs. by split_and!. }
  cbn [buffer_ capacity_]. rewrite Nat2N.id.
  rewrite (replicate_split (length xs) (N.to_nat k)) by lia.
  pose proof (ReplaceOrCopyData_spec [] xs (replicate (cap - length xs) Raw) []
                (replicate (N.to_nat k - length xs) Raw) w1) as Hr.
  cbn [app length] in Hr.
  destruct Hr as [w2 [[-> Hw2]|(xs' & Hlen & -> & Hl & Hc & Hne & Hcopy)]].
  - unfold RawMemory_Swap, RawMemory_dtor. cbn [buffer_ capacity_].
    rewrite Deallocate_nothing_live by (by rewrite live_count_app, !live_count_raw).
    exists w2. left. split.
    + by rewrite N2Nat.id.
    + apply (after_trans 0 _ w w1 w2); done.
  - rewrite Deallocate_nothing_live by (by rewrite live_count_app, !live_count_raw).
    exists w2. right. exists xs'. split; [done|]. split.
    + unfold with_buffer. cbn [data_ capacity_ size_]. by rewrite Hlen.
    + destruct Hw1 as (Hl1 & _ & Hc1). split; [congruence|]. split; [tauto|].
      rewrite Hne. cbn [orb]. done.
Qed.

(** A [Reserve] that throws, whatever the size in bytes of the block it
    asked for: the vector keeps its block. *)
Lemma Reserve_throw xs cap (k : N) w this' w' :
  length xs ≤ cap → (N.of_nat cap < k)%N →
  Reserve k (vector_of xs cap) w = (Throw this', w') →
  ∃ xs', this' = vector_of xs' cap ∧ length xs' = length xs
         ∧ leaked w' = leaked w ∧ ¬ calm w
         ∧ (is_nothrow_move_constructible || is_copy_constructible = true → xs' = xs).
Proof.
  intros Hle Hk. unfold Reserve, vector_of, filled, GetAddress.
  cbn [Capacity data_ capacity_ buffer_ size_].
  decide_N.
  destruct (RawMemory_new_any k w) as [w1 [[-> Hw1]|(-> & Hl & Hc & _)]].
  2:{ intros [= <- <-]. exists xs. by split_and!. }
  destruct Hw1 as (Hl1 & _ & Hc1).
  cbn [buffer_ capacity_]. rewrite Nat2N.id.
  set (m := N.to_nat (SizeT.mul k sizeof_T / sizeof_T)).
  assert (∀ xs' w2,
            (Throw (with_buffer
                      {| data_ := {| buffer_ := (Live <$> xs)
                                                  ++ replicate (cap - length xs) Raw;
                                     capacity_ := N.of_nat cap |};
                         size_ := N.of_nat (length xs) |}
                      ((Live <$> xs') ++ replicate (cap - length xs) Raw)),
             Deallocate (replicate m (@Raw T)) w2)
            = (@Throw (Vector T) (Vector T) this', w') →
            length xs' = length xs → leaked w2 = leaked w1 → ¬ calm w1 →
            is_nothrow_move_constructible = false →
            (is_copy_constructible = true → xs' = xs) →
            ∃ xs', this' = vector_of xs' cap ∧ length xs' = length xs
                   ∧ leaked w' = leaked w ∧ ¬ calm w
                   ∧ (is_nothrow_move_constructible || is_copy_constructible = true
                      → xs' = xs)) as Hthrow.
  { intros xs' w2 Heq Hlen Hl Hc Hne Hcopy.
    rewrite Deallocate_nothing_live in Heq by apply live_count_raw.
    injection Heq as <- <-. exists xs'.
    split; [unfold with_buffer, vector_of, filled; cbn [data_ capacity_ size_];
            by rewrite Hlen|].
    split; [done|]. split; [congruence|]. split; [tauto|].
    rewrite Hne. cbn [orb]. done. }
  destruct (decide (length xs ≤ m)) as [Hm|Hm].
  - rewrite (replicate_split (length xs) m) by lia.
    pose proof (ReplaceOrCopyData_spec [] xs (replicate (cap - length xs) Raw) []
                  (replicate (m - length xs) Raw) w1) as Hr.
    cbn [app length] in Hr.
    destruct Hr as [w2 [[-> Hw2]|(xs' & Hlen & -> & Hl & Hc & Hne & Hcopy)]]; [done|].
    rewrite <- (replicate_split (length xs) m) by lia. intros Heq.
    by apply (Hthrow xs' w2).
  - pose proof (ReplaceOrCopyData_short [] xs (replicate (cap - length xs) Raw) [] m w1)
      as Hr.
    cbn [app length] in Hr.
    destruct Hr as [w2 [->|(xs' & Hlen & -> & Hl & Hc & Hne & Hcopy)]]; [lia|done|].
    intros Heq. by apply (Hthrow xs' w2).
Qed.

Lemma Reserve_enough (k : N) this w : (k <= Capacity this)%N → Reserve k this w = (Ok this, w).
Proof. intros Hk. unfold Reserve. by decide_N. Qed.

Lemma replicate_hole (n k : nat) (s : slot T) :
  n < k → replicate k s = replicate n s ++ s :: replicate (k - S n) s.
Proof.
  intros Hlt. rewrite (replicate_split n k) by lia.
  replace (k - n) with (S (k - S n)) by lia. done.
Qed.

Lemma grown_capacity (n : nat) :
  (N.of_nat (grown n) < SizeT.modulus)%N →
  (if (N.of_nat n =? 0)%N then 1%N else SizeT.mul (N.of_nat n) 2) = N.of_nat (grown n).
Proof.
  unfold grown. intros Hn. destruct n as [|n]; [done|].
  cbn [Nat.eqb] in *. decide_N. rewrite mul_small; lia.
Qed.

Lemma grown_gt (n : nat) : n < grown n.
Proof. unfold grown. destruct n; cbn; lia. Qed.

(** [EmplaceBack] on a full vector, whatever the size in bytes of the new
    block.  When [grown * sizeof(T)] wraps around, the block is shorter
    than the capacity it stands for; the call is undefined as soon as the
    slot of the new element lies outside it. *)
Lemma EmplaceBack_full noexcept x xs w :
  (N.of_nat (grown (length xs)) < SizeT.modulus)%N →
  let cap' := grown (length xs) in
  let m := N.to_nat (SizeT.mul (N.of_nat cap') sizeof_T / sizeof_T) in
  ∃ w', (EmplaceBack noexcept x (vector_of xs (length xs)) w
           = (Ok (length xs,
                  {| data_ := {| buffer_ := (Live <$> xs)
                                              ++ Live x :: replicate (m - S (length xs)) Raw;
                                 capacity_ := N.of_nat cap' |};
                     size_ := N.of_nat (length xs) + 1 |}), w')
         ∧ length xs < m)
        ∨ (∃ xs', length xs' = length xs
           ∧ EmplaceBack noexcept x (vector_of xs (length xs)) w
             = (Throw (vector_of xs' (length xs)), w')
           ∧ (is_nothrow_move_constructible || is_copy_constructible = true → xs' = xs)
           ∧ (leaked w' = leaked w
              ∨ leaked w' = S (leaked w) ∧ is_nothrow_move_constructible = false))
        ∨ EmplaceBack noexcept x (vector_of xs (length xs)) w = (Undef, w').
Proof.
  intros Hgrowc cap' m. pose proof (grown_gt (length xs)) as Hgt. fold cap' in Hgt, Hgrowc.
  unfold EmplaceBack, vector_of, filled, GetAddress, RawMemory_plus.
  cbn [Capacity data_ capacity_ buffer_ size_].
  rewrite N.eqb_refl, grown_capacity by done. fold cap'.
  destruct (RawMemory_new_any (N.of_nat cap') w) as [w1 [[-> Hw1]|(-> & Hl & Hc & _)]].
  2:{ exists w1. right; left. exists xs. split_and!; try done; by left. }
  fold m. cbn [buffer_ capacity_]. rewrite !Nat2N.id.
  destruct (N.leb_spec (N.of_nat (length xs)) (N.of_nat cap')) as [_|]; [|lia].
  destruct (decide (length xs < m)) as [Hm|Hm].
  2:{ exists w1. right; right. unfold construct_at.
      by rewrite lookup_ge_None_2 by (rewrite length_replicate; lia). }
  rewrite (replicate_hole (length xs) m) by lia.
  destruct (construct_at_raw_at noexcept (replicate (length xs) Raw)
              (replicate (m - S (length xs)) Raw) x w1 (length xs))
    as [w2 [[-> Hw2]|(-> & Hl & Hc & Hnoex)]]; [by rewrite length_replicate| |].
  2:{ rewrite Deallocate_nothing_live
        by (by rewrite live_count_app, live_count_cons_raw, !live_count_raw).
      exists w2. right; left. exists xs. destruct Hw1 as (Hl1 & _ & Hc1).
      split_and!; try done. left; congruence. }
  destruct (ReplaceOrCopyData_at [] xs (replicate (length xs - length xs) Raw) []
              (Live x :: replicate (m - S (length xs)) Raw) w2
              0 (length xs) 0 eq_refl eq_refl eq_refl)
    as [w3 [[Hr Hw3]|(xs' & Hlen & Hr & Hl & Hc & Hne & Hcopy)]];
    cbn [app] in Hr; rewrite Hr.
  - unfold RawMemory_Swap, RawMemory_dtor. cbn [buffer_ capacity_].
    rewrite Deallocate_nothing_live by (by rewrite live_count_app, !live_count_raw).
    exists w3. left. split; [|done].
    rewrite add_small by lia. same_state.
  - exists (Deallocate (replicate (length xs) Raw ++
                        Live x :: replicate (m - S (length xs)) Raw) w3).
    right; left. exists xs'. split; [done|]. split.
    + unfold with_buffer. cbn [data_ capacity_ size_]. by rewrite Hlen.
    + destruct Hw1 as (Hl1 & _ & Hc1), Hw2 as (Hl2 & _ & Hc2).
      split; [by rewrite Hne|].
      right. split; [|done].
      unfold Deallocate. cbn [count_leaks leaked].
      rewrite live_count_app, live_count_cons_live, !live_count_raw. lia.
Qed.

(** [EmplaceBack]: the element is appended, in a block of capacity
    [grown cap] when the vector was full; if something throws the vector
    keeps its block. *)
Lemma EmplaceBack_spec noexcept x xs cap w :
  length xs ≤ cap → (N.of_nat cap < SizeT.modulus)%N →
  (length xs = cap → (N.of_nat (grown cap) * sizeof_T < SizeT.modulus)%N) →
  ∃ w', (EmplaceBack noexcept x (vector_of xs cap) w
           = (Ok (length xs,
                  vector_of (xs ++ [x]) (if decide (length xs = cap) then grown cap else cap)),
              w')
         ∧ after (if decide (length xs = cap) then S (length xs) else 1) w w')
        ∨ (∃ xs', length xs' = length xs
           ∧ EmplaceBack noexcept x (vector_of xs cap) w = (Throw (vector_of xs' cap), w')
           ∧ ¬ calm w
           ∧ (is_nothrow_move_constructible || is_copy_constructible = true → xs' = xs)).
Proof.
  intros Hle Hcap Hgrow. unfold EmplaceBack, vector_of, filled, GetAddress, RawMemory_plus.
  cbn [Capacity data_ capacity_ buffer_ size_].
  destruct (decide (length xs = cap)) as [<-|Hroom].
  - specialize (Hgrow eq_refl). pose proof (grown_gt (length xs)) as Hgt.
    pose proof (bytes_count _ Hgrow) as Hgrowc.
    set (cap' := grown (length xs)) in *.
    destruct (N.eqb_spec (N.of_nat (length xs)) (N.of_nat (length xs))) as [_|]; [|lia].
    rewrite grown_capacity by done. fold cap'.
    destruct (RawMemory_new_spec (N.of_nat cap') w Hgrow) as [w1 [[-> Hw1]|(-> & Hl & Hc)]].
    2:{ exists w1. right. exists xs. by split_and!. }
    cbn [buffer_ capacity_]. rewrite !Nat2N.id.
    destruct (N.leb_spec (N.of_nat (length xs)) (N.of_nat cap')) as [_|]; [|lia].
    rewrite (replicate_hole (length xs) cap') by lia.
    destruct (construct_at_raw_at noexcept (replicate (length xs) Raw)
                (replicate (cap' - S (length xs)) Raw) x w1 (length xs))
      as [w2 [[-> Hw2]|(-> & Hl & Hc & _)]]; [by rewrite length_replicate| |].
    2:{ rewrite Deallocate_nothing_live
          by (by rewrite live_count_app, live_count_cons_raw, !live_count_raw).
        exists w2. right. exists xs. destruct Hw1 as (_ & _ & Hc1).
        split; [done|]. split; [done|]. split; [tauto | done]. }
    destruct (ReplaceOrCopyData_at [] xs (replicate (length xs - length xs) Raw) []
                (Live x :: replicate (cap' - S (length xs)) Raw) w2
                0 (length xs) 0 eq_refl eq_refl eq_refl)
      as [w3 [[Hr Hw3]|(xs' & Hlen & Hr & Hl & Hc & Hne & Hcopy)]];
      cbn [app] in Hr; rewrite Hr.
    + unfold RawMemory_Swap, RawMemory_dtor. cbn [buffer_ capacity_].
      rewrite Deallocate_nothing_live by (by rewrite live_count_app, !live_count_raw).
      exists w3. left. split.
      * rewrite add_small by lia.
        rewrite fmap_app, length_app, <- app_assoc. cbn [length fmap list_fmap app].
        same_state.
      * apply (after_trans 0 _ w w1 w3); [done|].
        apply (after_trans 1 _ w1 w2 w3); done.
    + exists (Deallocate (replicate (length xs) Raw ++
                          Live x :: replicate (cap' - S (length xs)) Raw) w3).
      right. exists xs'. split; [done|]. split.
      * unfold with_buffer. cbn [data_ capacity_ size_]. by rewrite Hlen.
      * destruct Hw1 as (_ & _ & Hc1), Hw2 as (_ & _ & Hc2). split; [tauto|].
        rewrite Hne. cbn [orb]. done.
  - destruct (N.eqb_spec (N.of_nat (length xs)) (N.of_nat cap)) as [|_]; [lia|].
    destruct (N.leb_spec (N.of_nat (length xs)) (N.of_nat cap)) as [_|]; [|lia].
    rewrite !Nat2N.id.
    replace (cap - length xs) with (S (cap - S (length xs))) by lia.
    cbn [replicate].
    destruct (construct_at_raw_at noexcept (Live <$> xs)
                (replicate (cap - S (length xs)) Raw) x w (length xs))
      as [w1 [[-> Hw1]|(-> & Hl & Hc & _)]]; [by rewrite length_fmap| |].
    + exists w1. left. split; [|done].
      unfold with_buffer. cbn [data_ capacity_ size_ buffer_].
      rewrite add_small by lia.
      rewrite fmap_app, length_app, <- app_assoc. cbn [length fmap list_fmap app].
      same_state.
    + exists w1. right. exists xs.
      replace (cap - length xs) with (S (cap - S (length xs))) by lia.
      by split_and!.
Qed.




(** [PopBack] on a vector that is not empty. *)
Lemma PopBack_spec xs x cap :
  length (xs ++ [x]) ≤ cap → (N.of_nat cap < SizeT.modulus)%N →
  PopBack (vector_of (xs ++ [x]) cap) = Some (vector_of xs cap).
Proof.
  rewrite length_app. cbn [length]. intros Hle Hcap.
  unfold PopBack, vector_of, filled, RawMemory_at, with_buffer.
  cbn [data_ capacity_ buffer_ size_].
  rewrite length_app. cbn [length].
  rewrite sub_small by lia. decide_N.
  rewrite fmap_app, <- app_assoc. cbn [fmap list_fmap app].
  rewrite (destroy_at_live_at (Live <$> xs)) by (rewrite length_fmap; lia).
  replace (cap - length xs) with (S (cap - (length xs + 1))) by lia.
  cbn [replicate]. same_state.
Qed.

(** [Erase] at a position before [end()]: the elements behind it move
    one slot to the left and the last slot is destroyed. *)
Lemma Erase_spec l1 x l2 cap w :
  length (l1 ++ x :: l2) ≤ cap → (N.of_nat cap < SizeT.modulus)%N →
  ∃ w', (Erase (length l1) (vector_of (l1 ++ x :: l2) cap) w
           = (Ok (length l1, vector_of (l1 ++ l2) cap), w')
         ∧ after (length l2) w w')
        ∨ (∃ this', Erase (length l1) (vector_of (l1 ++ x :: l2) cap) w = (Throw this', w')
           ∧ leaked w' = leaked w ∧ ¬ calm w).
Proof.
  intros Hle Hcap.
  assert (length (l1 ++ x :: l2) = length l1 + S (length l2)) as Hlen
    by (by rewrite length_app).
  set (result := vector_of (l1 ++ l2) cap).
  unfold Erase, end_, RawMemory_plus, begin_, GetAddress, with_buffer.
  cbn [vector_of data_ capacity_ size_ buffer_].
  destruct (N.leb_spec (N.of_nat (length (l1 ++ x :: l2))) (N.of_nat cap)) as [_|]; [|lia].
  rewrite Nat.sub_0_r, !Nat2N.id.
  destruct (Nat.eqb_spec (length l1) (length (l1 ++ x :: l2))) as [|_]; [lia|].
  destruct (N.leb_spec (N.of_nat (length l1)) (N.of_nat cap)) as [_|]; [|lia].
  destruct (Nat.leb_spec (length l1 + 1) (length (l1 ++ x :: l2))) as [_|]; [|lia].
  unfold filled. rewrite fmap_app, fmap_cons, <- app_assoc. cbn [app].
  destruct (move_forward_spec (Live <$> l1) x l2
              (replicate (cap - length (l1 ++ x :: l2)) Raw) w
              (length l1 + 1) (length (l1 ++ x :: l2) - (length l1 + 1)) (length l1))
    as [w1 [(j' & -> & Hw1)|(b & -> & Hl & Hc)]];
    [rewrite length_fmap; lia | lia | by rewrite length_fmap | |].
  2:{ exists w1. right. eexists. by split_and!. }
  match goal with |- context [PopBack ?v] =>
    replace v with (vector_of ((l1 ++ l2) ++ [j']) cap) end.
  2:{ unfold vector_of, filled.
      rewrite !fmap_app, !length_app, <- !app_assoc. cbn [length fmap list_fmap app].
      same_state. }
  rewrite PopBack_spec by (rewrite !length_app in *; cbn [length] in *; lia).
  cbn [vector_of data_ capacity_ size_ buffer_].
  destruct (N.leb_spec (N.of_nat (length l1)) (N.of_nat cap)) as [_|]; [|lia].
  exists w1. left. split; [done|].
  by replace (length (l1 ++ x :: l2) - (length l1 + 1)) with (length l2) in Hw1 by lia.
Qed.

(** [Erase] at [end()] is [PopBack] and returns the new [end()]. *)
Lemma Erase_end xs x cap w :
  length (xs ++ [x]) ≤ cap → (N.of_nat cap < SizeT.modulus)%N →
  Erase (length (xs ++ [x])) (vector_of (xs ++ [x]) cap) w
  = (Ok (length xs, vector_of xs cap), w).
Proof.
  intros Hle Hcap.
  assert (length xs ≤ cap) by (rewrite length_app in Hle; lia).
  unfold Erase. rewrite PopBack_spec by done.
  unfold end_, RawMemory_plus. cbn [vector_of data_ capacity_ size_ buffer_].
  destruct (N.leb_spec (N.of_nat (length (xs ++ [x]))) (N.of_nat cap)) as [_|]; [|lia].
  rewrite !Nat2N.id, Nat.eqb_refl.
  by destruct (N.leb_spec (N.of_nat (length xs)) (N.of_nat cap)) as [_|]; [|lia].
Qed.

Lemma construct_local_spec noexcept w :
  ∃ w', (construct_local noexcept w = (false, w') ∧ after 1 w w')
        ∨ (construct_local noexcept w = (true, w') ∧ leaked w' = leaked w ∧ ¬ calm w).
Proof.
  unfold construct_local. destruct noexcept.
  - exists (count_op w). left. split; [done|]. apply after_count_op, after_refl.
  - destruct (attempt_spec w) as [w1 [[-> Hw]|(-> & Hl & Hc)]].
    + exists (count_op w1). left. split; [done|]. by apply after_count_op.
    + exists w1. by right.
Qed.

(** [Emplace] before [end()] with room left: the tail moves one slot to
    the right and the new element is assigned to its slot. *)
Lemma Emplace_in_place noexcept x l1 l2 z cap w :
  length (l1 ++ l2 ++ [z]) < cap → (N.of_nat cap < SizeT.modulus)%N →
  ∃ w', (Emplace noexcept (length l1) x (vector_of (l1 ++ l2 ++ [z]) cap) w
           = (Ok (length l1, vector_of (l1 ++ x :: l2 ++ [z]) cap), w')
         ∧ after (length l2 + 3) w w')
        ∨ (∃ this', Emplace noexcept (length l1) x (vector_of (l1 ++ l2 ++ [z]) cap) w
                    = (Throw this', w')
           ∧ leaked w' = leaked w ∧ ¬ calm w).
Proof.
  intros Hlt Hcap.
  assert (length (l1 ++ l2 ++ [z]) = S (length l1 + length l2)) as Hlen
    by (rewrite !length_app; cbn [length]; lia).
  set (rest := replicate (cap - S (length (l1 ++ l2 ++ [z]))) (@Raw T)).
  assert (filled (l1 ++ l2 ++ [z]) cap
          = (Live <$> l1) ++ (Live <$> l2) ++ Live z :: Raw :: rest) as Hold.
  { unfold filled, rest. rewrite !fmap_app, <- !app_assoc. cbn [fmap list_fmap app].
    replace (cap - length (l1 ++ l2 ++ [z])) with (S (cap - S (length (l1 ++ l2 ++ [z]))))
      by lia.
    done. }
  assert (vector_of (l1 ++ x :: l2 ++ [z]) cap
          = {| data_ := {| buffer_ := (Live <$> l1) ++ Live x :: (Live <$> l2)
                                        ++ Live z :: rest;
                           capacity_ := N.of_nat cap |};
               size_ := N.of_nat (length (l1 ++ l2 ++ [z])) + 1 |}) as ->.
  { unfold vector_of, filled, rest. norm_blocks. same_state. }
  unfold Emplace, end_, RawMemory_plus, RawMemory_at, begin_, GetAddress, with_buffer.
  cbn [vector_of data_ capacity_ size_ buffer_ Capacity].
  rewrite Hold, sub_small, add_small by lia.
  destruct (N.leb_spec (N.of_nat (length (l1 ++ l2 ++ [z]))) (N.of_nat cap)) as [_|]; [|lia].
  rewrite Nat.sub_0_r, !Nat2N.id.
  destruct (Nat.eqb_spec (length l1) (length (l1 ++ l2 ++ [z]))) as [|_]; [lia|].
  destruct (N.eqb_spec (N.of_nat (length (l1 ++ l2 ++ [z]))) (N.of_nat cap)) as [|_]; [lia|].
  cbn [negb].
  destruct (construct_local_spec noexcept w) as [w1 [[-> Hw1]|(-> & Hl & Hc)]].
  2:{ exists w1. right. eexists. by split_and!. }
  destruct (N.ltb_spec (N.of_nat (length (l1 ++ l2 ++ [z])) - 1) (N.of_nat cap)) as [_|]; [|lia].
  destruct (N.leb_spec (N.of_nat (length l1)) (N.of_nat cap)) as [_|]; [|lia].
  destruct (N.leb_spec (N.of_nat (length (l1 ++ l2 ++ [z])) - 1) (N.of_nat cap)) as [_|]; [|lia].
  destruct (N.ltb_spec (N.of_nat (length l1)) (N.of_nat cap)) as [_|]; [|lia].
  replace (N.to_nat (N.of_nat (length (l1 ++ l2 ++ [z])) - 1)) with (length l1 + length l2)
    by lia.
  destruct (Nat.leb_spec (length l1) (length l1 + length l2)) as [_|]; [|lia].
  rewrite (app_assoc (Live <$> l1)).
  destruct (move_construct_right ((Live <$> l1) ++ (Live <$> l2)) z rest w1
              (length l1 + length l2) (length (l1 ++ l2 ++ [z])))
    as [w2 [[-> Hw2]|(-> & Hl & Hc)]];
    [by rewrite length_app, !length_fmap
    |rewrite Hlen, length_app, !length_fmap; lia | |].
  2:{ exists w2. right. eexists. destruct Hw1 as (Hl1 & _ & Hc1).
      split; [done|]. split; [congruence|tauto]. }
  rewrite <- (app_assoc (Live <$> l1)).
  destruct (move_backward_spec (Live <$> l1) l2 (moved_from z) (Live z :: rest) w2
              (length l1) (length l1 + length l2 - length l1) (length (l1 ++ l2 ++ [z])))
    as [w3 [(j' & -> & Hw3)|(b & -> & Hl & Hc)]];
    [by rewrite length_fmap | lia | rewrite length_fmap; lia | |].
  2:{ exists w3. right. eexists. destruct Hw1 as (Hl1 & _ & Hc1), Hw2 as (Hl2 & _ & Hc2).
      split; [done|]. split; [congruence|tauto]. }
  destruct (assign_at_live (Live <$> l1) j' ((Live <$> l2) ++ Live z :: rest) x w3 (length l1))
    as [w4 [[-> Hw4]|(-> & Hl & Hc)]]; [by rewrite length_fmap| |].
  - exists w4. left. split; [done|].
    replace (length l2 + 3) with (1 + (1 + ((length l1 + length l2 - length l1) + 1))) by lia.
    eapply after_trans; [done|]. eapply after_trans; [done|]. by eapply after_trans.
  - exists w4. right. eexists.
    destruct Hw1 as (Hl1 & _ & Hc1), Hw2 as (Hl2 & _ & Hc2), Hw3 as (Hl3 & _ & Hc3).
    split; [done|]. split; [congruence|tauto].
Qed.

(** [Emplace] before [end()] in a full vector.  Three things can happen:
    the element is inserted in a block of capacity [grown n]; or the
    allocation, the construction of the element or the transfer of the
    prefix throws, and the vector keeps its block; or the transfer of the
    suffix throws, and then [Emplace] returns normally, leaving a vector of
    size [n + 1] whose block holds no object at all, the objects of the
    suffix having been lost with the old block. *)
Lemma Emplace_growth noexcept x l1 l2 w :
  l2 ≠ [] →
  (N.of_nat (grown (length (l1 ++ l2))) * sizeof_T < SizeT.modulus)%N →
  let n := length (l1 ++ l2) in
  ∃ w', (Emplace noexcept (length l1) x (vector_of (l1 ++ l2) n) w
           = (Ok (length l1, vector_of (l1 ++ x :: l2) (grown n)), w')
         ∧ after (S n) w w')
        ∨ (∃ xs', length xs' = n
           ∧ Emplace noexcept (length l1) x (vector_of (l1 ++ l2) n) w
             = (Throw (vector_of xs' n), w')
           ∧ leaked w' = leaked w ∧ ¬ calm w
           ∧ (is_nothrow_move_constructible || is_copy_constructible = true
              → xs' = l1 ++ l2))
        ∨ (Emplace noexcept (length l1) x (vector_of (l1 ++ l2) n) w
             = (Ok (length l1,
                    {| data_ := {| buffer_ := replicate (grown n) Raw;
                                   capacity_ := N.of_nat (grown n) |};
                       size_ := N.of_nat (S n) |}), w')
           ∧ leaked w' = length l2 + leaked w ∧ ¬ calm w
           ∧ is_nothrow_move_constructible = false).
Proof.
  intros Hl2 Hgrow n. change (N.of_nat (grown n) * sizeof_T < SizeT.modulus)%N in Hgrow.
  pose proof (bytes_count _ Hgrow) as Hgrowc.
  assert (n = length l1 + length l2) as Hn by (unfold n; by rewrite length_app).
  assert (0 < length l2) as Hpos by (destruct l2; [done | cbn; lia]).
  pose proof (grown_gt n) as Hgt.
  assert (grown n = n * 2) as Hdouble by (unfold grown; destruct n; [lia | done]).
  set (cap' := grown n) in *.
  set (R2 := replicate (cap' - S (length l1)) (@Raw T)).
  set (R3 := replicate (cap' - S n) (@Raw T)).
  assert (R2 = replicate (length l2) Raw ++ R3) as HR2.
  { unfold R2, R3. rewrite <- replicate_add. f_equal. lia. }
  assert (vector_of (l1 ++ x :: l2) cap'
          = {| data_ := {| buffer_ := (Live <$> l1) ++ Live x :: (Live <$> l2) ++ R3;
                           capacity_ := N.of_nat cap' |};
               size_ := N.of_nat n + 1 |}) as ->.
  { unfold vector_of, filled, R3, n. norm_blocks. same_state. }
  unfold Emplace, end_, RawMemory_plus, RawMemory_at, begin_, GetAddress.
  cbn [vector_of data_ capacity_ size_ buffer_ Capacity]. fold n.
  destruct (N.leb_spec (N.of_nat n) (N.of_nat n)) as [_|]; [|lia].
  rewrite Nat.sub_0_r, !Nat2N.id.
  destruct (Nat.eqb_spec (length l1) n) as [|_]; [lia|].
  rewrite N.eqb_refl. cbn [negb].
  rewrite grown_capacity by done. fold cap'.
  destruct (RawMemory_new_spec (N.of_nat cap') w Hgrow) as [w1 [[-> Hw1]|(-> & Hl & Hc)]].
  2:{ exists w1. right; left. exists (l1 ++ l2). by split_and!. }
  destruct Hw1 as (Hl1 & Ho1 & Hc1).
  cbn [buffer_ capacity_]. rewrite add_small by lia.
  destruct (N.leb_spec (N.of_nat (length l1)) (N.of_nat cap')) as [_|]; [|lia].
  destruct (N.ltb_spec (N.of_nat (length l1)) (N.of_nat cap')) as [_|]; [|lia].
  destruct (N.leb_spec (N.of_nat (length l1)) (N.of_nat n)) as [_|]; [|lia].
  destruct (N.leb_spec (N.of_nat (length l1) + 1) (N.of_nat cap')) as [_|]; [|lia].
  rewrite !Nat2N.id.
  replace (N.to_nat (N.of_nat (length l1) + 1)) with (S (length l1)) by lia.
  rewrite sub_small by lia.
  replace (N.to_nat (N.of_nat n - N.of_nat (length l1))) with (length l2) by lia.
  rewrite (replicate_hole (length l1) cap') by lia. fold R2.
  destruct (construct_at_raw_at noexcept (replicate (length l1) Raw) R2 x w1 (length l1))
    as [w2 [[-> Hw2]|(-> & Hl & Hc & _)]]; [by rewrite length_replicate| |].
  2:{ rewrite Deallocate_nothing_live
        by (unfold R2; by rewrite live_count_app, live_count_cons_raw, !live_count_raw).
      exists w2. right; left. exists (l1 ++ l2).
      split; [done|]. split; [done|]. split; [congruence|]. split; [tauto|done]. }
  destruct Hw2 as (Hl2' & Ho2 & Hc2).
  unfold filled. fold n. rewrite fmap_app, <- app_assoc.
  set (rest0 := replicate (n - n) (@Raw T)).
  destruct (ReplaceOrCopyData_at [] l1 ((Live <$> l2) ++ rest0) [] (Live x :: R2) w2
              0 (length l1) 0 eq_refl eq_refl eq_refl)
    as [w3 [[Hr Hw3]|(l1' & Hlen & Hr & Hl & Hc & Hne & Hcopy)]];
    cbn [app] in Hr; rewrite Hr; clear Hr.
  2:{ rewrite (destroy_at_live_at (replicate (length l1) Raw))
        by (by rewrite length_replicate).
      rewrite Deallocate_nothing_live
        by (unfold R2; by rewrite live_count_app, live_count_cons_raw, !live_count_raw).
      exists w3. right; left. exists (l1' ++ l2).
      split; [rewrite length_app; lia|]. split.
      { unfold with_buffer, vector_of, filled. cbn [data_ capacity_ size_].
        rewrite fmap_app, <- app_assoc, !length_app, Hlen. unfold rest0. same_state. }
      split; [congruence|]. split; [tauto|].
      rewrite Hne. cbn [orb]. intros Hcp. by rewrite Hcopy. }
  destruct Hw3 as (Hl3 & Ho3 & Hc3).
  rewrite HR2.
  destruct (ReplaceOrCopyData_at (replicate (length l1) Raw) l2 rest0
              ((Live <$> l1) ++ [Live x]) R3 w3 (length l1) (length l2) (S (length l1)))
    as [w4 [[Hr Hw4]|(l2' & Hlen & Hr & Hl & Hc & Hne & Hcopy)]];
    [by rewrite length_replicate | done | by rewrite length_snoc, length_fmap | |];
    rewrite !snoc_middle in Hr; rewrite Hr; clear Hr.
  - destruct Hw4 as (Hl4 & Ho4 & Hc4).
    unfold Emplace_commit, RawMemory_Swap, RawMemory_dtor, RawMemory_plus.
    cbn [vector_of data_ size_ buffer_ capacity_]. fold n.
    destruct (N.leb_spec (N.of_nat (length l1)) (N.of_nat cap')) as [_|]; [|lia].
    rewrite Deallocate_nothing_live
      by (unfold rest0; by rewrite !live_count_app, !live_count_raw).
    rewrite add_small, Nat2N.id by lia.
    exists w4. left. split; [done|].
    split; [congruence|]. split; [lia|tauto].
  - rewrite <- (snoc_middle (Live <$> l1) (Live x)).
    replace ((Live <$> l1) ++ [Live x]) with (Live <$> (l1 ++ [x])) by (by rewrite fmap_app).
    pose proof (destroy_n_live_at [] (l1 ++ [x]) (replicate (length l2) Raw ++ R3) 0
                  (S (length l1)) eq_refl) as Hd.
    cbn [app] in Hd. rewrite Hd by (rewrite length_app; cbn [length]; lia). clear Hd.
    unfold Emplace_commit, RawMemory_Swap, RawMemory_dtor, RawMemory_plus.
    cbn [vector_of data_ size_ buffer_ capacity_]. fold n.
    destruct (N.leb_spec (N.of_nat (length l1)) (N.of_nat cap')) as [_|]; [|lia].
    rewrite add_small, Nat2N.id by lia.
    eexists. right; right. split.
    { rewrite <- HR2. unfold R2.
      rewrite <- (replicate_hole (length l1) cap') by lia.
      rewrite <- replicate_add. same_state. }
    split; [|split; [tauto|done]].
    unfold Deallocate, rest0. cbn [count_leaks leaked].
    rewrite !live_count_app, !live_count_raw, live_count_live. lia.
Qed.

(** [Emplace] before [end()] in a full vector that throws, whatever the
    size in bytes of the new block: only the allocation, the construction
    of the new element and the transfer of the prefix can make it throw,
    and the vector then keeps its block and nothing is lost. *)
Lemma Emplace_growth_throw noexcept x l1 l2 w this' w' :
  l2 ≠ [] →
  let n := length (l1 ++ l2) in
  (N.of_nat (grown n) < SizeT.modulus)%N →
  Emplace noexcept (length l1) x (vector_of (l1 ++ l2) n) w = (Throw this', w') →
  ∃ xs', this' = vector_of xs' n ∧ length xs' = n ∧ leaked w' = leaked w
         ∧ (is_nothrow_move_constructible || is_copy_constructible = true
            → xs' = l1 ++ l2).
Proof.
  intros Hl2 n Hgrowc.
  assert (n = length l1 + length l2) as Hn by (unfold n; by rewrite length_app).
  assert (0 < length l2) as Hpos by (destruct l2; [done | cbn; lia]).
  pose proof (grown_gt n) as Hgt.
  set (cap' := grown n) in *.
  unfold Emplace, end_, RawMemory_plus, RawMemory_at, begin_, GetAddress.
  cbn [vector_of data_ capacity_ size_ buffer_ Capacity]. fold n.
  destruct (N.leb_spec (N.of_nat n) (N.of_nat n)) as [_|]; [|lia].
  rewrite Nat.sub_0_r, !Nat2N.id.
  destruct (Nat.eqb_spec (length l1) n) as [|_]; [lia|].
  rewrite N.eqb_refl. cbn [negb].
  rewrite grown_capacity by done. fold cap'.
  destruct (RawMemory_new_any (N.of_nat cap') w) as [w1 [[-> Hw1]|(-> & Hl & Hc & _)]].
  2:{ intros [= <- <-]. exists (l1 ++ l2). by split_and!. }
  destruct Hw1 as (Hl1 & Ho1 & Hc1).
  set (m := N.to_nat (SizeT.mul (N.of_nat cap') sizeof_T / sizeof_T)).
  cbn [buffer_ capacity_]. rewrite add_small by lia.
  destruct (N.leb_spec (N.of_nat (length l1)) (N.of_nat cap')) as [_|]; [|lia].
  destruct (N.ltb_spec (N.of_nat (length l1)) (N.of_nat cap')) as [_|]; [|lia].
  destruct (N.leb_spec (N.of_nat (length l1)) (N.of_nat n)) as [_|]; [|lia].
  destruct (N.leb_spec (N.of_nat (length l1) + 1) (N.of_nat cap')) as [_|]; [|lia].
  rewrite ?Nat2N.id.
  replace (N.to_nat (N.of_nat (length l1) + 1)) with (S (length l1)) by lia.
  rewrite sub_small by lia.
  replace (N.to_nat (N.of_nat n - N.of_nat (length l1))) with (length l2) by lia.
  destruct (decide (length l1 < m)) as [Hm|Hm].
  2:{ unfold construct_at.
      by rewrite lookup_ge_None_2 by (rewrite length_replicate; lia). }
  rewrite (replicate_hole (length l1) m) by lia.
  set (R2 := replicate (m - S (length l1)) (@Raw T)).
  destruct (construct_at_raw_at noexcept (replicate (length l1) Raw) R2 x w1 (length l1))
    as [w2 [[-> Hw2]|(-> & Hl & Hc & _)]]; [by rewrite length_replicate| |].
  2:{ rewrite Deallocate_nothing_live
        by (unfold R2; by rewrite live_count_app, live_count_cons_raw, !live_count_raw).
      intros [= <- <-]. exists (l1 ++ l2). split_and!; try done. congruence. }
  destruct Hw2 as (Hl2' & Ho2 & Hc2).
  unfold filled. fold n. rewrite fmap_app, <- app_assoc.
  set (rest0 := replicate (n - n) (@Raw T)).
  destruct (ReplaceOrCopyData_at [] l1 ((Live <$> l2) ++ rest0) [] (Live x :: R2) w2
              0 (length l1) 0 eq_refl eq_refl eq_refl)
    as [w3 [[Hr Hw3]|(l1' & Hlen & Hr & Hl & Hc & Hne & Hcopy)]];
    cbn [app] in Hr; rewrite Hr; clear Hr.
  - (* the prefix is in the new block: from here on nothing is rethrown *)
    destruct (ReplaceOrCopyData _ _ _ _ _ w3) as [[[old1 new2]|[old1 new2]|] w4]; [| |done].
    + unfold Emplace_commit, RawMemory_Swap. by destruct (RawMemory_plus _ _).
    + destruct (destroy_n _ _ _); [|done].
      unfold Emplace_commit, RawMemory_Swap. by destruct (RawMemory_plus _ _).
  - rewrite (destroy_at_live_at (replicate (length l1) Raw))
      by (by rewrite length_replicate).
    rewrite Deallocate_nothing_live
      by (unfold R2; by rewrite live_count_app, live_count_cons_raw, !live_count_raw).
    intros [= <- <-]. exists (l1' ++ l2).
    split.
    { unfold with_buffer, vector_of, filled. cbn [data_ capacity_ size_].
      rewrite fmap_app, <- app_assoc, !length_app, Hlen. unfold rest0. same_state. }
    split; [rewrite length_app; lia|]. split; [congruence|].
    rewrite Hne. cbn [orb]. intros Hcp. by rewrite Hcopy.
Qed.

(** The copy constructor: a block of exactly [other.Size()] slots. *)
Lemma Vector_copy_spec ys ocap w :
  length ys ≤ ocap → (N.of_nat ocap * sizeof_T < SizeT.modulus)%N →
  ∃ w', (Vector_copy (vector_of ys ocap) w = (Ok (vector_of ys (length ys)), w')
         ∧ after (length ys) w w')
        ∨ (Vector_copy (vector_of ys ocap) w = (Throw (), w')
           ∧ leaked w' = leaked w ∧ ¬ calm w).
Proof.
  intros Hle Hob.
  assert (N.of_nat (length ys) * sizeof_T < SizeT.modulus)%N as Hyb by nia.
  unfold Vector_copy, Size, GetAddress.
  cbn [vector_of data_ capacity_ size_ buffer_].
  destruct (RawMemory_new_spec (N.of_nat (length ys)) w Hyb) as [w1 [[-> Hw1]|(-> & Hl & Hc)]].
  2:{ exists w1. by right. }
  cbn [buffer_ capacity_]. rewrite Nat2N.id. unfold filled.
  pose proof (uninitialized_copy_n_at [] ys (replicate (ocap - length ys) Raw) [] [] w1
                0 (length ys) 0 eq_refl eq_refl eq_refl) as Hr.
  cbn [app] in Hr. rewrite app_nil_r in Hr.
  destruct Hr as [w2 [[-> Hw2]|(-> & Hl & Hc)]].
  - exists w2. left. split; [|by eapply (after_trans 0)].
    unfold vector_of, filled. rewrite Nat.sub_diag. cbn [replicate].
    by rewrite app_nil_r.
  - rewrite Deallocate_nothing_live by apply live_count_raw.
    exists w2. right. destruct Hw1 as (Hl1 & _ & Hc1).
    split; [done|]. split; [congruence|tauto].
Qed.

(** The destructor destroys every element and loses nothing. *)
Lemma Vector_dtor_spec xs cap w : Vector_dtor (vector_of xs cap) w = Some w.
Proof.
  unfold Vector_dtor, GetAddress. cbn [vector_of data_ capacity_ size_ buffer_].
  rewrite Nat2N.id. unfold filled.
  pose proof (destroy_n_live_at [] xs (replicate (cap - length xs) Raw) 0 (length xs)
                eq_refl eq_refl) as Hd.
  cbn [app] in Hd. rewrite Hd.
  by rewrite Deallocate_nothing_live by (by rewrite live_count_app, !live_count_raw).
Qed.

(** The loop of the copy assignment overwrites [n] objects, from index
    [i] on, with copies of the objects at the same indices of [other]. *)
Lemma assign_elements_spec odone src orest ocap done todo rest cap size w i n :
  i = length done → i = length odone → n = length src → n = length todo →
  (N.of_nat (i + n) <= ocap)%N → (N.of_nat (i + n) <= cap)%N →
  let other := {| buffer_ := (Live <$> odone) ++ (Live <$> src) ++ orest;
                  capacity_ := ocap |} in
  let this := {| data_ := {| buffer_ := (Live <$> done) ++ (Live <$> todo) ++ rest;
                             capacity_ := cap |};
                 size_ := size |} in
  ∃ w', (assign_elements other this i n w
           = (Ok {| data_ := {| buffer_ := (Live <$> done) ++ (Live <$> src) ++ rest;
                                capacity_ := cap |};
                    size_ := size |}, w')
         ∧ after n w w')
        ∨ (∃ this', assign_elements other this i n w = (Throw this', w')
           ∧ leaked w' = leaked w ∧ ¬ calm w).
Proof.
  intros -> Hodone -> Htodo. revert odone done todo w Hodone Htodo.
  induction src as [|y src IH]; intros odone done todo w Hodone Htodo Hocap Hcap.
  { destruct todo; [|done]. exists w. left. split; [done | apply after_refl]. }
  destruct todo as [|u todo]; [done|]. cbn [length] in *.
  cbv zeta. cbn [assign_elements]. unfold RawMemory_at, with_buffer.
  cbn [data_ capacity_ size_ buffer_].
  destruct (N.ltb_spec (N.of_nat (length done)) ocap) as [_|]; [|lia].
  destruct (N.ltb_spec (N.of_nat (length done)) cap) as [_|]; [|lia].
  rewrite Nat2N.id, !fmap_cons. cbn [app].
  rewrite (list_lookup_middle _ _ _ (length done)) by (by rewrite length_fmap).
  destruct (assign_at_live (Live <$> done) u ((Live <$> todo) ++ rest) y w (length done))
    as [w1 [[-> Hw1]|(-> & Hl & Hc)]]; [by rewrite length_fmap| |].
  2:{ exists w1. right. eexists. by split_and!. }
  pose proof (IH (odone ++ [y]) (done ++ [y]) todo w1) as Hrec.
  rewrite !length_app, !fmap_app, <- !app_assoc in Hrec.
  cbn [length fmap list_fmap app] in Hrec. rewrite Nat.add_1_r in Hrec.
  destruct Hrec as [w2 [[-> Hw2]|(this' & -> & Hl & Hc)]]; [lia | lia | lia | lia | |].
  - exists w2. left. split; [done|]. by eapply (after_trans 1).
  - exists w2. right. exists this'. destruct Hw1 as (Hl1 & _ & Hc1).
    split; [done|]. split; [congruence|tauto].
Qed.

(** Copy assignment from a vector that does not fit: a copy is built
    and swapped in; if building it throws the target is unchanged. *)
Lemma copy_assign_grow xs cap ys ocap w :
  length xs ≤ cap → length ys ≤ ocap → cap < length ys →
  (N.of_nat ocap * sizeof_T < SizeT.modulus)%N →
  ∃ w', (copy_assign (vector_of xs cap) (vector_of ys ocap) w
           = (Ok (vector_of ys (length ys)), w')
         ∧ after (length ys) w w')
        ∨ (copy_assign (vector_of xs cap) (vector_of ys ocap) w
             = (Throw (vector_of xs cap), w')
           ∧ leaked w' = leaked w ∧ ¬ calm w).
Proof.
  intros Hle Hole Hlt Hob. unfold copy_assign.
  rewrite Capacity_vector_of.
  change (size_ (vector_of ys ocap)) with (N.of_nat (length ys)).
  destruct (N.ltb_spec (N.of_nat cap) (N.of_nat (length ys))) as [_|]; [|lia].
  destruct (Vector_copy_spec ys ocap w Hole Hob) as [w1 [[-> Hw1]|(-> & Hl & Hc)]].
  - unfold Swap, RawMemory_Swap. cbn [vector_of data_ capacity_ size_ buffer_].
    fold (vector_of xs cap). rewrite Vector_dtor_spec.
    exists w1. by left.
  - exists w1. by right.
Qed.

(** Copy assignment from a vector that fits: the block is kept. *)
Lemma copy_assign_in_place xs cap ys ocap w :
  length xs ≤ cap → length ys ≤ ocap → length ys ≤ cap →
  (N.of_nat cap < SizeT.modulus)%N → (N.of_nat ocap < SizeT.modulus)%N →
  ∃ w', (copy_assign (vector_of xs cap) (vector_of ys ocap) w = (Ok (vector_of ys cap), w')
         ∧ after (length ys) w w')
        ∨ (∃ this', copy_assign (vector_of xs cap) (vector_of ys ocap) w = (Throw this', w')
           ∧ leaked w' = leaked w ∧ ¬ calm w).
Proof.
  intros Hle Hole Hfit Hcap Hocap.
  assert (vector_of ys cap
          = {| data_ := {| buffer_ := (Live <$> ys) ++ replicate (cap - length ys) Raw;
                           capacity_ := N.of_nat cap |};
               size_ := N.of_nat (length ys) |}) as -> by done.
  unfold copy_assign, vector_of, filled, GetAddress, with_buffer.
  cbn [Capacity data_ capacity_ size_ buffer_].
  destruct (N.ltb_spec (N.of_nat cap) (N.of_nat (length ys))) as [|_]; [lia|].
  set (m := length ys `min` length xs).
  replace (N.to_nat (N.min (N.of_nat (length ys)) (N.of_nat (length xs)))) with m by lia.
  assert (length (take m ys) = m ∧ length (take m xs) = m) as [Hmy Hmx]
    by (rewrite !length_take; lia).
  pose proof (assign_elements_spec [] (take m ys)
                ((Live <$> drop m ys) ++ replicate (ocap - length ys) Raw) (N.of_nat ocap)
                [] (take m xs) ((Live <$> drop m xs) ++ replicate (cap - length xs) Raw)
                (N.of_nat cap) (N.of_nat (length xs)) w 0 m) as Hloop.
  cbn [app fmap list_fmap] in Hloop.
  rewrite !(app_assoc (Live <$> take m ys) (Live <$> drop m ys)),
          !(app_assoc (Live <$> take m xs) (Live <$> drop m xs)),
          <- !fmap_app, !take_drop in Hloop.
  destruct Hloop as [w1 [[-> Hw1]|(this' & -> & Hl & Hc)]];
    [done | done | done | done | lia | lia | |].
  2:{ exists w1. right. exists this'. by split_and!. }
  cbn [data_ capacity_ size_ buffer_]. rewrite !Nat2N.id. cbn [Nat.add].
  destruct (N.ltb_spec (N.of_nat (length xs)) (N.of_nat (length ys))) as [Hlt|Hge].
  - assert (m = length xs) as Hm by lia.
    rewrite sub_small by lia.
    replace (N.to_nat (N.of_nat (length ys) - N.of_nat (length xs)))
      with (length ys - length xs) by lia.
    rewrite Hm, (drop_ge xs) by lia. cbn [fmap list_fmap app].
    rewrite (replicate_split (length ys - length xs) (cap - length xs)) by lia.
    pose proof (uninitialized_copy_n_at (Live <$> take (length xs) ys) (drop (length xs) ys)
                  (replicate (ocap - length ys) Raw)
                  (Live <$> take (length xs) ys)
                  (replicate (cap - length xs - (length ys - length xs)) Raw)
                  w1 (length xs) (length ys - length xs) (length xs)) as Hcp.
    cbv zeta in Hcp.
    rewrite !(app_assoc (Live <$> take (length xs) ys) (Live <$> drop (length xs) ys)),
            <- !fmap_app, !take_drop in Hcp.
    destruct Hcp as [w2 [[-> Hw2]|(-> & Hl & Hc)]];
      [rewrite length_fmap, length_take; lia | rewrite length_drop; lia
      |rewrite length_fmap, length_take; lia | |].
    + exists w2. left. split.
      * same_state.
      * replace (length ys) with (m + (length ys - length xs)) by lia.
        by eapply after_trans.
    + exists w2. right. eexists. destruct Hw1 as (Hl1 & _ & Hc1).
      split; [done|]. split; [congruence|tauto].
  - assert (m = length ys) as Hm by lia.
    rewrite sub_small by lia.
    replace (N.to_nat (N.of_nat (length xs) - N.of_nat (length ys)))
      with (length xs - length ys) by lia.
    rewrite Hm, (take_ge ys) by lia.
    rewrite (destroy_n_live_at (Live <$> ys) (drop (length ys) xs))
      by (rewrite ?length_fmap, ?length_drop; lia).
    exists w1. left. split; [|by rewrite Hm in Hw1].
    rewrite (replicate_split (length xs - length ys) (cap - length ys)) by lia.
    same_state.
Qed.

(** *** What the operations do when nothing throws *)

Lemma push_calm (c : push_call) xs cap w :
  calm w → length xs ≤ cap → (N.of_nat cap < SizeT.modulus)%N →
  (length xs = cap → (N.of_nat (grown cap) * sizeof_T < SizeT.modulus)%N) →
  ∃ w', push c (vector_of xs cap) w
          = (Ok (vector_of (xs ++ [pushed c])
                   (if decide (length xs = cap) then grown cap else cap)), w')
        ∧ calm w' ∧ leaked w' = leaked w.
Proof.
  intros Hcalm Hle Hcap Hgrow.
  assert (∀ noexcept x,
            ∃ w', EmplaceBack noexcept x (vector_of xs cap) w
                    = (Ok (length xs,
                           vector_of (xs ++ [x])
                             (if decide (length xs = cap) then grown cap else cap)), w')
                  ∧ calm w' ∧ leaked w' = leaked w) as Hpush.
  { intros noexcept x.
    destruct (EmplaceBack_spec noexcept x xs cap w Hle Hcap Hgrow)
      as [w1 [[Hr (Hl & _ & Hc)]|(xs' & _ & _ & Hc & _)]]; [|done].
    exists w1. auto. }
  destruct c as [value|value|noexcept x]; cbn [push pushed]; unfold PushBack, PushBack_move.
  - destruct (Hpush false value) as (w1 & -> & Hw1). by exists w1.
  - destruct (Hpush is_nothrow_move_constructible value) as (w1 & -> & Hw1). by exists w1.
  - destruct (Hpush noexcept x) as (w1 & -> & Hw1). by exists w1.
Qed.

Lemma grown_le (n : nat) : grown n ≤ Nat.max 1 (2 * n).
Proof. unfold grown. destruct n; cbn [Nat.eqb]; lia. Qed.

Lemma push_all_calm (cs : list push_call) xs cap w :
  calm w → length xs ≤ cap → (N.of_nat cap * sizeof_T < SizeT.modulus)%N →
  (2 * N.of_nat (length xs + length cs) * sizeof_T < SizeT.modulus)%N →
  ∃ cap' w', push_all cs (vector_of xs cap) w
               = (Ok (vector_of (xs ++ (pushed <$> cs)) cap'), w')
             ∧ length (xs ++ (pushed <$> cs)) ≤ cap'
             ∧ (N.of_nat cap' * sizeof_T < SizeT.modulus)%N
             ∧ calm w' ∧ leaked w' = leaked w.
Proof.
  revert xs cap w. induction cs as [|c cs IH]; intros xs cap w Hcalm Hle Hcap Hbound.
  { exists cap, w. rewrite app_nil_r. by split_and!. }
  cbn [push_all length fmap list_fmap] in *.
  assert (N.of_nat (grown (length xs)) * sizeof_T < SizeT.modulus)%N as Hgrown.
  { pose proof (grown_le (length xs)). eapply bytes_le; [|exact Hbound]. lia. }
  destruct (push_calm c xs cap w) as (w1 & -> & Hc1 & Hl1);
    [done | done | by eapply bytes_count | by intros <- |].
  set (cap1 := if decide (length xs = cap) then grown cap else cap).
  destruct (IH (xs ++ [pushed c]) cap1 w1) as (cap' & w' & -> & Hle' & Hcap' & Hc' & Hl');
    [done | | | |].
  - rewrite length_app. cbn [length]. unfold cap1.
    destruct (decide (length xs = cap)) as [<-|]; [|lia].
    pose proof (grown_gt (length xs)). lia.
  - unfold cap1. by destruct (decide (length xs = cap)) as [<-|].
  - rewrite length_app. cbn [length].
    eapply bytes_le; [|exact Hbound]. lia.
  - exists cap', w'. rewrite <- app_assoc in *. cbn [app] in *.
    split; [done|]. split; [done|]. split; [done|]. split; [done|congruence].
Qed.

Lemma Emplace_calm noexcept x l1 l2 cap w :
  calm w → length (l1 ++ l2) ≤ cap → (N.of_nat cap < SizeT.modulus)%N →
  (length (l1 ++ l2) = cap → (N.of_nat (grown cap) * sizeof_T < SizeT.modulus)%N) →
  ∃ w', Emplace noexcept (length l1) x (vector_of (l1 ++ l2) cap) w
          = (Ok (length l1,
                 vector_of (l1 ++ x :: l2)
                   (if decide (length (l1 ++ l2) = cap) then grown cap else cap)), w')
        ∧ calm w' ∧ leaked w' = leaked w.
Proof.
  intros Hcalm Hle Hcap Hgrow.
  destruct l2 as [|z l2 _] using rev_ind.
  - (* at [end()]: [EmplaceBack] *)
    rewrite app_nil_r in *. unfold Emplace, end_, RawMemory_plus.
    cbn [vector_of data_ capacity_ size_].
    destruct (N.leb_spec (N.of_nat (length l1)) (N.of_nat cap)) as [_|]; [|lia].
    rewrite Nat2N.id, Nat.eqb_refl. fold (vector_of l1 cap).
    destruct (EmplaceBack_spec noexcept x l1 cap w Hle Hcap Hgrow)
      as [w1 [[Hr (Hl & _ & Hc)]|(xs' & _ & _ & Hc & _)]]; [|done].
    exists w1. auto.
  - destruct (decide (length (l1 ++ l2 ++ [z]) = cap)) as [Hfull|Hroom].
    + (* full: a new block *)
      specialize (Hgrow Hfull). subst cap.
      destruct (Emplace_growth noexcept x l1 (l2 ++ [z]) w)
        as [w1 [[Hr (Hl & _ & Hc)]|[(xs' & _ & _ & _ & Hc & _)|(_ & _ & Hc & _)]]];
        [by destruct l2 | done | | done | done].
      exists w1. auto.
    + (* room left: in place *)
      destruct (Emplace_in_place noexcept x l1 l2 z cap w)
        as [w1 [[Hr (Hl & _ & Hc)]|(this' & _ & _ & Hc)]]; [lia | done | | done].
      exists w1. auto.
Qed.

Lemma Erase_calm l1 x l2 cap w :
  calm w → length (l1 ++ x :: l2) ≤ cap → (N.of_nat cap < SizeT.modulus)%N →
  ∃ w', Erase (length l1) (vector_of (l1 ++ x :: l2) cap) w
          = (Ok (length l1, vector_of (l1 ++ l2) cap), w')
        ∧ calm w' ∧ leaked w' = leaked w.
Proof.
  intros Hcalm Hle Hcap.
  destruct (Erase_spec l1 x l2 cap w Hle Hcap)
    as [w1 [[Hr (Hl & _ & Hc)]|(this' & _ & _ & Hc)]]; [|done].
  exists w1. auto.
Qed.

(** The elements read from a vector determine the list it holds. *)
Lemma elements_inj xs ys cap :
  length xs ≤ cap → elements (vector_of xs cap) = Some <$> ys → xs = ys.
Proof.
  intros Hle Hel. rewrite elements_vector_of in Hel by done.
  by apply (inj (fmap Some)) in Hel.
Qed.

End Operations.

(** * The claims of the specification *)

Lemma modulus_gt_1 : (1 < SizeT.modulus)%N.
Proof. done. Qed.

Lemma grown_bound `{Elem : Element T} (cap : nat) :
  (2 * N.of_nat cap * sizeof_T < SizeT.modulus)%N →
  (N.of_nat (grown cap) * sizeof_T < SizeT.modulus)%N.
Proof.
  intros Hcap. pose proof (sizeof_T_range (T := T)). unfold grown.
  destruct cap; cbn [Nat.eqb]; lia.
Qed.

Section Claims.
Context {T : Type} {Elem : Element T}.
Implicit Types (xs : list T) (this : Vector T) (w : world) (st : gmap nat (Vector T)).

(** The capacity after a push, as the source computes it. *)
Lemma grown_as_N (cap : nat) :
  (2 * N.of_nat cap < SizeT.modulus)%N →
  N.of_nat (grown cap)
  = (if (N.of_nat cap =? 0)%N then 1 else 2 * N.of_nat cap)%N.
Proof. intros Hcap. unfold grown. destruct cap; cbn [Nat.eqb]; decide_N. Qed.

(** C3. After any sequence of N [PushBack]/[EmplaceBack] calls on an empty
    vector, [Size()] is N and [operator[]] at index i gives the value of
    the i-th call (nothing throws, and a block of 2 N elements has a size
    in bytes below 2^64); and whenever [EmplaceBack] returns, the reference
    it returns designates the last slot, which holds the new element. *)
Theorem pushes_fill_the_vector (cs : list push_call) w :
  calm w → (2 * N.of_nat (length cs) * sizeof_T < SizeT.modulus)%N →
  (∃ this w', push_all cs Vector_default w = (Ok this, w')
              ∧ Size this = N.of_nat (length cs)
              ∧ ∀ i, Vector_at this (N.of_nat i) = pushed <$> cs !! i)
  ∧ (∀ noexcept x this w0 t this' w',
       invariant this = true →
       (Size this = Capacity this → (2 * Capacity this < SizeT.modulus)%N) →
       EmplaceBack noexcept x this w0 = (Ok (t, this'), w') →
       N.of_nat t = Size this ∧ Vector_at this' (N.of_nat t) = Some x).
Proof.
  intros Hcalm Hbound. split.
  - destruct (push_all_calm cs [] 0 w) as (cap' & w' & Hr & Hle & Hcap & _);
      [done | done | done | done |].
    cbn [app] in *. exists (vector_of (pushed <$> cs) cap'), w'.
    split; [exact Hr|]. split.
    + by rewrite Size_vector_of, length_fmap.
    + intros i. rewrite Vector_at_vector_of by done. apply list_lookup_fmap.
  - intros noexcept x this w0 t this' w' Hinv Hgrow Hr.
    destruct (invariant_inv this Hinv) as (xs & cap & -> & Hle & Hcap & Hbytes).
    rewrite Size_vector_of, Capacity_vector_of in *.
    destruct (decide (length xs = cap)) as [<-|Hroom].
    + (* full: the new block may be shorter than its capacity *)
      assert (N.of_nat (grown (length xs)) < SizeT.modulus)%N as Hgrowc.
      { rewrite grown_as_N by (by apply Hgrow). specialize (Hgrow eq_refl).
        pose proof modulus_gt_1. by decide_N. }
      pose proof (grown_gt (length xs)) as Hgt.
      destruct (EmplaceBack_full noexcept x xs w0 Hgrowc)
        as [w1 [[Hr' Hm]|[(xs' & _ & Hr' & _)|Hr']]]; rewrite Hr' in Hr; [|done|done].
      injection Hr as <- <- <-. split; [done|].
      unfold Vector_at, RawMemory_at. cbn [size_ data_ capacity_ buffer_].
      decide_N. rewrite Nat2N.id.
      by rewrite (list_lookup_middle (Live <$> xs)) by (by rewrite length_fmap).
    + destruct (EmplaceBack_spec noexcept x xs cap w0 Hle Hcap)
        as [w1 [[Hr' _]|(xs' & _ & Hr' & _)]]; [done| |by rewrite Hr' in Hr].
      rewrite Hr' in Hr. injection Hr as <- <- <-. split; [done|].
      rewrite Vector_at_vector_of.
      * by rewrite lookup_app_r, Nat.sub_diag.
      * rewrite length_app. cbn [length].
        destruct (decide (length xs = cap)) as [|_]; [done|lia].
Qed.

(** C4. A push on a full vector doubles the capacity, or makes it 1 when
    it was 0; a push on a vector with room left keeps the capacity.
    (Nothing throws, and the doubled block has a size in bytes below
    2^64.) *)
Theorem push_capacity (c : push_call) this w :
  invariant this = true → calm w →
  (Size this = Capacity this → (2 * Capacity this * sizeof_T < SizeT.modulus)%N) →
  ∃ this' w', push c this w = (Ok this', w')
              ∧ Capacity this'
                = (if (Size this =? Capacity this)%N
                   then (if (Capacity this =? 0)%N then 1 else 2 * Capacity this)
                   else Capacity this)%N.
Proof.
  intros Hinv Hcalm Hgrow.
  destruct (invariant_inv this Hinv) as (xs & cap & -> & Hle & Hcap & Hbytes).
  rewrite Size_vector_of, Capacity_vector_of in *.
  destruct (push_calm c xs cap w) as (w' & Hr & _); [done | done | done | |].
  { intros Hfull. apply grown_bound, Hgrow. lia. }
  eexists _, w'. split; [exact Hr|].
  rewrite Capacity_vector_of.
  destruct (decide (length xs = cap)) as [Hfull|Hroom].
  - rewrite grown_as_N by (apply (bytes_count (2 * N.of_nat cap)), Hgrow; lia).
    destruct (N.eqb_spec (N.of_nat (length xs)) (N.of_nat cap)); [done | lia].
  - destruct (N.eqb_spec (N.of_nat (length xs)) (N.of_nat cap)); [lia | done].
Qed.


(** Both overloads of [Insert] are [Emplace], with the copy and with the
    move constructor of [T]; the theorem below covers them through its
    [noexcept] argument. *)
Lemma Insert_as_Emplace (pos : nat) (value : T) this w :
  Insert pos value this w = Emplace false pos value this w
  ∧ Insert_move pos value this w
    = Emplace is_nothrow_move_constructible pos value this w.
Proof. done. Qed.

(** C6. [Insert] at position p (either overload: [Emplace] with the copy
    or the move constructor) returns p, puts the value at index p and
    shifts the elements from p on one slot to the right, in order;
    [Erase] at p returns p and shifts the elements behind p one slot to
    the left; and [Erase] at p right after [Insert] at p gives back the
    original sequence.  (Nothing throws, and when the vector is full the
    doubled block has a size in bytes below 2^64.) *)
Theorem Insert_Erase_round_trip noexcept this xs (p : nat) (x : T) w :
  invariant this = true → elements this = Some <$> xs → p ≤ length xs → calm w →
  (Size this = Capacity this → (2 * Capacity this * sizeof_T < SizeT.modulus)%N) →
  (∃ this1 w1, Emplace noexcept (begin_ this + p) x this w = (Ok (begin_ this1 + p, this1), w1)
               ∧ elements this1 = Some <$> (take p xs ++ x :: drop p xs)
               ∧ ∃ this2 w2, Erase (begin_ this1 + p) this1 w1
                             = (Ok (begin_ this2 + p, this2), w2)
                             ∧ elements this2 = Some <$> xs)
  ∧ (p < length xs →
     ∃ this3 w3, Erase (begin_ this + p) this w = (Ok (begin_ this3 + p, this3), w3)
                 ∧ elements this3 = Some <$> (take p xs ++ drop (S p) xs)).
Proof.
  intros Hinv Hel Hp Hcalm Hgrow. unfold begin_, GetAddress. cbn [Nat.add].
  destruct (invariant_inv this Hinv) as (xs' & cap & -> & Hle & Hcap & Hbytes).
  apply elements_inj in Hel as ->; [|done].
  rewrite Size_vector_of, Capacity_vector_of in Hgrow.
  assert (length (take p xs) = p) as Hlp by (rewrite length_take; lia).
  split.
  - destruct (Emplace_calm noexcept x (take p xs) (drop p xs) cap w)
      as (w1 & Hr & Hc1 & _); rewrite ?take_drop; [done | done | done | |].
    { intros Hfull. apply grown_bound, Hgrow. lia. }
    rewrite Hlp, take_drop in Hr.
    set (cap1 := if decide (length xs = cap) then grown cap else cap) in *.
    assert (length (take p xs ++ x :: drop p xs) ≤ cap1 ∧ (N.of_nat cap1 < SizeT.modulus)%N)
      as [Hle1 Hcap1].
    { rewrite length_app. cbn [length]. rewrite length_take, length_drop. unfold cap1.
      destruct (decide (length xs = cap)) as [Hfull|Hroom]; [|lia].
      pose proof (grown_gt cap). split; [lia|].
      apply bytes_count, grown_bound, Hgrow. lia. }
    eexists _, w1. split; [exact Hr|]. split; [apply elements_vector_of, Hle1|].
    destruct (Erase_calm (take p xs) x (drop p xs) cap1 w1 Hc1 Hle1 Hcap1) as (w2 & Hr2 & _).
    rewrite Hlp, take_drop in Hr2.
    eexists _, w2. split; [exact Hr2|]. apply elements_vector_of.
    rewrite length_app in Hle1. cbn [length] in Hle1.
    rewrite length_take, length_drop in Hle1. lia.
  - intros Hlt.
    destruct (lookup_lt_is_Some_2 xs p Hlt) as [y Hy].
    pose proof (take_drop_middle xs p y Hy) as Hsplit.
    destruct (Erase_calm (take p xs) y (drop (S p) xs) cap w) as (w3 & Hr & _);
      rewrite ?Hsplit; [done | done | done |].
    rewrite Hlp, Hsplit in Hr.
    eexists _, w3. split; [exact Hr|]. apply elements_vector_of.
    rewrite length_app, length_take, length_drop. lia.
Qed.

(** C7. Copy assignment between two distinct vectors: the target gets the
    size and the elements of the source, by one element operation per
    element of the source, and the source is not changed.  When the
    source does not fit in the capacity of the target, the target ends up
    with capacity exactly the size of the source, and if anything throws
    nothing has changed; otherwise the target keeps its capacity. *)
Theorem copy_assignment st (a b : nat) (va vb : Vector T) w :
  a ≠ b → st !! a = Some va → st !! b = Some vb →
  invariant va = true → invariant vb = true →
  (calm w →
   ∃ va' w', operator_assign a b st w = (Ok (<[a := va']> st), w')
             ∧ (<[a := va']> st) !! b = Some vb
             ∧ elements va' = elements vb ∧ Size va' = Size vb
             ∧ Capacity va' = (if (Capacity va <? Size vb)%N then Size vb else Capacity va)
             ∧ invariant va' = true
             ∧ elem_ops w' = N.to_nat (Size vb) + elem_ops w ∧ leaked w' = leaked w)
  ∧ ((Capacity va < Size vb)%N →
     ∀ st' w', operator_assign a b st w = (Throw st', w') → st' = st ∧ leaked w' = leaked w).
Proof.
  intros Hab Ha Hb Hinva Hinvb.
  destruct (invariant_inv va Hinva) as (xs & cap & -> & Hle & Hcap & Hbytes).
  destruct (invariant_inv vb Hinvb) as (ys & ocap & -> & Hole & Hocap & Hobytes).
  unfold operator_assign. rewrite Ha, Hb. destruct (decide (a ≠ b)) as [_|]; [|done].
  rewrite Capacity_vector_of, !Size_vector_of, Nat2N.id.
  split.
  - intros Hcalm. destruct (N.ltb_spec (N.of_nat cap) (N.of_nat (length ys))) as [Hlt|Hge].
    + destruct (copy_assign_grow xs cap ys ocap w)
        as [w' [[-> (Hl & Ho & Hc)]|(_ & _ & Hc)]]; [done | lia | lia | done | | done].
      eexists _, w'. split; [done|].
      rewrite lookup_insert_ne by done.
      rewrite Capacity_vector_of, !Size_vector_of, !elements_vector_of by lia.
      rewrite invariant_vector_of by (lia || (eapply bytes_le; [|exact Hobytes]; lia)).
      by split_and!.
    + destruct (copy_assign_in_place xs cap ys ocap w)
        as [w' [[-> (Hl & Ho & Hc)]|(this' & _ & _ & Hc)]];
        [done | done | lia | done | done | | done].
      eexists _, w'. split; [done|].
      rewrite lookup_insert_ne by done.
      rewrite Capacity_vector_of, !Size_vector_of, !elements_vector_of by lia.
      rewrite invariant_vector_of by (done || lia). by split_and!.
  - intros Hlt st' w' Hr.
    destruct (copy_assign_grow xs cap ys ocap w)
      as [w1 [[Hr' _]|(Hr' & Hl & _)]]; [done | lia | lia | done | |];
      rewrite Hr' in Hr; [done|].
    injection Hr as <- <-. split; [by apply insert_id | done].
Qed.


(** C10. Assigning a vector to itself, by copy or by move, changes
    nothing. *)
Theorem self_assignment st (a : nat) (va : Vector T) w :
  st !! a = Some va →
  operator_assign a a st w = (Ok st, w) ∧ operator_assign_move a a st = Some st.
Proof.
  intros Ha. unfold operator_assign, operator_assign_move. rewrite Ha.
  by destruct (decide (a ≠ a)).
Qed.

(** On a normal return in a calm world the operations below keep the
    invariant. *)
Lemma invariant_kept_on_return this w :
  invariant this = true → calm w →
  (Size this = Capacity this → (2 * Capacity this * sizeof_T < SizeT.modulus)%N) →
  (∀ k, (k * sizeof_T < SizeT.modulus)%N →
        ∃ this' w', Reserve k this w = (Ok this', w') ∧ invariant this' = true)
  ∧ (∀ c, ∃ this' w', push c this w = (Ok this', w') ∧ invariant this' = true)
  ∧ (∀ noexcept p x, p ≤ N.to_nat (Size this) →
        ∃ q this' w', Emplace noexcept (begin_ this + p) x this w = (Ok (q, this'), w')
                      ∧ invariant this' = true)
  ∧ (∀ p, p < N.to_nat (Size this) →
        ∃ q this' w', Erase (begin_ this + p) this w = (Ok (q, this'), w')
                      ∧ invariant this' = true)
  ∧ ((0 < Size this)%N → ∃ this', PopBack this = Some this' ∧ invariant this' = true).
Proof.
  intros Hinv Hcalm Hgrow. unfold begin_, GetAddress. cbn [Nat.add].
  destruct (invariant_inv this Hinv) as (xs & cap & -> & Hle & Hcap & Hbytes).
  rewrite Size_vector_of, Capacity_vector_of, ?Nat2N.id in *.
  assert (length xs = cap → (N.of_nat (grown cap) * sizeof_T < SizeT.modulus)%N) as Hgrown
    by (intros Hfull; apply grown_bound, Hgrow; lia).
  split_and!.
  - intros k Hk. destruct (N.leb_spec k (N.of_nat cap)) as [Hfit|Hlt].
    + eexists _, w. split; [by apply Reserve_enough|done].
    + destruct (Reserve_grow xs cap k w Hle Hlt Hk)
        as [w' [[Hr _]|(xs' & _ & _ & _ & Hc & _)]]; [|done].
      eexists _, w'. split; [exact Hr|].
      apply invariant_vector_of; [lia | by rewrite N2Nat.id].
  - intros c. destruct (push_calm c xs cap w) as (w' & Hr & _); [done..|].
    eexists _, w'. split; [exact Hr|]. apply invariant_vector_of.
    + rewrite length_app. cbn [length].
      destruct (decide (length xs = cap)) as [<-|]; [|lia].
      pose proof (grown_gt (length xs)). lia.
    + destruct (decide (length xs = cap)); auto.
  - intros noexcept p x Hp.
    assert (length (take p xs) = p) as Hlp by (rewrite length_take; lia).
    destruct (Emplace_calm noexcept x (take p xs) (drop p xs) cap w) as (w' & Hr & _);
      rewrite ?take_drop; [done..|].
    rewrite Hlp, take_drop in Hr.
    eexists _, _, w'. split; [exact Hr|]. apply invariant_vector_of.
    + rewrite length_app. cbn [length]. rewrite length_take, length_drop.
      destruct (decide (length xs = cap)) as [<-|]; [|lia].
      pose proof (grown_gt (length xs)). lia.
    + destruct (decide (length xs = cap)); auto.
  - intros p Hp.
    assert (length (take p xs) = p) as Hlp by (rewrite length_take; lia).
    destruct (lookup_lt_is_Some_2 xs p Hp) as [y Hy].
    pose proof (take_drop_middle xs p y Hy) as Hsplit.
    destruct (Erase_calm (take p xs) y (drop (S p) xs) cap w) as (w' & Hr & _);
      rewrite ?Hsplit; [done..|].
    rewrite Hlp, Hsplit in Hr.
    eexists _, _, w'. split; [exact Hr|]. apply invariant_vector_of; [|done].
    rewrite length_app, length_take, length_drop. lia.
  - intros Hpos. destruct xs as [|x xs _] using rev_ind; [cbn in Hpos; lia|].
    rewrite PopBack_spec by done. eexists. split; [done|].
    apply invariant_vector_of; [|done]. rewrite length_app in Hle. lia.
Qed.

(** Move assignment between two distinct vectors: the target takes the
    block and the size of the source; the source takes the block of the
    target, objects included, and size 0. *)
Lemma move_assign_spec this other :
  move_assign this other
  = ({| data_ := data_ other; size_ := size_ other |},
     {| data_ := data_ this; size_ := 0 |}).
Proof. by destruct this as [[]], other as [[]]. Qed.

(** The move constructor, for comparison: the new vector takes the block
    and the size of the source, and the source is left as a default
    vector, with no block and capacity 0. *)
Lemma Vector_move_spec (other : Vector T) :
  Vector_move other = ({| data_ := data_ other; size_ := size_ other |}, Vector_default).
Proof. by destruct other as [[]]. Qed.

End Claims.

(** * Further properties of the code *)

(** ** Operations that throw halfway: what is left behind *)

Section Shapes.
Context {T : Type} {Elem : Element T}.
Implicit Types (b : block T) (this other : Vector T) (w : world).

Lemma forallb_fmap {A B} (f : A → B) (g : B → bool) (l : list A) :
  forallb g (f <$> l) = forallb (g ∘ f) l.
Proof. induction l as [|a l IH]; [done|]. cbn. by rewrite IH. Qed.

Lemma shape_length b b' : shape b = shape b' → length b = length b'.
Proof. unfold shape. intros Hs. by rewrite <- (length_fmap is_live b), Hs, length_fmap. Qed.

Lemma shape_live_take b b' n :
  shape b = shape b' → forallb is_live (take n b) = forallb is_live (take n b').
Proof.
  unfold shape. intros Hs.
  change is_live with (id ∘ @is_live T).
  by rewrite <- !forallb_fmap, !fmap_take, Hs.
Qed.

Lemma shape_raw_drop b b' n :
  shape b = shape b' →
  forallb (λ s, negb (is_live s)) (drop n b) = forallb (λ s, negb (is_live s)) (drop n b').
Proof.
  unfold shape. intros Hs.
  change (λ s : slot T, negb (is_live s)) with (negb ∘ @is_live T).
  by rewrite <- !forallb_fmap, !fmap_drop, Hs.
Qed.

(** The invariant only looks at the size, the capacity and the shape. *)
Lemma invariant_shape this this' :
  size_ this' = size_ this → capacity_ (data_ this') = capacity_ (data_ this) →
  shape (buffer_ (data_ this')) = shape (buffer_ (data_ this)) →
  invariant this' = invariant this.
Proof.
  intros Hsize Hcap Hshape. unfold invariant.
  by rewrite Hsize, Hcap, (shape_length _ _ Hshape), (shape_live_take _ _ _ Hshape),
       (shape_raw_drop _ _ _ Hshape).
Qed.

Lemma shape_insert_live b i u v :
  b !! i = Some (Live u) → shape (<[i := Live v]> b) = shape b.
Proof.
  intros Hi. unfold shape. rewrite list_fmap_insert. apply list_insert_id.
  by rewrite list_lookup_fmap, Hi.
Qed.

Lemma attempt_leaked w : leaked (attempt w).2 = leaked w.
Proof. unfold attempt. by destruct (faults w). Qed.

(** An assignment, whether it returns or throws, keeps the shape of the
    block and loses nothing. *)
Lemma assign_at_shape b i v w r w' :
  assign_at b i v w = (r, w') →
  leaked w' = leaked w
  ∧ match r with
    | Ok b' | Throw b' => shape b' = shape b
    | Undef => True
    end.
Proof.
  unfold assign_at. destruct (b !! i) as [[|u]|] eqn:Hi; try (intros [= <- <-]; done).
  pose proof (attempt_leaked w) as Hl. destruct (attempt w) as [[] w1]; cbn [snd] in Hl.
  - intros [= <- <-]. done.
  - intros [= <- <-]. split; [done|]. by eapply shape_insert_live.
Qed.

Lemma move_assign_at_shape b from to w r w' :
  move_assign_at b from to w = (r, w') →
  leaked w' = leaked w
  ∧ match r with
    | Ok b' | Throw b' => shape b' = shape b
    | Undef => True
    end.
Proof.
  unfold move_assign_at.
  destruct (b !! from) as [[|v]|] eqn:Hfrom; try (intros [= <- <-]; done).
  destruct (b !! to) as [[|u]|] eqn:Hto; try (intros [= <- <-]; done).
  pose proof (attempt_leaked w) as Hl. destruct (attempt w) as [[] w1]; cbn [snd] in Hl.
  - intros [= <- <-]. done.
  - intros [= <- <-]. split; [done|].
    assert (shape (<[from := Live (moved_from v)]> b) = shape b) as Hs
      by (by eapply shape_insert_live).
    destruct (decide (from = to)) as [->|Hne].
    + rewrite list_insert_insert_eq. by eapply shape_insert_live.
    + rewrite (shape_insert_live _ to u); [done|].
      by rewrite list_lookup_insert_ne.
Qed.

Lemma move_forward_shape n : ∀ b first d_first w r w',
  move_forward b first n d_first w = (r, w') →
  leaked w' = leaked w
  ∧ match r with
    | Ok b' | Throw b' => shape b' = shape b
    | Undef => True
    end.
Proof.
  induction n as [|n IH]; intros b first d_first w r w'; cbn [move_forward].
  { intros [= <- <-]. done. }
  destruct (move_assign_at b first d_first w) as [r1 w1] eqn:Hstep.
  apply move_assign_at_shape in Hstep as [Hl1 Hs1].
  destruct r1 as [b1|b1|].
  - intros Hrec. apply IH in Hrec as [Hl Hs]. split; [congruence|].
    destruct r; congruence.
  - intros [= <- <-]. done.
  - intros [= <- <-]. done.
Qed.

Lemma assign_elements_shape (src : RawMemory T) n : ∀ this i w r w',
  assign_elements src this i n w = (r, w') →
  leaked w' = leaked w
  ∧ match r with
    | Ok this' | Throw this' =>
      size_ this' = size_ this ∧ capacity_ (data_ this') = capacity_ (data_ this)
      ∧ shape (buffer_ (data_ this')) = shape (buffer_ (data_ this))
    | Undef => True
    end.
Proof.
  induction n as [|n IH]; intros this i w r w'; cbn [assign_elements].
  { intros [= <- <-]. done. }
  destruct (RawMemory_at src (N.of_nat i)); [|intros [= <- <-]; done].
  destruct (RawMemory_at (data_ this) (N.of_nat i)); [|intros [= <- <-]; done].
  destruct (buffer_ src !! _) as [[|v]|]; try (intros [= <- <-]; done).
  destruct (assign_at _ _ v w) as [r1 w1] eqn:Hstep.
  apply assign_at_shape in Hstep as [Hl1 Hs1].
  destruct r1 as [b1|b1|].
  - intros Hrec. apply IH in Hrec as [Hl Hs]. split; [congruence|].
    destruct r as [this'|this'|]; [| |done];
      destruct Hs as (? & ? & Hs); unfold with_buffer in *;
      cbn [data_ buffer_ capacity_ size_] in *; split_and!; congruence.
  - intros [= <- <-]. done.
  - intros [= <- <-]. done.
Qed.

End Shapes.

Section Guarantees.
Context {T : Type} {Elem : Element T}.
Implicit Types (xs ys : list T) (this other : Vector T) (w : world).

(** X1. Basic guarantee of [Erase]: if a move assignment throws while the
    tail is shifted, at whatever position, the vector still satisfies the
    invariant, with the size and the capacity it had, and no object is
    lost. *)
Theorem Erase_basic_guarantee (pos : nat) this w this' w' :
  invariant this = true → Erase pos this w = (Throw this', w') →
  invariant this' = true ∧ Size this' = Size this ∧ Capacity this' = Capacity this
  ∧ leaked w' = leaked w.
Proof.
  intros Hinv. unfold Erase.
  destruct (end_ this) as [e|]; [|done].
  destruct (pos =? e)%nat.
  { destruct (PopBack this) as [this1|]; [|done]. by destruct (end_ this1). }
  destruct (RawMemory_plus _ _) as [d_first|]; [|done].
  destruct (d_first + 1 <=? e)%nat; [|done].
  destruct (move_forward _ _ _ _ w) as [r w1] eqn:Hmove.
  apply move_forward_shape in Hmove as [Hl Hs].
  destruct r as [b|b|]; [| |done].
  { destruct (PopBack _) as [this1|]; [|done]. by destruct (RawMemory_plus _ _). }
  intros [= <- <-]. split_and!; try done.
  by rewrite (invariant_shape this (with_buffer this b)).
Qed.

Lemma copy_assign_in_place_throw xs cap ys ocap w this' w' :
  length xs ≤ cap → length ys ≤ ocap → length ys ≤ cap →
  (N.of_nat cap * sizeof_T < SizeT.modulus)%N → (N.of_nat ocap < SizeT.modulus)%N →
  copy_assign (vector_of xs cap) (vector_of ys ocap) w = (Throw this', w') →
  invariant this' = true ∧ size_ this' = N.of_nat (length xs)
  ∧ capacity_ (data_ this') = N.of_nat cap ∧ leaked w' = leaked w.
Proof.
  intros Hle Hole Hfit Hbytes Hocap. pose proof (bytes_count _ Hbytes) as Hcap.
  pose proof (invariant_vector_of xs cap Hle Hbytes) as Hinv. revert Hinv.
  unfold copy_assign, vector_of, filled, GetAddress, with_buffer.
  cbn [Capacity data_ capacity_ size_ buffer_]. intros Hinv.
  destruct (N.ltb_spec (N.of_nat cap) (N.of_nat (length ys))) as [|_]; [lia|].
  set (m := length ys `min` length xs).
  replace (N.to_nat (N.min (N.of_nat (length ys)) (N.of_nat (length xs)))) with m by lia.
  assert (length (take m ys) = m ∧ length (take m xs) = m) as [Hmy Hmx]
    by (rewrite !length_take; lia).
  pose proof (assign_elements_spec [] (take m ys)
                ((Live <$> drop m ys) ++ replicate (ocap - length ys) Raw) (N.of_nat ocap)
                [] (take m xs) ((Live <$> drop m xs) ++ replicate (cap - length xs) Raw)
                (N.of_nat cap) (N.of_nat (length xs)) w 0 m) as Hloop.
  cbn [app fmap list_fmap] in Hloop.
  rewrite !(app_assoc (Live <$> take m ys) (Live <$> drop m ys)),
          !(app_assoc (Live <$> take m xs) (Live <$> drop m xs)),
          <- !fmap_app, !take_drop in Hloop.
  destruct Hloop as [w1 [[Hr Hw1]|(this1 & Hr & Hl & Hc)]];
    [done | done | done | done | lia | lia | |]; rewrite Hr.
  2:{ apply assign_elements_shape in Hr as (_ & Hsz & Hcp & Hs).
      intros [= <- <-]. split_and!; try done.
      by rewrite (invariant_shape _ _ Hsz Hcp Hs). }
  destruct Hw1 as (Hl1 & _ & _).
  cbn [data_ capacity_ size_ buffer_]. rewrite !Nat2N.id. cbn [Nat.add].
  destruct (N.ltb_spec (N.of_nat (length xs)) (N.of_nat (length ys))) as [Hlt|Hge].
  - assert (m = length xs) as Hm by lia.
    rewrite sub_small by lia.
    replace (N.to_nat (N.of_nat (length ys) - N.of_nat (length xs)))
      with (length ys - length xs) by lia.
    rewrite Hm, (drop_ge xs) by lia. cbn [fmap list_fmap app].
    rewrite (replicate_split (length ys - length xs) (cap - length xs)) by lia.
    pose proof (uninitialized_copy_n_at (Live <$> take (length xs) ys) (drop (length xs) ys)
                  (replicate (ocap - length ys) Raw)
                  (Live <$> take (length xs) ys)
                  (replicate (cap - length xs - (length ys - length xs)) Raw)
                  w1 (length xs) (length ys - length xs) (length xs)) as Hcp.
    cbv zeta in Hcp.
    rewrite !(app_assoc (Live <$> take (length xs) ys) (Live <$> drop (length xs) ys)),
            <- !fmap_app, !take_drop in Hcp.
    destruct Hcp as [w2 [[-> Hw2]|(-> & Hl & Hc)]];
      [rewrite length_fmap, length_take; lia | rewrite length_drop; lia
      |rewrite length_fmap, length_take; lia | done |].
    intros [= <- <-]. cbn [data_ capacity_ size_ buffer_]. split_and!; [|done|done|congruence].
    rewrite <- (replicate_split (length ys - length xs) (cap - length xs)) by lia.
    assert (length (take (length xs) ys) = length xs) as Hlt' by (rewrite length_take; lia).
    rewrite <- Hlt' at 2 3.
    apply (invariant_vector_of (take (length xs) ys) cap); [lia | done].
  - rewrite sub_small by lia.
    by destruct (destroy_n _ _ _).
Qed.

(** X2. Copy assignment that throws: the target still satisfies the
    invariant, with the size and the capacity it had, and no object is
    lost (on the path that reuses the block some elements may already have
    been assigned). *)
Theorem copy_assign_basic_guarantee this other w this' w' :
  invariant this = true → invariant other = true →
  copy_assign this other w = (Throw this', w') →
  invariant this' = true ∧ Size this' = Size this ∧ Capacity this' = Capacity this
  ∧ leaked w' = leaked w.
Proof.
  intros Hinv Hoinv Hr.
  destruct (invariant_inv this Hinv) as (xs & cap & -> & Hle & Hcap & Hbytes).
  destruct (invariant_inv other Hoinv) as (ys & ocap & -> & Hole & Hocap & Hobytes).
  destruct (decide (cap < length ys)) as [Hgrow|Hfit].
  - destruct (copy_assign_grow xs cap ys ocap w)
      as [w1 [[Hr' _]|(Hr' & Hl & _)]]; [done..| |]; rewrite Hr' in Hr; [done|].
    injection Hr as <- <-. by split_and!.
  - by apply (copy_assign_in_place_throw xs cap ys ocap w); [..|exact Hr]; try lia.
Qed.

(** X3. [Vector(size_t n)], for [n] elements whose size in bytes
    [n * sizeof(T)] does not wrap around: either it returns a vector of
    size and capacity n holding n value-initialized elements, after exactly
    n constructions, or a constructor or the allocation throws, and then
    every element already built has been destroyed before the block is
    released. *)
Theorem Vector_sized_outcomes (n : nat) w :
  (N.of_nat n * sizeof_T < SizeT.modulus)%N →
  ∃ w', (∃ this, Vector_sized (N.of_nat n) w = (Ok this, w')
                 ∧ Size this = N.of_nat n ∧ Capacity this = N.of_nat n
                 ∧ elements this = Some <$> replicate n value_initialized
                 ∧ invariant this = true
                 ∧ after n w w')
        ∨ (Vector_sized (N.of_nat n) w = (Throw (), w')
           ∧ leaked w' = leaked w ∧ ¬ calm w).
Proof.
  intros Hn. unfold Vector_sized, GetAddress.
  destruct (RawMemory_new_spec (N.of_nat n) w Hn) as [w1 [[-> Hw1]|(-> & Hl & Hc)]].
  2:{ exists w1. by right. }
  cbn [buffer_ capacity_]. rewrite Nat2N.id.
  pose proof (uninitialized_value_construct_n_at (T := T) [] n [] w1 0 eq_refl) as Hr.
  cbn [app] in Hr. rewrite !app_nil_r in Hr.
  destruct Hr as [w2 [[-> Hw2]|(-> & Hl & Hc)]].
  - exists w2. left.
    assert ({| data_ := {| buffer_ := replicate n (Live value_initialized);
                           capacity_ := N.of_nat n |};
               size_ := N.of_nat n |}
            = vector_of (replicate n value_initialized) n) as ->.
    { unfold vector_of, filled. rewrite fmap_replicate, length_replicate, Nat.sub_diag.
      cbn [replicate]. by rewrite app_nil_r. }
    eexists. split; [done|].
    rewrite Size_vector_of, Capacity_vector_of, length_replicate.
    rewrite elements_vector_of by (by rewrite length_replicate).
    split_and!; try done.
    + apply invariant_vector_of; [by rewrite length_replicate | done].
    + by eapply (after_trans 0).
  - rewrite Deallocate_nothing_live by apply live_count_raw.
    exists w2. right. destruct Hw1 as (Hl1 & _ & Hc1).
    split; [done|]. split; [congruence|tauto].
Qed.

(** X4. The copy constructor: either the copy has the size and the elements
    of the source and a capacity equal to that size, after one construction
    per element, or something throws and every element already copied has
    been destroyed before the block is released. *)
Theorem Vector_copy_outcomes other w :
  invariant other = true →
  ∃ w', (∃ this, Vector_copy other w = (Ok this, w')
                 ∧ Size this = Size other ∧ Capacity this = Size other
                 ∧ elements this = elements other ∧ invariant this = true
                 ∧ after (N.to_nat (Size other)) w w')
        ∨ (Vector_copy other w = (Throw (), w') ∧ leaked w' = leaked w ∧ ¬ calm w).
Proof.
  intros Hinv. destruct (invariant_inv other Hinv) as (ys & ocap & -> & Hole & Hocap & Hobytes).
  destruct (Vector_copy_spec ys ocap w Hole Hobytes) as [w' [[Hr Hw]|Hthrow]];
    exists w'; [left|by right].
  eexists. split; [exact Hr|].
  rewrite !Size_vector_of, Capacity_vector_of, !elements_vector_of, Nat2N.id by done.
  rewrite invariant_vector_of by (lia || (eapply bytes_le; [|exact Hobytes]; lia)).
  by split_and!.
Qed.

(** X5. The move constructor: the new vector holds what the source held,
    with its capacity, and the source is left with size 0 and capacity 0;
    both satisfy the invariant. *)
Theorem Vector_move_empties_source other :
  invariant other = true →
  ∃ this other', Vector_move other = (this, other')
                 ∧ elements this = elements other ∧ Capacity this = Capacity other
                 ∧ invariant this = true
                 ∧ Size other' = 0%N ∧ Capacity other' = 0%N ∧ invariant other' = true.
Proof.
  intros Hinv. rewrite Vector_move_spec. eexists _, _. split; [done|].
  destruct other as [[b cap] size]. by split_and!.
Qed.

(** X6. Strong guarantee of [Reserve]: when the element type has a
    [noexcept] move constructor or is copy-constructible, a [Reserve] that
    throws leaves the vector exactly as it was and loses no object. *)
Theorem Reserve_strong_guarantee (k : N) this w this' w' :
  invariant this = true →
  is_nothrow_move_constructible || is_copy_constructible = true →
  Reserve k this w = (Throw this', w') →
  this' = this ∧ leaked w' = leaked w.
Proof.
  intros Hinv Htype Hr.
  destruct (invariant_inv this Hinv) as (xs & cap & -> & Hle & Hcap & Hbytes).
  destruct (N.leb_spec k (N.of_nat cap)) as [Hfit|Hlt].
  { rewrite Reserve_enough in Hr by (by rewrite Capacity_vector_of). done. }
  destruct (Reserve_throw xs cap k w this' w' Hle Hlt Hr) as (xs' & -> & _ & Hl & _ & Hsame).
  by rewrite (Hsame Htype).
Qed.

(** X8. What the move assignment between two distinct vectors does to the
    old elements of its target: they are not destroyed.  The target takes
    the elements of the source, the source takes the block of the target
    with size 0, and the destructor of the source then releases that block
    with as many objects still alive as the target held. *)
Theorem move_assign_strands_target_elements this other w :
  invariant this = true → invariant other = true →
  ∃ this' other', move_assign this other = (this', other')
                  ∧ this' = other
                  ∧ Size other' = 0%N ∧ Capacity other' = Capacity this
                  ∧ Vector_dtor this' w = Some w
                  ∧ Vector_dtor other' w = Some (count_leaks (N.to_nat (Size this)) w).
Proof.
  intros Hinv Hoinv. rewrite move_assign_spec. eexists _, _. split; [done|].
  assert ({| data_ := data_ other; size_ := size_ other |} = other) as ->
    by (by destruct other).
  destruct (invariant_inv other Hoinv) as (ys & ocap & -> & _ & _ & _).
  rewrite Vector_dtor_spec.
  destruct (invariant_inv this Hinv) as (xs & cap & -> & _ & _ & _).
  split_and!; try done.
  unfold Vector_dtor, Deallocate. cbn [vector_of data_ buffer_ size_].
  change (N.to_nat 0) with 0. cbn [destroy_n].
  unfold filled. rewrite live_count_app, live_count_live, live_count_raw, Size_vector_of.
  do 2 f_equal. lia.
Qed.

(** X9. [operator[]] designates an object exactly at the indices below
    [Size()]. *)
Theorem Vector_at_defined_below_Size this (index : N) :
  invariant this = true → is_Some (Vector_at this index) ↔ (index < Size this)%N.
Proof.
  intros Hinv. destruct (invariant_inv this Hinv) as (xs & cap & -> & Hle & _ & Hbytes).
  rewrite <- (N2Nat.id index), Vector_at_vector_of, Size_vector_of by done.
  rewrite lookup_lt_is_Some. lia.
Qed.

(** X10. [RawMemory(capacity)]: either it returns a block of raw slots that
    records [capacity], or the allocation throws, which it cannot do when
    the capacity is 0.  The block has exactly [capacity] slots when
    [capacity * sizeof(T)] is below 2^64; when that product wraps around,
    the block has fewer slots than the capacity it records. *)
Theorem RawMemory_new_outcomes (capacity : N) w :
  ∃ w', (∃ m, RawMemory_new capacity w = (Ok m, w')
              ∧ capacity_ m = capacity
              ∧ live_count (buffer_ m) = 0
              ∧ ((capacity * sizeof_T < SizeT.modulus)%N →
                 length (buffer_ m) = N.to_nat capacity
                 ∧ (buffer_ m = nullptr ↔ capacity = 0%N))
              ∧ ((SizeT.modulus <= capacity * sizeof_T)%N →
                 length (buffer_ m) < N.to_nat capacity)
              ∧ after 0 w w')
        ∨ (RawMemory_new capacity w = (Throw (), w')
           ∧ capacity ≠ 0%N ∧ leaked w' = leaked w ∧ ¬ calm w).
Proof.
  destruct (RawMemory_new_any capacity w) as [w1 [[Hr Hw]|(Hr & Hl & Hc & Hne)]];
    exists w1; [left|by right].
  eexists. split; [exact Hr|]. cbn [buffer_ capacity_].
  rewrite length_replicate, live_count_raw. split_and!; try done.
  - intros Hfit. rewrite slots_exact by done. split; [done|].
    unfold nullptr. split.
    + intros Hnull. apply (f_equal length) in Hnull.
      rewrite length_replicate in Hnull. cbn in Hnull. lia.
    + by intros ->.
  - intros Hwrap. pose proof (slots_short capacity Hwrap). lia.
Qed.

(** [EmplaceBack] once more, with what a throw costs: the vector keeps its
    elements, and at most one object (the new element) is lost. *)
Lemma EmplaceBack_outcomes noexcept x xs cap w :
  length xs ≤ cap → (N.of_nat cap < SizeT.modulus)%N →
  (length xs = cap → (N.of_nat (grown cap) * sizeof_T < SizeT.modulus)%N) →
  ∃ w', (EmplaceBack noexcept x (vector_of xs cap) w
           = (Ok (length xs,
                  vector_of (xs ++ [x]) (if decide (length xs = cap) then grown cap else cap)),
              w')
         ∧ after (if decide (length xs = cap) then S (length xs) else 1) w w')
        ∨ (∃ xs', length xs' = length xs
           ∧ EmplaceBack noexcept x (vector_of xs cap) w = (Throw (vector_of xs' cap), w')
           ∧ ¬ calm w
           ∧ (is_nothrow_move_constructible || is_copy_constructible = true → xs' = xs)
           ∧ (length xs = cap ∨ noexcept = false)
           ∧ (leaked w' = leaked w
              ∨ leaked w' = S (leaked w) ∧ length xs = cap
                ∧ is_nothrow_move_constructible = false)).
Proof.
  intros Hle Hcap Hgrow. unfold EmplaceBack, vector_of, filled, GetAddress, RawMemory_plus.
  cbn [Capacity data_ capacity_ buffer_ size_].
  destruct (decide (length xs = cap)) as [<-|Hroom].
  - specialize (Hgrow eq_refl). pose proof (grown_gt (length xs)) as Hgt.
    pose proof (bytes_count _ Hgrow) as Hgrowc.
    set (cap' := grown (length xs)) in *.
    destruct (N.eqb_spec (N.of_nat (length xs)) (N.of_nat (length xs))) as [_|]; [|lia].
    rewrite grown_capacity by done. fold cap'.
    destruct (RawMemory_new_spec (N.of_nat cap') w Hgrow) as [w1 [[-> Hw1]|(-> & Hl & Hc)]].
    2:{ exists w1. right. exists xs. split_and!; try done; by left. }
    cbn [buffer_ capacity_]. rewrite !Nat2N.id.
    destruct (N.leb_spec (N.of_nat (length xs)) (N.of_nat cap')) as [_|]; [|lia].
    rewrite (replicate_hole (length xs) cap') by lia.
    destruct (construct_at_raw_at noexcept (replicate (length xs) Raw)
                (replicate (cap' - S (length xs)) Raw) x w1 (length xs))
      as [w2 [[-> Hw2]|(-> & Hl & Hc & Hnoex)]]; [by rewrite length_replicate| |].
    2:{ rewrite Deallocate_nothing_live
          by (by rewrite live_count_app, live_count_cons_raw, !live_count_raw).
        exists w2. right. exists xs. destruct Hw1 as (Hl1 & _ & Hc1).
        split_and!; try done; [tauto | by left | left; congruence]. }
    destruct (ReplaceOrCopyData_at [] xs (replicate (length xs - length xs) Raw) []
                (Live x :: replicate (cap' - S (length xs)) Raw) w2
                0 (length xs) 0 eq_refl eq_refl eq_refl)
      as [w3 [[Hr Hw3]|(xs' & Hlen & Hr & Hl & Hc & Hne & Hcopy)]];
      cbn [app] in Hr; rewrite Hr.
    + unfold RawMemory_Swap, RawMemory_dtor. cbn [buffer_ capacity_].
      rewrite Deallocate_nothing_live by (by rewrite live_count_app, !live_count_raw).
      exists w3. left. split.
      * rewrite add_small by lia.
        rewrite fmap_app, length_app, <- app_assoc. cbn [length fmap list_fmap app].
        same_state.
      * apply (after_trans 0 _ w w1 w3); [done|].
        apply (after_trans 1 _ w1 w2 w3); done.
    + exists (Deallocate (replicate (length xs) Raw ++
                          Live x :: replicate (cap' - S (length xs)) Raw) w3).
      right. exists xs'. split; [done|]. split.
      * unfold with_buffer. cbn [data_ capacity_ size_]. by rewrite Hlen.
      * destruct Hw1 as (Hl1 & _ & Hc1), Hw2 as (Hl2 & _ & Hc2).
        split_and!; [tauto | by rewrite Hne | by left |].
        right. split_and!; try done.
        unfold Deallocate. cbn [count_leaks leaked].
        rewrite live_count_app, live_count_cons_live, !live_count_raw. lia.
  - destruct (N.eqb_spec (N.of_nat (length xs)) (N.of_nat cap)) as [|_]; [lia|].
    destruct (N.leb_spec (N.of_nat (length xs)) (N.of_nat cap)) as [_|]; [|lia].
    rewrite !Nat2N.id.
    replace (cap - length xs) with (S (cap - S (length xs))) by lia.
    cbn [replicate].
    destruct (construct_at_raw_at noexcept (Live <$> xs)
                (replicate (cap - S (length xs)) Raw) x w (length xs))
      as [w1 [[-> Hw1]|(-> & Hl & Hc & Hnoex)]]; [by rewrite length_fmap| |].
    + exists w1. left. split; [|done].
      unfold with_buffer. cbn [data_ capacity_ size_ buffer_].
      rewrite add_small by lia.
      rewrite fmap_app, length_app, <- app_assoc. cbn [length fmap list_fmap app].
      same_state.
    + exists w1. right. exists xs.
      replace (cap - length xs) with (S (cap - S (length xs))) by lia.
      split_and!; try done; [by right | by left].
Qed.

(** X11. [EmplaceBack] that throws, for an element type with a [noexcept]
    move constructor or a copy constructor: the vector is exactly as it
    was.  At most one object is lost, and only when the vector was full:
    the new element, already built in the new block when the transfer of
    the old elements throws, is released without being destroyed. *)
Theorem EmplaceBack_strong_guarantee noexcept (x : T) this w this' w' :
  invariant this = true →
  (Size this = Capacity this → (2 * Capacity this < SizeT.modulus)%N) →
  is_nothrow_move_constructible || is_copy_constructible = true →
  EmplaceBack noexcept x this w = (Throw this', w') →
  this' = this
  ∧ (leaked w' = leaked w
     ∨ leaked w' = S (leaked w) ∧ Size this = Capacity this
       ∧ is_nothrow_move_constructible = false).
Proof.
  intros Hinv Hgrow Htype Hr.
  destruct (invariant_inv this Hinv) as (xs & cap & -> & Hle & Hcap & Hbytes).
  rewrite Size_vector_of, Capacity_vector_of in *.
  destruct (decide (length xs = cap)) as [<-|Hroom].
  - (* full: the new block may be shorter than its capacity *)
    assert (N.of_nat (grown (length xs)) < SizeT.modulus)%N as Hgrowc.
    { rewrite grown_as_N by (by apply Hgrow). specialize (Hgrow eq_refl).
      pose proof modulus_gt_1. by decide_N. }
    destruct (EmplaceBack_full noexcept x xs w Hgrowc)
      as [w1 [[Hr' _]|[(xs' & _ & Hr' & Hsame & Hleak)|Hr']]];
      rewrite Hr' in Hr; [done| |done].
    injection Hr as <- <-. rewrite (Hsame Htype). split; [done|].
    destruct Hleak as [Hl|(Hl & Hne)]; [by left|right]. by split_and!.
  - destruct (EmplaceBack_outcomes noexcept x xs cap w Hle Hcap)
      as [w1 [[Hr' _]|(xs' & _ & Hr' & _ & Hsame & _ & Hleak)]];
      [done| |]; rewrite Hr' in Hr; [done|].
    injection Hr as <- <-. rewrite (Hsame Htype). split; [done|].
    destruct Hleak as [Hl|(Hl & Hfull & Hne)]; [by left|done].
Qed.

(** X12. With room left, an [EmplaceBack] whose constructor is [noexcept]
    cannot throw, whatever else may fail: it appends the element in place
    and keeps the capacity. *)
Theorem EmplaceBack_noexcept_with_room (x : T) this w :
  invariant this = true → (Size this < Capacity this)%N →
  ∃ this' w', EmplaceBack true x this w = (Ok (N.to_nat (Size this), this'), w')
              ∧ elements this' = elements this ++ [Some x]
              ∧ Capacity this' = Capacity this
              ∧ leaked w' = leaked w.
Proof.
  intros Hinv Hroom.
  destruct (invariant_inv this Hinv) as (xs & cap & -> & Hle & Hcap & Hbytes).
  rewrite Size_vector_of, Capacity_vector_of in *.
  destruct (EmplaceBack_outcomes true x xs cap w Hle Hcap)
    as [w1 [[Hr (Hl & _)]|(xs' & _ & _ & _ & _ & [Hfull|Hnoex] & _)]]; [lia | | lia | done].
  destruct (decide (length xs = cap)) as [|_]; [lia|].
  eexists _, w1. rewrite Nat2N.id. split; [exact Hr|].
  rewrite Capacity_vector_of, !elements_vector_of, fmap_app by (rewrite ?length_app; cbn; lia).
  done.
Qed.

(** X13. [Emplace] before [end()] in a full vector, for an element type
    with a [noexcept] move constructor or a copy constructor: whenever it
    does throw, the vector is exactly as it was and no object is lost. *)
Theorem Emplace_full_throw_is_strong noexcept (p : nat) (x : T) this w this' w' :
  invariant this = true → Size this = Capacity this →
  (2 * Capacity this < SizeT.modulus)%N → (N.of_nat p < Size this)%N →
  is_nothrow_move_constructible || is_copy_constructible = true →
  Emplace noexcept (begin_ this + p) x this w = (Throw this', w') →
  this' = this ∧ leaked w' = leaked w.
Proof.
  intros Hinv Hfull Hbound Hp Htype. unfold begin_, GetAddress. cbn [Nat.add].
  destruct (invariant_inv this Hinv) as (xs & cap & -> & Hle & Hcap & Hbytes).
  rewrite Size_vector_of, Capacity_vector_of in *.
  assert (cap = length xs) as -> by lia.
  assert (length (take p xs) = p) as Hlp by (rewrite length_take; lia).
  pose proof (Emplace_growth_throw noexcept x (take p xs) (drop p xs) w this' w') as Hout.
  rewrite take_drop, Hlp in Hout. cbv zeta in Hout. intros Hr.
  destruct Hout as (xs' & -> & _ & Hl & Hsame); [| |exact Hr|by rewrite (Hsame Htype)].
  - intros Hnil. apply (f_equal length) in Hnil. rewrite length_drop in Hnil. cbn in Hnil. lia.
  - rewrite grown_as_N by done. pose proof modulus_gt_1. by decide_N.
Qed.

(** X14. [Erase(end())] on a vector that is not empty removes the last
    element, as [PopBack] does, and returns the new [end()]. *)
Theorem Erase_at_end_pops this w :
  invariant this = true → (0 < Size this)%N →
  ∃ this', PopBack this = Some this'
           ∧ Erase (begin_ this + N.to_nat (Size this)) this w
             = (Ok (begin_ this' + N.to_nat (Size this'), this'), w)
           ∧ Size this' = (Size this - 1)%N
           ∧ elements this' = take (N.to_nat (Size this) - 1) (elements this)
           ∧ invariant this' = true.
Proof.
  intros Hinv Hpos. unfold begin_, GetAddress. cbn [Nat.add].
  destruct (invariant_inv this Hinv) as (xs & cap & -> & Hle & Hcap & Hbytes).
  rewrite Size_vector_of in *.
  destruct xs as [|x xs _] using rev_ind; [cbn in Hpos; lia|].
  assert (length xs ≤ cap) by (rewrite length_app in Hle; lia).
  exists (vector_of xs cap). rewrite PopBack_spec, Nat2N.id, Erase_end by done.
  rewrite !Size_vector_of, !elements_vector_of, Nat2N.id, invariant_vector_of by done.
  rewrite length_app. cbn [length]. split_and!; [done | done | lia | | done].
  rewrite fmap_app. replace (length xs + 1 - 1) with (length (Some <$> xs))
    by (rewrite length_fmap; lia).
  by rewrite take_app_length.
Qed.

(** X15. A push followed by [PopBack] gives back the elements and the size
    the vector had (the capacity may have grown), when nothing throws and
    the doubled block, if one is needed, has a size in bytes below 2^64. *)
Theorem push_then_PopBack (c : push_call) this w :
  invariant this = true → calm w →
  (Size this = Capacity this → (2 * Capacity this * sizeof_T < SizeT.modulus)%N) →
  ∃ this1 w1 this2, push c this w = (Ok this1, w1)
                    ∧ PopBack this1 = Some this2
                    ∧ elements this2 = elements this ∧ Size this2 = Size this
                    ∧ Capacity this2 = Capacity this1 ∧ invariant this2 = true.
Proof.
  intros Hinv Hcalm Hgrow.
  destruct (invariant_inv this Hinv) as (xs & cap & -> & Hle & Hcap & Hbytes).
  rewrite Size_vector_of, Capacity_vector_of in Hgrow.
  assert (length xs = cap → (N.of_nat (grown cap) * sizeof_T < SizeT.modulus)%N) as Hgrown
    by (intros Hfull; apply grown_bound, Hgrow; lia).
  destruct (push_calm c xs cap w) as (w1 & Hr & _); [done..|].
  set (cap1 := if decide (length xs = cap) then grown cap else cap) in *.
  assert (length (xs ++ [pushed c]) ≤ cap1 ∧ (N.of_nat cap1 * sizeof_T < SizeT.modulus)%N)
    as [Hle1 Hbytes1].
  { rewrite length_app. cbn [length]. unfold cap1.
    destruct (decide (length xs = cap)) as [Hfull|]; [|split; [lia|done]].
    pose proof (grown_gt cap). split; [lia | auto]. }
  pose proof (bytes_count _ Hbytes1) as Hcap1.
  eexists _, w1, _. split; [exact Hr|]. rewrite PopBack_spec by done.
  assert (length xs ≤ cap1) by (rewrite length_app in Hle1; lia).
  rewrite !elements_vector_of, !Size_vector_of, !Capacity_vector_of, invariant_vector_of
    by done.
  done.
Qed.

(** X16. On an empty vector [PopBack] is undefined ([--size_] wraps to
    [SIZE_MAX], which no capacity exceeds), and so is [Erase] at any
    position. *)
Theorem PopBack_and_Erase_need_an_element this w :
  invariant this = true → Size this = 0%N →
  PopBack this = None ∧ ∀ pos, Erase pos this w = (Undef, w).
Proof.
  intros Hinv Hempty.
  destruct (invariant_inv this Hinv) as (xs & cap & -> & Hle & Hcap & Hbytes).
  rewrite Size_vector_of in Hempty. destruct xs; [|cbn in Hempty; lia].
  assert (PopBack (vector_of (T := T) [] cap) = None) as Hpop.
  { unfold PopBack, RawMemory_at. cbn [vector_of data_ capacity_ size_ length].
    change (SizeT.sub (N.of_nat 0) 1) with (SizeT.modulus - 1)%N.
    destruct (N.ltb_spec (SizeT.modulus - 1) (N.of_nat cap)); [lia | done]. }
  split; [done|]. intros pos. unfold Erase, end_, RawMemory_plus, begin_, GetAddress.
  rewrite Hpop. cbn [vector_of data_ capacity_ size_ length].
  destruct (N.leb_spec (N.of_nat 0) (N.of_nat cap)) as [_|]; [|lia].
  change (N.to_nat (N.of_nat 0)) with 0.
  destruct (Nat.eqb_spec pos 0) as [|Hne]; [done|].
  destruct (_ <=? _)%N; [|done].
  by destruct (Nat.leb_spec (N.to_nat (N.of_nat (pos - 0)) + 1) 0) as [|_]; [lia|].
Qed.

(** [Resize] to a larger size once more, with what a throw leaves. *)
Lemma Resize_grow_outcomes xs cap (k : nat) w :
  length xs ≤ cap → (N.of_nat cap * sizeof_T < SizeT.modulus)%N →
  (N.of_nat k * sizeof_T < SizeT.modulus)%N →
  length xs < k →
  ∃ w', (Resize (N.of_nat k) (vector_of xs cap) w
           = (Ok (vector_of (xs ++ replicate (k - length xs) value_initialized)
                    (if decide (cap < k) then k else cap)), w')
         ∧ after ((if decide (cap < k) then length xs else 0) + (k - length xs)) w w')
        ∨ (∃ xs' cap', length xs' = length xs
           ∧ length xs' ≤ cap' ∧ cap ≤ cap'
           ∧ (N.of_nat cap' * sizeof_T < SizeT.modulus)%N
           ∧ Resize (N.of_nat k) (vector_of xs cap) w = (Throw (vector_of xs' cap'), w')
           ∧ leaked w' = leaked w ∧ ¬ calm w
           ∧ (is_nothrow_move_constructible || is_copy_constructible = true → xs' = xs)).
Proof.
  intros Hle Hbytes Hkb Hk.
  pose proof (bytes_count _ Hbytes) as Hcap. pose proof (bytes_count _ Hkb) as Hkm.
  unfold Resize.
  cbn [vector_of data_ capacity_ buffer_ size_].
  destruct (N.eqb_spec (N.of_nat k) (N.of_nat (length xs))) as [|_]; [lia|].
  destruct (N.ltb_spec (N.of_nat k) (N.of_nat (length xs))) as [|_]; [lia|].
  fold (vector_of xs cap).
  assert (∃ w1, (Reserve (N.of_nat k) (vector_of xs cap) w
                   = (Ok (vector_of xs (if decide (cap < k) then k else cap)), w1)
                 ∧ after (if decide (cap < k) then length xs else 0) w w1)
                ∨ (∃ xs', length xs' = length xs
                   ∧ Reserve (N.of_nat k) (vector_of xs cap) w = (Throw (vector_of xs' cap), w1)
                   ∧ leaked w1 = leaked w ∧ ¬ calm w
                   ∧ (is_nothrow_move_constructible || is_copy_constructible = true
                      → xs' = xs))) as [w1 [[-> Hw1]|(xs' & Hlen & -> & Hrest)]].
  { destruct (decide (cap < k)) as [Hlt|Hge].
    - destruct (Reserve_grow xs cap (N.of_nat k) w) as [w1 Hr]; [done|lia|done|].
      rewrite Nat2N.id in Hr. by exists w1.
    - exists w. left. split; [|apply after_refl].
      apply Reserve_enough. rewrite Capacity_vector_of. lia. }
  2:{ exists w1. right. exists xs', cap. destruct Hrest as (? & ? & ?).
      split_and!; try done; lia. }
  set (cap' := if decide (cap < k) then k else cap).
  assert (k ≤ cap') as Hcap' by (unfold cap'; destruct (decide (cap < k)); lia).
  unfold vector_of, filled, GetAddress, with_buffer.
  cbn [data_ capacity_ buffer_ size_]. rewrite sub_small by lia.
  replace (N.to_nat (N.of_nat k - N.of_nat (length xs))) with (k - length xs) by lia.
  rewrite (replicate_split (k - length xs) (cap' - length xs)) by lia.
  rewrite Nat2N.id.
  destruct (uninitialized_value_construct_n_at (Live <$> xs) (k - length xs)
              (replicate (cap' - length xs - (k - length xs)) Raw) w1 (0 + length xs))
    as [w2 [[-> Hw2]|(-> & Hl & Hc)]]; [by rewrite length_fmap| |].
  - exists w2. left. split; [|by eapply after_trans].
    rewrite fmap_app, fmap_replicate, length_app, length_replicate, <- app_assoc.
    same_state.
  - exists w2. right. exists xs, cap'. destruct Hw1 as (Hl1 & _ & Hc1).
    split; [done|]. split; [lia|]. split; [unfold cap'; destruct (decide (cap < k)); lia|].
    split; [unfold cap'; destruct (decide (cap < k)); lia|].
    split; [|split; [congruence|split; [tauto|done]]].
    unfold vector_of, filled.
    rewrite (replicate_split (k - length xs) (cap' - length xs)) by lia.
    done.
Qed.

(** X17. [Resize] to a larger size k with [k * sizeof(T) < 2^64] that
    throws, for an element type with a [noexcept] move constructor or a
    copy constructor: the vector keeps
    its size and its elements and satisfies the invariant, and no object
    is lost; only its capacity may have grown, when the reservation had
    already succeeded. *)
Theorem Resize_throw_keeps_elements (k : N) this w this' w' :
  invariant this = true → (Size this < k)%N → (k * sizeof_T < SizeT.modulus)%N →
  is_nothrow_move_constructible || is_copy_constructible = true →
  Resize k this w = (Throw this', w') →
  elements this' = elements this ∧ Size this' = Size this
  ∧ (Capacity this <= Capacity this')%N ∧ invariant this' = true
  ∧ leaked w' = leaked w.
Proof.
  intros Hinv Hk Hkb Htype Hr.
  destruct (invariant_inv this Hinv) as (xs & cap & -> & Hle & Hcap & Hbytes).
  rewrite Size_vector_of in Hk.
  destruct (Resize_grow_outcomes xs cap (N.to_nat k) w)
    as [w1 [[Hr' _]|(xs' & cap' & Hlen & Hle' & Hcc & Hcap' & Hr' & Hl & _ & Hsame)]];
    [done | done | by rewrite N2Nat.id | lia | |];
    rewrite N2Nat.id in Hr'; rewrite Hr' in Hr; [done|].
  injection Hr as <- <-. rewrite (Hsame Htype) in *.
  rewrite !elements_vector_of, !Size_vector_of, !Capacity_vector_of, invariant_vector_of
    by done.
  split_and!; try done. lia.
Qed.

(** ** The cost of growing *)

Lemma push_cost (c : push_call) xs cap w :
  calm w → length xs ≤ cap → (N.of_nat cap < SizeT.modulus)%N →
  (length xs = cap → (N.of_nat (grown cap) * sizeof_T < SizeT.modulus)%N) →
  ∃ w', push c (vector_of xs cap) w
          = (Ok (vector_of (xs ++ [pushed c])
                   (if decide (length xs = cap) then grown cap else cap)), w')
        ∧ after (if decide (length xs = cap) then S (length xs) else 1) w w'.
Proof.
  intros Hcalm Hle Hcap Hgrow.
  assert (∀ noexcept x,
            ∃ w', EmplaceBack noexcept x (vector_of xs cap) w
                    = (Ok (length xs,
                           vector_of (xs ++ [x])
                             (if decide (length xs = cap) then grown cap else cap)), w')
                  ∧ after (if decide (length xs = cap) then S (length xs) else 1) w w')
    as Hpush.
  { intros noexcept x.
    destruct (EmplaceBack_spec noexcept x xs cap w Hle Hcap Hgrow)
      as [w1 [[Hr Hw]|(xs' & _ & _ & Hc & _)]]; [|done].
    by exists w1. }
  destruct c as [value|value|noexcept x]; cbn [push pushed]; unfold PushBack, PushBack_move.
  - destruct (Hpush false value) as (w1 & -> & Hw1). by exists w1.
  - destruct (Hpush is_nothrow_move_constructible value) as (w1 & -> & Hw1). by exists w1.
  - destruct (Hpush noexcept x) as (w1 & -> & Hw1). by exists w1.
Qed.

Lemma grown_ge_double (n : nat) : 2 * n ≤ grown n.
Proof. unfold grown. destruct n; cbn [Nat.eqb]; lia. Qed.

(** The accounting behind the doubling: over a run of pushes the element
    operations exceed the number of pushes by at most the capacity gained. *)
Lemma push_all_cost (cs : list push_call) xs cap w :
  calm w → length xs ≤ cap → (N.of_nat cap * sizeof_T < SizeT.modulus)%N →
  (2 * N.of_nat (length xs + length cs) * sizeof_T < SizeT.modulus)%N →
  ∃ cap' w', push_all cs (vector_of xs cap) w
               = (Ok (vector_of (xs ++ (pushed <$> cs)) cap'), w')
             ∧ elem_ops w' + cap ≤ elem_ops w + cap' + length cs
             ∧ cap' ≤ Nat.max cap (2 * (length xs + length cs))
             ∧ leaked w' = leaked w.
Proof.
  revert xs cap w. induction cs as [|c cs IH]; intros xs cap w Hcalm Hle Hcap Hbound.
  { exists cap, w. rewrite app_nil_r. cbn [length push_all]. split_and!; [done|lia|lia|done]. }
  cbn [push_all length fmap list_fmap] in *.
  assert (N.of_nat (grown (length xs)) * sizeof_T < SizeT.modulus)%N as Hgrown.
  { pose proof (grown_le (length xs)). eapply bytes_le; [|exact Hbound]. lia. }
  destruct (push_cost c xs cap w) as (w1 & -> & Hl1 & Ho1 & Hc1);
    [done | done | by eapply bytes_count | by intros <- |].
  set (cap1 := if decide (length xs = cap) then grown cap else cap) in *.
  pose proof (grown_gt (length xs)) as Hgt. pose proof (grown_le (length xs)) as Hgle.
  pose proof (grown_ge_double (length xs)) as Hgd.
  destruct (IH (xs ++ [pushed c]) cap1 w1) as (cap' & w' & -> & Hcost & Hcap' & Hl');
    [auto | | | |].
  - rewrite length_app. cbn [length]. unfold cap1.
    destruct (decide (length xs = cap)) as [<-|]; lia.
  - unfold cap1. by destruct (decide (length xs = cap)) as [<-|].
  - rewrite length_app. cbn [length]. eapply bytes_le; [|exact Hbound]. lia.
  - exists cap', w'. rewrite <- app_assoc. cbn [app].
    rewrite length_app in Hcap'. cbn [length] in Hcap'.
    split; [done|]. unfold cap1 in *.
    destruct (decide (length xs = cap)) as [<-|]; split_and!; try lia; congruence.
Qed.

(** X18. Amortized growth: N pushes on an empty vector, when nothing
    throws and a block of 2 N elements has a size in bytes below 2^64,
    perform at most 3 N element constructions in all (the N new elements
    and fewer than 2 N transfers), end with a capacity of at most 2 N, and
    lose no object. *)
Theorem pushes_cost_linear (cs : list push_call) w :
  calm w → (2 * N.of_nat (length cs) * sizeof_T < SizeT.modulus)%N →
  ∃ this w', push_all cs Vector_default w = (Ok this, w')
             ∧ elem_ops w' ≤ elem_ops w + 3 * length cs
             ∧ (Capacity this <= 2 * N.of_nat (length cs))%N
             ∧ leaked w' = leaked w.
Proof.
  intros Hcalm Hbound.
  destruct (push_all_cost cs [] 0 w) as (cap' & w' & Hr & Hcost & Hcap' & Hl);
    [done | done | done | done |].
  cbn [app length Nat.add] in *. eexists _, w'. split; [exact Hr|].
  rewrite Capacity_vector_of. split_and!; [lia | lia | done].
Qed.

(** X19. The cost of [Reserve(k)] beyond the capacity, when nothing throws
    and [k * sizeof(T) < 2^64]: exactly one element construction per
    element of the vector, and no object lost. *)
Theorem Reserve_cost (k : N) this w :
  invariant this = true → calm w → (Capacity this < k)%N →
  (k * sizeof_T < SizeT.modulus)%N →
  ∃ this' w', Reserve k this w = (Ok this', w')
              ∧ elem_ops w' = N.to_nat (Size this) + elem_ops w
              ∧ leaked w' = leaked w ∧ calm w'.
Proof.
  intros Hinv Hcalm Hk Hkb.
  destruct (invariant_inv this Hinv) as (xs & cap & -> & Hle & Hcap & Hbytes).
  rewrite Capacity_vector_of in Hk. rewrite Size_vector_of, Nat2N.id.
  destruct (Reserve_grow xs cap k w Hle Hk Hkb)
    as [w' [[Hr (Hl & Ho & Hc)]|(xs' & _ & _ & _ & Hc & _)]]; [|done].
  eexists _, w'. split; [exact Hr|]. auto.
Qed.

(** X20. [Reserve(k)] when [k * sizeof(T)] wraps around to a number of
    bytes that cannot hold the elements of the vector: the call never
    returns normally.  Either the allocation or a constructor throws, or
    an element is constructed past the end of the new block, which is
    undefined behaviour. *)
Theorem Reserve_overflow_never_returns (k : N) this w :
  invariant this = true → (Capacity this < k)%N →
  (SizeT.mul k sizeof_T / sizeof_T < Size this)%N →
  (∃ w', Reserve k this w = (Undef, w'))
  ∨ (∃ this' w', Reserve k this w = (Throw this', w') ∧ ¬ calm w).
Proof.
  intros Hinv Hk Hshort.
  destruct (invariant_inv this Hinv) as (xs & cap & -> & Hle & Hcap & Hbytes).
  rewrite Capacity_vector_of in Hk. rewrite Size_vector_of in Hshort.
  unfold Reserve, vector_of, filled, GetAddress.
  cbn [Capacity data_ capacity_ buffer_ size_].
  decide_N.
  destruct (RawMemory_new_any k w) as [w1 [[-> Hw1]|(-> & Hl & Hc & _)]].
  2:{ right. by eexists _, w1. }
  destruct Hw1 as (Hl1 & _ & Hc1).
  cbn [buffer_ capacity_]. rewrite Nat2N.id.
  pose proof (ReplaceOrCopyData_short [] xs (replicate (cap - length xs) Raw) []
                (N.to_nat (SizeT.mul k sizeof_T / sizeof_T)) w1) as Hr.
  cbn [app length] in Hr.
  destruct Hr as [w2 [->|(xs' & Hlen & -> & Hl & Hc & Hne & Hcopy)]]; [lia| |].
  - left. by exists w2.
  - right. eexists _, _. split; [done|tauto].
Qed.

End Guarantees.

(** * Runs on concrete vectors *)

(** C1 (not met by the code). A full vector of two probes, [Emplace] at
    index 1, the copy of the suffix throws: the exception does not reach the
    caller.  [Emplace] returns normally; the vector has size 3 and capacity
    4 instead of 2 and 2, none of its slots holds an object, and one object
    was lost with the old block. *)
Theorem Emplace_swallows_suffix_failure :
  Emplace (Elem := probe_element) false 1 99%Z (vector_of [1%Z; 2%Z] 2) suffix_fault
  = (Ok (1, {| data_ := {| buffer_ := [Raw; Raw; Raw; Raw]; capacity_ := 4 |};
               size_ := 3 |}),
     {| faults := []; elem_ops := 2; leaked := 1 |}).
Proof. reflexivity. Qed.

(** C2 (not met by the code). After [a = std::move(b)] with [a = [7]] and
    [b = [1, 2]], [a] holds [[1, 2]] and [b] has size 0, but [b] has
    capacity 1, not 0: it owns the old block of [a], in which the object 7
    is still alive; the destructor of [b] then releases the block without
    destroying that object. *)
Theorem move_assignment_keeps_the_old_block :
  ∃ st' b',
    operator_assign_move 0 1 two_vectors = Some st'
    ∧ st' !! 0 = Some (vector_of [1%Z; 2%Z] 2)
    ∧ st' !! 1 = Some b'
    ∧ b' = {| data_ := {| buffer_ := [Live 7%Z]; capacity_ := 1 |}; size_ := 0 |}
    ∧ Vector_dtor b' quiet = Some {| faults := []; elem_ops := 0; leaked := 1 |}.
Proof. eexists _, _. by split_and!. Qed.

(** C9 (not met by the code). Two operations take vectors that satisfy the
    invariant to vectors that do not: the move assignment leaves an object
    in a slot beyond the size of its source, and [Emplace], when the copy
    of the suffix throws, returns a vector whose slots below its size hold
    no objects. *)
Theorem invariant_not_preserved :
  (∃ a b a' b',
     two_vectors !! 0 = Some a ∧ two_vectors !! 1 = Some b
     ∧ invariant (Elem := int_element) a = true
     ∧ invariant (Elem := int_element) b = true
     ∧ move_assign a b = (a', b')
     ∧ invariant (Elem := int_element) a' = true
     ∧ invariant (Elem := int_element) b' = false)
  ∧ (∃ p this' w',
       invariant (Elem := probe_element) (vector_of [1%Z; 2%Z] 2) = true
       ∧ Emplace (Elem := probe_element) false 1 99%Z (vector_of [1%Z; 2%Z] 2) suffix_fault
         = (Ok (p, this'), w')
       ∧ invariant (Elem := probe_element) this' = false
       ∧ elements this' = [None; None; None]).
Proof.
  split.
  - eexists _, _, _, _. by split_and!.
  - eexists _, _, _. by split_and!.
Qed.



(** ** The claims at concrete inputs *)

Lemma pushes_fill_the_vector_witness :
  (∃ this w', push_all (Elem := int_element) three_pushes Vector_default quiet = (Ok this, w')
              ∧ Size this = N.of_nat (length three_pushes)
              ∧ ∀ i, Vector_at this (N.of_nat i) = pushed <$> three_pushes !! i)
  ∧ (∀ noexcept x this w0 t this' w',
       invariant (Elem := int_element) this = true →
       (Size this = Capacity this → (2 * Capacity this < SizeT.modulus)%N) →
       EmplaceBack (Elem := int_element) noexcept x this w0 = (Ok (t, this'), w') →
       N.of_nat t = Size this ∧ Vector_at this' (N.of_nat t) = Some x).
Proof.
  apply (pushes_fill_the_vector (Elem := int_element) three_pushes quiet); reflexivity.
Defined.

Lemma push_capacity_witness :
  ∃ this' w', push (Elem := int_element) (CallPushBack 3%Z) (vector_of [1%Z; 2%Z] 2) quiet
              = (Ok this', w')
              ∧ Capacity this' = 4%N.
Proof.
  apply (push_capacity (Elem := int_element) (CallPushBack 3%Z) (vector_of [1%Z; 2%Z] 2) quiet);
    reflexivity.
Defined.


Lemma Insert_Erase_round_trip_witness :
  (∃ this1 w1, Insert (Elem := int_element) 1 99%Z (vector_of [1%Z; 2%Z; 3%Z] 4) quiet
               = (Ok (1, this1), w1)
               ∧ elements this1 = Some <$> [1%Z; 99%Z; 2%Z; 3%Z]
               ∧ ∃ this2 w2, Erase (Elem := int_element) 1 this1 w1 = (Ok (1, this2), w2)
                             ∧ elements this2 = Some <$> [1%Z; 2%Z; 3%Z])
  ∧ (1 < 3 →
     ∃ this3 w3, Erase (Elem := int_element) 1 (vector_of [1%Z; 2%Z; 3%Z] 4) quiet
                 = (Ok (1, this3), w3)
                 ∧ elements this3 = Some <$> [1%Z; 3%Z]).
Proof.
  apply (Insert_Erase_round_trip (Elem := int_element) false (vector_of [1%Z; 2%Z; 3%Z] 4)
           [1%Z; 2%Z; 3%Z] 1 99%Z quiet);
    first [reflexivity | simpl; lia | intros Hfull; vm_compute in Hfull; discriminate].
Defined.

Lemma copy_assignment_witness :
  (calm quiet →
   ∃ va' w', operator_assign (Elem := int_element) 0 1 two_vectors quiet
             = (Ok (<[0 := va']> two_vectors), w')
             ∧ (<[0 := va']> two_vectors) !! 1 = Some (vector_of [1%Z; 2%Z] 2)
             ∧ elements va' = elements (vector_of [1%Z; 2%Z] 2) ∧ Size va' = 2%N
             ∧ Capacity va' = 2%N
             ∧ invariant (Elem := int_element) va' = true
             ∧ elem_ops w' = 2 ∧ leaked w' = 0)
  ∧ ((1 < 2)%N →
     ∀ st' w', operator_assign (Elem := int_element) 0 1 two_vectors quiet = (Throw st', w')
               → st' = two_vectors ∧ leaked w' = 0).
Proof.
  apply (copy_assignment (Elem := int_element) two_vectors 0 1
           (vector_of [7%Z] 1) (vector_of [1%Z; 2%Z] 2) quiet);
    first [reflexivity | lia].
Defined.


Lemma self_assignment_witness :
  operator_assign (Elem := int_element) 0 0 two_vectors quiet = (Ok two_vectors, quiet)
  ∧ operator_assign_move 0 0 two_vectors = Some two_vectors.
Proof.
  apply (self_assignment (Elem := int_element) two_vectors 0 (vector_of [7%Z] 1) quiet).
  reflexivity.
Defined.

(** ** The further properties at concrete inputs *)

Lemma Erase_basic_guarantee_witness :
  ∃ this' w',
    Erase (Elem := int_element) 0 (vector_of [1%Z; 2%Z; 3%Z] 3)
      {| faults := [false; true]; elem_ops := 0; leaked := 0 |} = (Throw this', w')
    ∧ invariant (Elem := int_element) this' = true ∧ Size this' = 3%N ∧ Capacity this' = 3%N ∧ leaked w' = 0.
Proof.
  eexists _, _. split; [reflexivity|].
  apply (Erase_basic_guarantee (Elem := int_element) 0 (vector_of [1%Z; 2%Z; 3%Z] 3)
           {| faults := [false; true]; elem_ops := 0; leaked := 0 |}); reflexivity.
Defined.

Lemma copy_assign_basic_guarantee_witness :
  ∃ this' w',
    copy_assign (Elem := int_element) (vector_of [1%Z; 2%Z; 3%Z] 3) (vector_of [7%Z; 8%Z] 2)
      {| faults := [false; true]; elem_ops := 0; leaked := 0 |} = (Throw this', w')
    ∧ invariant (Elem := int_element) this' = true ∧ Size this' = 3%N ∧ Capacity this' = 3%N ∧ leaked w' = 0.
Proof.
  eexists _, _. split; [reflexivity|].
  apply (copy_assign_basic_guarantee (Elem := int_element) (vector_of [1%Z; 2%Z; 3%Z] 3) (vector_of [7%Z; 8%Z] 2)
           {| faults := [false; true]; elem_ops := 0; leaked := 0 |}); reflexivity.
Defined.

Lemma Vector_sized_outcomes_witness :
  ∃ w', (∃ this, Vector_sized (Elem := int_element) 3 quiet = (Ok this, w')
                 ∧ Size this = 3%N ∧ Capacity this = 3%N
                 ∧ elements this = Some <$> [0%Z; 0%Z; 0%Z]
                 ∧ invariant (Elem := int_element) this = true
                 ∧ after 3 quiet w')
        ∨ (Vector_sized (Elem := int_element) 3 quiet = (Throw (), w')
           ∧ leaked w' = leaked quiet ∧ ¬ calm quiet).
Proof. apply (Vector_sized_outcomes (Elem := int_element) 3 quiet). reflexivity. Defined.

Lemma Vector_copy_outcomes_witness :
  ∃ w', (∃ this, Vector_copy (Elem := int_element) (vector_of [1%Z; 2%Z] 3) quiet = (Ok this, w')
                 ∧ Size this = 2%N ∧ Capacity this = 2%N
                 ∧ elements this = elements (vector_of [1%Z; 2%Z] 3)
                 ∧ invariant (Elem := int_element) this = true
                 ∧ after 2 quiet w')
        ∨ (Vector_copy (Elem := int_element) (vector_of [1%Z; 2%Z] 3) quiet = (Throw (), w')
           ∧ leaked w' = leaked quiet ∧ ¬ calm quiet).
Proof. apply (Vector_copy_outcomes (Elem := int_element) (vector_of [1%Z; 2%Z] 3) quiet). reflexivity. Defined.

Lemma Vector_move_empties_source_witness :
  ∃ this other', Vector_move (vector_of [1%Z; 2%Z] 3) = (this, other')
                 ∧ elements this = elements (vector_of [1%Z; 2%Z] 3)
                 ∧ Capacity this = 3%N
                 ∧ invariant (Elem := int_element) this = true
                 ∧ Size other' = 0%N ∧ Capacity other' = 0%N ∧ invariant (Elem := int_element) other' = true.
Proof. apply (Vector_move_empties_source (Elem := int_element) (vector_of [1%Z; 2%Z] 3)). reflexivity. Defined.

Lemma Reserve_strong_guarantee_witness :
  ∃ this' w', Reserve (Elem := probe_element) 4 (vector_of [1%Z; 2%Z] 2)
                {| faults := [false; false; true]; elem_ops := 0; leaked := 0 |}
              = (Throw this', w')
              ∧ this' = vector_of [1%Z; 2%Z] 2 ∧ leaked w' = 0.
Proof.
  eexists _, _. split; [reflexivity|].
  apply (Reserve_strong_guarantee (Elem := probe_element) 4 (vector_of [1%Z; 2%Z] 2)
           {| faults := [false; false; true]; elem_ops := 0; leaked := 0 |}); reflexivity.
Defined.

Lemma move_assign_strands_target_elements_witness :
  ∃ this' other', move_assign (vector_of [7%Z; 8%Z] 2) (vector_of [1%Z] 1) = (this', other')
                  ∧ this' = vector_of [1%Z] 1
                  ∧ Size other' = 0%N ∧ Capacity other' = 2%N
                  ∧ Vector_dtor this' quiet = Some quiet
                  ∧ Vector_dtor other' quiet = Some (count_leaks 2 quiet).
Proof.
  apply (move_assign_strands_target_elements (Elem := int_element) (vector_of [7%Z; 8%Z] 2) (vector_of [1%Z] 1) quiet);
    reflexivity.
Defined.

Lemma Vector_at_defined_below_Size_witness :
  is_Some (Vector_at (vector_of [1%Z; 2%Z] 3) 2) ↔ (2 < 2)%N.
Proof. apply (Vector_at_defined_below_Size (Elem := int_element) (vector_of [1%Z; 2%Z] 3) 2). reflexivity. Defined.

Lemma EmplaceBack_strong_guarantee_witness :
  ∃ this' w',
    EmplaceBack (Elem := probe_element) false 99%Z (vector_of [1%Z; 2%Z] 2) suffix_fault
    = (Throw this', w')
    ∧ this' = vector_of [1%Z; 2%Z] 2
    ∧ (leaked w' = 0 ∨ leaked w' = 1 ∧ 2%N = 2%N ∧ false = false).
Proof.
  eexists _, _. split; [reflexivity|].
  apply (EmplaceBack_strong_guarantee (Elem := probe_element) false 99%Z
           (vector_of [1%Z; 2%Z] 2) suffix_fault); reflexivity.
Defined.

Lemma EmplaceBack_noexcept_with_room_witness :
  ∃ this' w', EmplaceBack (Elem := probe_element) true 9%Z (vector_of [1%Z; 2%Z] 3)
                {| faults := [true; true]; elem_ops := 0; leaked := 0 |}
              = (Ok (2, this'), w')
              ∧ elements this' = [Some 1%Z; Some 2%Z; Some 9%Z]
              ∧ Capacity this' = 3%N
              ∧ leaked w' = 0.
Proof.
  apply (EmplaceBack_noexcept_with_room (Elem := probe_element) 9%Z (vector_of [1%Z; 2%Z] 3)
           {| faults := [true; true]; elem_ops := 0; leaked := 0 |}); reflexivity.
Defined.

Lemma Emplace_full_throw_is_strong_witness :
  ∃ this' w', Emplace (Elem := probe_element) false 1 99%Z (vector_of [1%Z; 2%Z] 2)
                {| faults := [false; false; true]; elem_ops := 0; leaked := 0 |}
              = (Throw this', w')
              ∧ this' = vector_of [1%Z; 2%Z] 2 ∧ leaked w' = 0.
Proof.
  eexists _, _. split; [reflexivity|].
  apply (Emplace_full_throw_is_strong (Elem := probe_element) false 1 99%Z
           (vector_of [1%Z; 2%Z] 2)
           {| faults := [false; false; true]; elem_ops := 0; leaked := 0 |}); reflexivity.
Defined.

Lemma Erase_at_end_pops_witness :
  ∃ this', PopBack (vector_of [1%Z; 2%Z] 2) = Some this'
           ∧ Erase (Elem := int_element) 2 (vector_of [1%Z; 2%Z] 2) quiet
             = (Ok (begin_ this' + N.to_nat (Size this'), this'), quiet)
           ∧ Size this' = 1%N
           ∧ elements this' = [Some 1%Z]
           ∧ invariant (Elem := int_element) this' = true.
Proof.
  apply (Erase_at_end_pops (Elem := int_element) (vector_of [1%Z; 2%Z] 2) quiet); reflexivity.
Defined.

Lemma push_then_PopBack_witness :
  ∃ this1 w1 this2,
    push (Elem := int_element) (CallPushBack 3%Z) (vector_of [1%Z; 2%Z] 2) quiet = (Ok this1, w1)
    ∧ PopBack this1 = Some this2
    ∧ elements this2 = elements (vector_of [1%Z; 2%Z] 2) ∧ Size this2 = 2%N
    ∧ Capacity this2 = Capacity this1 ∧ invariant (Elem := int_element) this2 = true.
Proof.
  apply (push_then_PopBack (Elem := int_element) (CallPushBack 3%Z) (vector_of [1%Z; 2%Z] 2)
           quiet); reflexivity.
Defined.

Lemma PopBack_and_Erase_need_an_element_witness :
  PopBack (vector_of (T := Z) [] 2) = None
  ∧ ∀ pos, Erase (Elem := int_element) pos (vector_of [] 2) quiet = (Undef, quiet).
Proof.
  apply (PopBack_and_Erase_need_an_element (Elem := int_element) (vector_of [] 2) quiet);
    reflexivity.
Defined.

Lemma Resize_throw_keeps_elements_witness :
  ∃ this' w', Resize (Elem := probe_element) 4 (vector_of [1%Z; 2%Z] 2) suffix_fault
              = (Throw this', w')
              ∧ elements this' = [Some 1%Z; Some 2%Z] ∧ Size this' = 2%N
              ∧ (2 <= Capacity this')%N ∧ invariant (Elem := probe_element) this' = true
              ∧ leaked w' = 0.
Proof.
  eexists _, _. split; [reflexivity|].
  apply (Resize_throw_keeps_elements (Elem := probe_element) 4 (vector_of [1%Z; 2%Z] 2)
           suffix_fault); reflexivity.
Defined.

Lemma pushes_cost_linear_witness :
  ∃ this w', push_all (Elem := int_element) three_pushes Vector_default quiet = (Ok this, w')
             ∧ elem_ops w' ≤ 0 + 3 * 3
             ∧ (Capacity this <= 2 * 3)%N
             ∧ leaked w' = 0.
Proof.
  apply (pushes_cost_linear (Elem := int_element) three_pushes quiet); reflexivity.
Defined.

Lemma Reserve_overflow_never_returns_witness :
  (∃ w', Reserve (Elem := int_element) (2 ^ 62) (vector_of [1%Z; 2%Z] 2) quiet = (Undef, w'))
  ∨ (∃ this' w', Reserve (Elem := int_element) (2 ^ 62) (vector_of [1%Z; 2%Z] 2) quiet
                 = (Throw this', w')
                 ∧ ¬ calm quiet).
Proof.
  apply (Reserve_overflow_never_returns (Elem := int_element) (2 ^ 62)
           (vector_of [1%Z; 2%Z] 2) quiet); reflexivity.
Defined.

Lemma Reserve_cost_witness :
  ∃ this' w', Reserve (Elem := int_element) 9 (vector_of [1%Z; 2%Z] 2) quiet = (Ok this', w')
              ∧ elem_ops w' = 2 + 0
              ∧ leaked w' = 0 ∧ calm w'.
Proof.
  apply (Reserve_cost (Elem := int_element) 9 (vector_of [1%Z; 2%Z] 2) quiet); reflexivity.
Defined.
